(** * mlelr: multinomial logistic regression by maximum likelihood

    A shallow embedding of the C sources of mlelr (dataset.c, interface.c,
    model.c, tabulate.c, mlelr.c) and the properties of it that the
    specification states.

    Conventions of the embedding.
    - [double] values are an abstract type [D] with the operations the C code
      uses (class [Double]).  The instance [binary64] is IEEE-754 binary64
      (Rocq's primitive floats); the instance [exact_Z] is exact integer
      arithmetic, the idealisation under which sums do not round.  The
      functions of libm and of the GSL are a second class, [Libm].
    - [int] values that the code only uses as sizes, loop counters and array
      indices are [nat]; those that may be negative or are compared with a
      sentinel are [Z] or [option nat].  Integer overflow is not modelled.
    - A [double *] is a [list D], a [double **] a [list (list D)].  Reading
      outside an array yields [d0] and writing outside it is dropped; both are
      undefined in C, and the theorems that depend on an access being inside
      say so.
    - A C [for] loop is [for_loop]; a loop left by [return] or [break] is
      [for_ret]. *)

From Stdlib Require Import ZArith Floats Lia Bool Ascii String.
From stdpp Require Import base list.

Set Default Proof Using "Type".
Local Open Scope nat_scope.

(* ================================================================== *)
(** * Loops *)

(** [iter_from body n lo s]: [n] iterations of [body], the counter starting
    at [lo]. *)
Fixpoint iter_from {S : Type} (body : nat -> S -> S) (n lo : nat) (s : S) : S :=
  match n with
  | O => s
  | Datatypes.S n' => iter_from body n' (Datatypes.S lo) (body lo s)
  end.

(** [for (i = lo; i < hi; i++) body] *)
Definition for_loop {S : Type} (lo hi : nat) (body : nat -> S -> S) (s : S) : S :=
  iter_from body (hi - lo) lo s.

(** The same loop when [body] may leave it ([inr r]: [return] or [break]
    with the state [r]). *)
Fixpoint iter_ret {S R : Type} (body : nat -> S -> S + R) (n lo : nat) (s : S) : S + R :=
  match n with
  | O => inl s
  | Datatypes.S n' =>
      match body lo s with
      | inl s' => iter_ret body n' (Datatypes.S lo) s'
      | inr r => inr r
      end
  end.

Definition for_ret {S R : Type} (lo hi : nat) (body : nat -> S -> S + R) (s : S) : S + R :=
  iter_ret body (hi - lo) lo s.

(** [for (i = hi - 1; i >= 0; i--) body] *)
Fixpoint for_down {S : Type} (hi : nat) (body : nat -> S -> S) (s : S) : S :=
  match hi with
  | O => s
  | Datatypes.S i => for_down i body (body i s)
  end.

(* ================================================================== *)
(** * The type [double] *)

Class Double (D : Type) : Type := {
  d_of_int : Z -> D;                (* (double) n, and the literals 0, 1, 2, -1 *)
  EPSILON : D;                      (* mlelr.c: static const double EPSILON = 1e-8 *)
  dadd : D -> D -> D;
  dsub : D -> D -> D;
  dmul : D -> D -> D;
  ddiv : D -> D -> D;
  dneg : D -> D;
  deqb : D -> D -> bool;            (* a == b *)
  dltb : D -> D -> bool;            (* a < b *)
  dleb : D -> D -> bool;            (* a <= b *)
  fabs : D -> D;
  sqrt : D -> D
}.

(** The functions of libm and of the GSL that mlelr.c calls besides. *)
Class Libm (D : Type) : Type := {
  exp : D -> D;
  log : D -> D;
  pow : D -> D -> D;
  gsl_sf_lngamma : D -> D;
  gsl_cdf_chisq_P : D -> D -> D
}.

Declare Scope dbl_scope.
Delimit Scope dbl_scope with D.
Infix ".+" := dadd (at level 50, left associativity) : dbl_scope.
Infix ".-" := dsub (at level 50, left associativity) : dbl_scope.
Infix ".*" := dmul (at level 40, left associativity) : dbl_scope.
Infix "./" := ddiv (at level 40, left associativity) : dbl_scope.
Infix ".==" := deqb (at level 70, no associativity) : dbl_scope.
Infix ".<" := dltb (at level 70, no associativity) : dbl_scope.
Infix ".<=" := dleb (at level 70, no associativity) : dbl_scope.
Notation "a .> b" := (dltb b a) (at level 70, no associativity) : dbl_scope.
Notation "a .>= b" := (dleb b a) (at level 70, no associativity) : dbl_scope.
Notation "a .!= b" := (negb (deqb a b)) (at level 70, no associativity) : dbl_scope.
Local Open Scope dbl_scope.

Definition d0 {D : Type} `{Double D} : D := d_of_int 0.
Definition d1 {D : Type} `{Double D} : D := d_of_int 1.

(** [(double) n] for an [int] n. *)
Definition float_of_int (n : Z) : float :=
  if (n <? 0)%Z then PrimFloat.opp (PrimFloat.of_uint63 (Uint63.of_Z (- n)))
  else PrimFloat.of_uint63 (Uint63.of_Z n).

(** IEEE-754 binary64: the [double] of the platforms mlelr runs on. *)
#[export] Instance binary64 : Double float := {|
  d_of_int := float_of_int;
  EPSILON := 0x1.5798ee2308c3ap-27%float;    (* 1e-8 *)
  dadd := PrimFloat.add;
  dsub := PrimFloat.sub;
  dmul := PrimFloat.mul;
  ddiv := PrimFloat.div;
  dneg := PrimFloat.opp;
  deqb := PrimFloat.eqb;
  dltb := PrimFloat.ltb;
  dleb := PrimFloat.leb;
  fabs := PrimFloat.abs;
  sqrt := PrimFloat.sqrt
|}.

(** Exact integer arithmetic: data whose values are integers small enough
    for every sum to be exact. *)
Definition exact_Z : Double Z := {|
  d_of_int := fun n => n;
  EPSILON := 0%Z;
  dadd := Z.add;
  dsub := Z.sub;
  dmul := Z.mul;
  ddiv := Z.div;
  dneg := Z.opp;
  deqb := Z.eqb;
  dltb := Z.ltb;
  dleb := Z.leb;
  fabs := Z.abs;
  sqrt := Z.sqrt
|}.

(* ================================================================== *)
(** * Arrays *)

Section Arrays.
Context {D : Type} `{Double D}.

(** [v[i]] *)
Definition vget (v : list D) (i : nat) : D := default d0 (v !! i).

(** [x[i][j]] *)
Definition mget (x : list (list D)) (i j : nat) : D :=
  match x !! i with
  | Some row => vget row j
  | None => d0
  end.

(** [x[i][j] = v] *)
Definition mset (x : list (list D)) (i j : nat) (v : D) : list (list D) :=
  alter (fun row => <[j := v]> row) i x.

(** An [r] by [c] matrix. *)
Definition shape (x : list (list D)) (r c : nat) : Prop :=
  length x = r /\ Forall (fun row => length row = c) x.

End Arrays.

(* ================================================================== *)
(** * mlelr.c: the linear algebra *)

Section Linalg.
Context {D : Type} `{Double D}.

(** Lines 734-736: the sum of the squares of column [i] above the diagonal,
    added from the top. *)
Definition column_sumsq (x : list (list D)) (i : nat) : D :=
  for_loop 0 i (fun j sum => sum .+ mget x j i .* mget x j i) d0.

(** Lines 743-745: the product of columns [i] and [j] above row [i]. *)
Definition column_dot (x : list (list D)) (i j : nat) : D :=
  for_loop 0 i (fun k sum => sum .+ mget x k i .* mget x k j) d0.

(** One round of [cholesky]'s loop, at the pivot [i]: the matrix when the
    round ran to its end, or the pivot at which the function returned 1 and
    the matrix at that moment. *)
Definition cholesky_pivot (order : nat) (i : nat) (x : list (list D))
  : list (list D) + nat * list (list D) :=
  let sum := column_sumsq x i in
  if sum .>= mget x i i then inr (i, x)
  else
    let x := mset x i i (sqrt (mget x i i .- sum)) in
    inl (for_loop (i + 1) order (fun j x =>
           let sum := column_dot x i j in
           mset x i j ((mget x i j .- sum) ./ mget x i i)) x).

Definition cholesky_run (x : list (list D)) (order : nat)
  : list (list D) + nat * list (list D) :=
  for_ret 0 order (cholesky_pivot order) x.

(** [static int cholesky(double **x, int order)]: the return value and [x]
    as the call leaves it. *)
Definition cholesky (x : list (list D)) (order : nat) : Z * list (list D) :=
  match cholesky_run x order with
  | inl x' => (0%Z, x')
  | inr (_, x') => (1%Z, x')
  end.

(** [static int backsub(double **x, int order)] *)
Definition backsub_row (i : nat) (x : list (list D)) : list (list D) + list (list D) :=
  if mget x i i .== d0 then inr x
  else
    let x := mset x i i (d1 ./ mget x i i) in
    inl (for_loop 0 i (fun j x =>
           let sum := for_loop j i (fun k sum => sum .+ mget x j k .* mget x k i) d0 in
           mset x j i (dneg sum .* mget x i i)) x).

Definition backsub (x : list (list D)) (order : nat) : Z * list (list D) :=
  if mget x 0 0 .== d0 then (1%Z, x)
  else
    let x := mset x 0 0 (d1 ./ mget x 0 0) in
    match for_ret 1 order backsub_row x with
    | inl x' => (0%Z, x')
    | inr x' => (1%Z, x')
    end.

(** [static int trimult(double **in, double **out, int order)] *)
Definition trimult (inp out : list (list D)) (order : nat) : Z * list (list D) :=
  (0%Z,
   for_loop 0 order (fun i out =>
     for_loop 0 order (fun j out =>
       let m := if (j <? i)%nat then i else j in
       let sum := for_loop m order (fun k sum => sum .+ mget inp i k .* mget inp j k) d0 in
       mset out i j sum) out) out).

(** A square matrix that equals its transpose. *)
Definition symmetric (P : nat) (Hm : list (list D)) : Prop :=
  shape Hm P P /\ forall a b, mget Hm a b = mget Hm b a.

(** What holds of the matrix [xk] after the rounds before [k], [x] being the
    matrix the function was called with. *)
Definition cholesky_inv (order : nat) (x : list (list D)) (k : nat) (xk : list (list D)) : Prop :=
  (* rows from k on, and the cells below the diagonal, are as they were *)
  (forall r c, k <= r \/ c < r \/ order <= c /\ c <> r -> mget xk r c = mget x r c) /\
  (* no pivot before k failed the test *)
  (forall i, i < k -> (column_sumsq xk i .>= mget x i i) = false) /\
  (forall rr cc, shape x rr cc -> shape xk rr cc /\
     (order <= rr -> order <= cc -> forall i, i < k ->
        mget xk i i = sqrt (mget x i i .- column_sumsq xk i) /\
        forall j, i < j < order ->
          mget xk i j = (mget x i j .- column_dot xk i j) ./ mget xk i i)).

End Linalg.

(* ================================================================== *)
(** * libc: strings and qsort *)

(** A C string is the Rocq string of its characters; the character NUL ends
    it, so a string that is a C string holds none ([cstring]). *)
Definition is_nul (c : ascii) : bool := Ascii.eqb c zero.

Fixpoint cstring (s : string) : bool :=
  match s with
  | EmptyString => true
  | String c s' => negb (is_nul c) && cstring s'
  end.

Fixpoint strlen (s : string) : nat :=
  match s with
  | EmptyString => 0
  | String c s' => if is_nul c then 0 else Datatypes.S (strlen s')
  end.

Definition uchar (c : ascii) : Z := Z.of_nat (nat_of_ascii c).

(** [strncmp(s1, s2, n)]: the difference of the first characters that
    differ among the first [n], 0 when there is none before a NUL. *)
Fixpoint strncmp (s1 s2 : string) (n : nat) : Z :=
  match n with
  | O => 0
  | Datatypes.S n' =>
      match s1, s2 with
      | EmptyString, EmptyString => 0
      | EmptyString, String c2 _ => (0 - uchar c2)%Z
      | String c1 _, EmptyString => (uchar c1 - 0)%Z
      | String c1 r1, String c2 r2 =>
          if Ascii.eqb c1 c2
          then if is_nul c1 then 0%Z else strncmp r1 r2 n'
          else (uchar c1 - uchar c2)%Z
      end
  end.

(** [strcmp(s1, s2)] *)
Definition strcmp (s1 s2 : string) : Z :=
  strncmp s1 s2 (Datatypes.S (Nat.max (String.length s1) (String.length s2))).

(** [qsort] with the comparison [cmp], modelled by insertion sort.  (C does
    not say in which order elements that compare equal come out.) *)
Fixpoint qsort_insert {A : Type} (cmp : A -> A -> Z) (a : A) (l : list A) : list A :=
  match l with
  | [] => [a]
  | b :: l' => if (cmp a b <=? 0)%Z then a :: b :: l' else b :: qsort_insert cmp a l'
  end.

Definition qsort {A : Type} (cmp : A -> A -> Z) (l : list A) : list A :=
  foldr (qsort_insert cmp) [] l.

(* ================================================================== *)
(** * interface.c: the options *)

(** [struct options]: [n] keys [k[i]] with their values [v[i]]. *)
Abbreviation options := (list (string * string)).

(** [char *get_option (char *k)]; [None] is NULL. *)
Definition get_option (opts : options) (k : string) : option string :=
  match for_ret 0 (length opts) (fun i (_ : unit) =>
          match opts !! i with
          | Some (ki, vi) => if (strncmp k ki (strlen ki) =? 0)%Z then inr vi else inl tt
          | None => inl tt
          end) tt with
  | inl _ => None
  | inr v => Some v
  end.

(** [void set_option (char *k, char *v)] *)
Definition set_option (opts : options) (k v : string) : options :=
  match for_ret 0 (length opts) (fun i (_ : unit) =>
          match opts !! i with
          | Some (ki, _) => if (strncmp k ki (strlen ki) =? 0)%Z then inr i else inl tt
          | None => inl tt
          end) tt with
  | inl _ => opts ++ [(k, v)]
  | inr i => alter (fun kv => (kv.1, v)) i opts
  end.

(** The test of both loops: the stored key [ki] matches the key [k]. *)
Definition option_hit (k ki : string) : bool := (strncmp k ki (strlen ki) =? 0)%Z.

(** Option [i], of key [ki] and value [v], is the first whose key matches
    [k]; and no option has a key that matches [k]. *)
Definition first_match (opts : options) (k : string) (i : nat) (ki v : string) : Prop :=
  opts !! i = Some (ki, v) /\ option_hit k ki = true /\
  forall i' kv, i' < i -> opts !! i' = Some kv -> option_hit k kv.1 = false.

Definition no_match (opts : options) (k : string) : Prop :=
  forall kv, kv ∈ opts -> option_hit k kv.1 = false.

(** [void init_options (void)] *)
Definition init_options : options := set_option [] "params" "centerpoint".

(* ================================================================== *)
(** * dataset.c *)

Section Dataset.
Context {D : Type} `{Double D}.

(** [dataset]: [n] is the length of [obs]; the allocation bookkeeping
    ([size], [values]) has no counterpart. *)
Record dataset : Type := {
  handle : string;
  nvars : nat;
  varnames : list string;
  obs : list (list D);
  weight : option nat            (* [None] is -1: no weight variable *)
}.

Definition ds_n (ds : dataset) : nat := length (obs ds).

Definition set_obs (ds : dataset) (o : list (list D)) : dataset :=
  {| handle := handle ds; nvars := nvars ds; varnames := varnames ds;
     obs := o; weight := weight ds |}.

(** [add_dataset (handle, nvars, varnames, is_public)] for a dataset that is
    not entered in the dataspace. *)
Definition add_dataset (h : string) (nv : nat) (names : list string) : dataset :=
  {| handle := h; nvars := nv; varnames := names; obs := []; weight := None |}.

(** [add_observation]: the first [nvars] values of [o] become the last
    observation. *)
Definition add_observation (ds : dataset) (o : list D) : dataset :=
  set_obs ds (obs ds ++ [map (vget o) (seq 0 (nvars ds))]).

(** [compare_obs]: the comparison [qsort] is given, on [sort_columns]
    columns.  As in the source, rows whose sort columns are all equal are
    compared on the column after them. *)
Definition compare_obs (sort_columns : nat) (a b : list D) : Z :=
  let i := match for_ret 0 sort_columns (fun i (_ : unit) =>
                   if vget a i .== vget b i then inl tt else inr i) tt with
           | inl _ => sort_columns
           | inr i => i
           end in
  (Z.b2z (vget a i .> vget b i) - Z.b2z (vget a i .< vget b i))%Z.

(** [sort_dataset (ds, n_cols)] *)
Definition sort_dataset (ds : dataset) (n_cols : nat) : dataset :=
  set_obs ds (qsort (compare_obs n_cols) (obs ds)).

(** The inner loop of [find_observation]: does it reach [j == n_vars]? *)
Definition obs_match (o row : list D) (n_vars : nat) : bool :=
  match for_ret 0 n_vars (fun j (_ : unit) =>
          if vget o j .!= vget row j then inr tt else inl tt) tt with
  | inl _ => true
  | inr _ => false
  end.

(** [find_observation (ds, obs, n_vars)]; [None] is -1. *)
Definition find_observation (ds : dataset) (o : list D) (n_vars : nat) : option nat :=
  match for_ret 0 (ds_n ds) (fun i (_ : unit) =>
          if obs_match o (default [] (obs ds !! i)) n_vars then inr i else inl tt) tt with
  | inl _ => None
  | inr i => Some i
  end.

(** [find_varname (ds, varname)]; [None] is -1. *)
Definition find_varname (ds : dataset) (varname : string) : option nat :=
  match for_ret 0 (nvars ds) (fun i (_ : unit) =>
          if (strcmp varname (default EmptyString (varnames ds !! i)) =? 0)%Z
          then inr i else inl tt) tt with
  | inl _ => None
  | inr i => Some i
  end.

End Dataset.
Arguments dataset D : clear implicits.

(* ================================================================== *)
(** * model.h, model.c *)

(** [enum model_variable] *)
Definition DEPENDENT : Z := 0.
Definition MAIN : Z := 1.
Definition DIRECT : Z := 2.
Definition NEW_INTERACTION : Z := 3.
Definition INTERACTION : Z := 4.

Section Model.
Context {D : Type} `{Double D}.

(** [model]: [numiv] is the length of [iv] (and of [ivnames], [direct]),
    [numints] the length of [ints] (and of [intnames]), [inttc[i]] the length
    of [ints[i]].  The terms of an interaction are [int]s, kept as [Z]. *)
Record model : Type := {
  dvname : string;
  dv : nat;
  ivnames : list string;
  iv : list nat;
  direct : list Z;
  ints : list (list Z);
  intnames : list string;
  xtab : dataset D;
  freqs : list (dataset D)
}.

Definition numiv (mdl : model) : nat := length (iv mdl).
Definition numints (mdl : model) : nat := length (ints mdl).
Definition inttc (mdl : model) (i : nat) : nat := length (default [] (ints mdl !! i)).

(** [init_model]: the fields it leaves unset ([dv], [dvname], [xtab],
    [freqs]) are given placeholders. *)
Definition init_model : model := {|
  dvname := EmptyString; dv := 0;
  ivnames := []; iv := []; direct := [];
  ints := []; intnames := [];
  xtab := add_dataset EmptyString 0 [];
  freqs := []
|}.

Definition set_dv (mdl : model) (name : string) (idx : nat) : model :=
  {| dvname := name; dv := idx;
     ivnames := ivnames mdl; iv := iv mdl; direct := direct mdl;
     ints := ints mdl; intnames := intnames mdl;
     xtab := xtab mdl; freqs := freqs mdl |}.

Definition set_main (mdl : model) (names : list string) (idx : list nat) (dir : list Z) : model :=
  {| dvname := dvname mdl; dv := dv mdl;
     ivnames := names; iv := idx; direct := dir;
     ints := ints mdl; intnames := intnames mdl;
     xtab := xtab mdl; freqs := freqs mdl |}.

Definition set_ints (mdl : model) (terms : list (list Z)) (names : list string) : model :=
  {| dvname := dvname mdl; dv := dv mdl;
     ivnames := ivnames mdl; iv := iv mdl; direct := direct mdl;
     ints := terms; intnames := names;
     xtab := xtab mdl; freqs := freqs mdl |}.

Definition set_tables (mdl : model) (xt : dataset D) (fr : list (dataset D)) : model :=
  {| dvname := dvname mdl; dv := dv mdl;
     ivnames := ivnames mdl; iv := iv mdl; direct := direct mdl;
     ints := ints mdl; intnames := intnames mdl;
     xtab := xt; freqs := fr |}.

(** What a call of [add_model_variable] leaves: its return value, the model,
    and the lines it logs at level INFO. *)
Record amv_result : Type := {
  amv_ret : Z;
  amv_model : model;
  amv_log : list string
}.

(** [add_model_variable (mdl, ds, varname, vartype)].

    The local [ividx] is declared without an initial value and is assigned
    only where the search of the main effects finds the variable; [ividx0]
    is the value it holds otherwise (indeterminate in C). *)
Definition add_model_variable (mdl : model) (ds : dataset D) (varname : string)
    (vartype : Z) (ividx0 : Z) : amv_result :=
  if negb ((0 <=? vartype)%Z && (vartype <=? 4)%Z) then
    {| amv_ret := 1; amv_model := mdl;
       amv_log := ["Error: unrecognized variable type"%string] |}
  else
  (* find the variable name and fail if not found *)
  match find_varname ds varname with
  | None => {| amv_ret := 1; amv_model := mdl; amv_log := [] |}
  | Some varidx =>
    (* add the DEPENDENT variable to the model *)
    if (vartype =? DEPENDENT)%Z then
      {| amv_ret := 0; amv_model := set_dv mdl varname varidx; amv_log := [] |}
    else
    (* search the array of main effects *)
    let '(found, ividx) :=
      match for_ret 0 (numiv mdl) (fun i (_ : unit) =>
              if (varidx =? default 0 (iv mdl !! i))%nat then inr i else inl tt) tt with
      | inl _ => (false, ividx0)
      | inr i => (true, Z.of_nat i)
      end in
    (* warn and return success, if MAIN or DIRECT variable already exists *)
    if found && ((vartype =? MAIN)%Z || (vartype =? DIRECT)%Z) then
      {| amv_ret := 0; amv_model := mdl;
         amv_log := ["Warning: variable already exists in model: " ++ varname]%string |}
    else
    let '(mdl, log) :=
      if negb found then
        (* add this variable as a main effect *)
        (set_main mdl (ivnames mdl ++ [varname]) (iv mdl ++ [varidx])
                  (direct mdl ++ [if (vartype =? DIRECT)%Z then 1%Z else 0%Z]),
         (* warn if this is an interaction effect without a main effect *)
         if (vartype =? NEW_INTERACTION)%Z || (vartype =? INTERACTION)%Z
         then ["Warning: this interaction variable will also be added as a main effect: "
                 ++ varname]%string
         else [])
      else (mdl, []) in
    (* add a new interaction *)
    let mdl :=
      if (vartype =? NEW_INTERACTION)%Z
      then set_ints mdl (ints mdl ++ [[ividx]]) (intnames mdl ++ [varname])
      else mdl in
    (* append to an existing interaction *)
    if (vartype =? INTERACTION)%Z then
      let last := numints mdl - 1 in
      let terms := default [] (ints mdl !! last) in
      (* search the terms in the latest interaction and warn if already found *)
      let found :=
        match for_ret 0 (length terms) (fun i (_ : unit) =>
                if (ividx =? default 0%Z (terms !! i))%Z then inr tt else inl tt) tt with
        | inl _ => false
        | inr _ => true
        end in
      if found then
        {| amv_ret := 0; amv_model := mdl;
           amv_log := log ++ ["Warning: interaction variable already exists: " ++ varname]%string |}
      else
        {| amv_ret := 0;
           amv_model :=
             set_ints mdl (alter (fun t => t ++ [ividx]) last (ints mdl))
                          (alter (fun nm => nm ++ "*" ++ varname)%string last (intnames mdl));
           amv_log := log |}
    else
      {| amv_ret := 0; amv_model := mdl; amv_log := log |}
  end.

End Model.
Arguments model D : clear implicits.
Arguments amv_result D : clear implicits.

(* ================================================================== *)
(** * tabulate.c *)

Section Tabulate.
Context {D : Type} `{Double D}.

Definition freqvars : list string := ["Value"; "Freq"]%string.

(** Lines 133-150 of [tabulate]: [target] is looked for in the frequency
    table and its [weight] added to the entry found, or to a new entry. *)
Definition freq_search (fr : dataset D) (target : D) : option nat :=
  match for_ret 0 (ds_n fr) (fun k (_ : unit) =>
          if target .== mget (obs fr) k 0 then inr k else inl tt) tt with
  | inl _ => None
  | inr k => Some k
  end.

Definition freq_add (fr : dataset D) (target weight : D) : dataset D :=
  match freq_search fr target with
  | None => add_observation fr [target; weight]
  | Some k => set_obs fr (mset (obs fr) k 1 (mget (obs fr) k 1 .+ weight))
  end.

(** [int frequency_table (dataset *ds, int var)]: the table it builds and
    prints. *)
Definition frequency_table (ds : dataset D) (var : nat) : dataset D :=
  let handle := ("Frequency table for: " ++ default EmptyString (varnames ds !! var))%string in
  let freq := add_dataset handle 2 freqvars in
  (* loop for each observation in the dataset *)
  let freq :=
    for_loop 0 (ds_n ds) (fun i freq =>
      let target := mget (obs ds) i var in
      let weight := match weight ds with
                    | None => d1
                    | Some w => mget (obs ds) i w
                    end in
      freq_add freq target weight) freq in
  sort_dataset freq 1.

(** The state of [tabulate]'s loop: the frequency tables, the crosstab and
    the buffer [obs]. *)
Record tab_state : Type := {
  t_freqs : list (dataset D);
  t_xtab : dataset D;
  t_obs : list D
}.

(** The weight of observation [row]: [(ds->weight == -1) ? 1.0 : row[ds->weight]] *)
Definition obs_weight (ds : dataset D) (row : list D) : D :=
  match weight ds with
  | None => d1
  | Some w => vget row w
  end.

(** Lines 156-164 of [tabulate]: the observation [o] is looked for in the
    crosstab and [weight] added to the row found, or to a new row. *)
Definition xtab_add (xt : dataset D) (o : list D) (nv : nat) (weight : D)
  : dataset D * list D :=
  match find_observation xt o (1 + nv) with
  | None =>
      let o := <[1 + nv := weight]> o in
      (add_observation xt o, o)
  | Some found =>
      (set_obs xt (mset (obs xt) found (1 + nv) (mget (obs xt) found (1 + nv) .+ weight)), o)
  end.

(** Lines 125-154: the loop over the variables of the crosstab, for the
    observation [row]. *)
Definition tabulate_vars (mdl : model D) (row : list D) (weight : D)
    (fr : list (dataset D)) (o : list D) : list (dataset D) * list D :=
  let nv := numiv mdl in
  for_loop 0 (nv + 1) (fun j '(fr, o) =>
    let target :=
      if (j <? nv)%nat then vget row (default 0 (iv mdl !! j))
      else vget row (dv mdl) in
    (alter (fun f => freq_add f target weight) j fr, <[j := target]> o))
    (fr, o).

(** The body of the loop over the observations (lines 116-168), for the
    observation [row]. *)
Definition tabulate_row (ds : dataset D) (mdl : model D) (row : list D) (st : tab_state)
  : tab_state :=
  let weight := obs_weight ds row in
  (* the weight must be positive otherwise we will ignore the entire observation *)
  if weight .> d0 then
    let '(fr, o) := tabulate_vars mdl row weight (t_freqs st) (t_obs st) in
    (* search for the obs in the xtab *)
    let '(xt, o) := xtab_add (t_xtab st) o (numiv mdl) weight in
    {| t_freqs := fr; t_xtab := xt; t_obs := o |}
  else st.

Definition tabulate_obs (ds : dataset D) (mdl : model D) (i : nat) (st : tab_state)
  : tab_state :=
  tabulate_row ds mdl (default [] (obs ds !! i)) st.

(** [int tabulate (dataset *ds, model *mod)]: the model with its crosstab and
    frequency tables. *)
Definition tabulate (ds : dataset D) (mdl : model D) : model D :=
  let nv := numiv mdl in
  let names := ivnames mdl ++ [dvname mdl; "_Count"%string] in
  let st0 :=
    {| t_freqs := replicate nv (add_dataset "_mlelr_freq_iv" 2 freqvars)
                    ++ [add_dataset "_mlelr_freq_dv" 2 freqvars];
       t_xtab := add_dataset "_mlelr_xtab" (2 + nv) names;
       t_obs := replicate (2 + nv) d0 |} in
  let st := for_loop 0 (ds_n ds) (tabulate_obs ds mdl) st0 in
  (* sort the freq and xtab datasets *)
  set_tables mdl
    (sort_dataset (t_xtab st) (1 + nv))
    (for_loop 0 (1 + nv) (fun i fr => alter (fun f => sort_dataset f 1) i fr) (t_freqs st)).

End Tabulate.
Arguments tab_state D : clear implicits.

(* ================================================================== *)
(** * mlelr.c: the Newton-Raphson step *)

Section NewtonRaphson.
Context {D : Type} `{Double D} `{Libm D}.

(** What [newton_raphson] accumulates over the populations before it
    inverts: the gradient [g], the Hessian [H], the log likelihood and the
    deviance (lines 600-687). *)
Record nr_sums : Type := {
  s_g : list D;
  s_H : list (list D);
  s_loglike : D;
  s_deviance : D
}.

(** [H[a][b] += v; H[b][a] = H[a][b]] *)
Definition H_add_sym (Hm : list (list D)) (a b : nat) (v : D) : list (list D) :=
  let Hm := mset Hm a b (mget Hm a b .+ v) in
  mset Hm b a (mget Hm a b).

(** Lines 614-632: the predicted probabilities [pi[i]] of population [i]. *)
Definition nr_pi (X : list (list D)) (J K : nat) (beta0 : list D) (i : nat) : list D :=
  let '(numer, denom, _) :=
    for_loop 0 (J - 1) (fun j '(numer, denom, jj) =>
      let '(sum1, jj) :=
        for_loop 0 K (fun k '(sum1, jj) =>
          (sum1 .+ mget X i k .* vget beta0 jj, jj + 1)) (d0, jj) in
      let numer := <[j := exp sum1]> numer in
      (numer, denom .+ vget numer j, jj))
      (replicate J d0, d1, 0) in
  let pi_i :=
    for_loop 0 (J - 1) (fun j pi_i => <[j := vget numer j ./ denom]> pi_i) (replicate J d0) in
  (* omitted category *)
  <[J - 1 := d1 ./ denom]> pi_i.

(** Lines 649-686: the contribution of population [i] to [g] and [H]. *)
Definition nr_derivatives (X Y : list (list D)) (n : list D) (J K : nat)
    (pi_i : list D) (i : nat) (g : list D) (Hm : list (list D)) : list D * list (list D) :=
  let '(g, Hm, _) :=
    for_loop 0 (J - 1) (fun j '(g, Hm, jj) =>
      (* terms for first derivative, see Eq. 32 *)
      let q1 := mget Y i j .- vget n i .* vget pi_i j in
      (* terms for second derivative, see Eq. 37 *)
      let w1 := vget n i .* vget pi_i j .* (d1 .- vget pi_i j) in
      for_loop 0 K (fun k '(g, Hm, jj) =>
        let g := <[jj := vget g jj .+ q1 .* mget X i k]> g in
        (* jprime = j; [kk] below is the source's kk + 1 *)
        let '(Hm, kk) :=
          for_loop k K (fun kprime '(Hm, kk) =>
            (H_add_sym Hm jj kk (w1 .* mget X i k .* mget X i kprime), kk + 1))
            (Hm, jj) in
        (* jprime != j *)
        let '(Hm, kk) :=
          for_loop (j + 1) (J - 1) (fun jprime '(Hm, kk) =>
            let w2 := dneg (vget n i) .* vget pi_i j .* vget pi_i jprime in
            for_loop 0 K (fun kprime '(Hm, kk) =>
              (H_add_sym Hm jj kk (w2 .* mget X i k .* mget X i kprime), kk + 1))
              (Hm, kk))
            (Hm, kk) in
        (g, Hm, jj + 1)) (g, Hm, jj))
      (g, Hm, 0) in
  (g, Hm).

(** The body of the main loop (lines 612-687) for population [i], whose
    probabilities are [pi_i]. *)
Definition nr_population (X Y : list (list D)) (n : list D) (J K : nat)
    (pi_i : list D) (i : nat) (st : nr_sums) : nr_sums :=
  (* increment log likelihood *)
  let ll := s_loglike st .+ gsl_sf_lngamma (vget n i .+ d1) in
  let ll := for_loop 0 J (fun j ll =>
              ll .- gsl_sf_lngamma (mget Y i j .+ d1) .+ mget Y i j .* log (vget pi_i j)) ll in
  (* increment deviance *)
  let dev := for_loop 0 J (fun j dev =>
               let devtmp :=
                 if mget Y i j .> d0
                 then d_of_int 2 .* mget Y i j .* log (mget Y i j ./ (vget n i .* vget pi_i j))
                 else d0 in
               dev .+ devtmp) (s_deviance st) in
  (* increment first and second derivatives *)
  let '(g, Hm) := nr_derivatives X Y n J K pi_i i (s_g st) (s_H st) in
  {| s_g := g; s_H := Hm; s_loglike := ll; s_deviance := dev |}.

(** The main loop over the populations (lines 611-687), then
    [g += H * beta0] (lines 690-696), for the probabilities [pi]. *)
Definition nr_sums_of (pi : nat -> list D) (X Y : list (list D)) (n : list D)
    (J N K : nat) (beta0 : list D) : nr_sums :=
  let P := K * (J - 1) in
  let st0 := {| s_g := replicate P d0; s_H := replicate P (replicate P d0);
                s_loglike := d0; s_deviance := d0 |} in
  let st := for_loop 0 N (fun i st => nr_population X Y n J K (pi i) i st) st0 in
  (* compute xtwx * beta0 + x(y-mu) (see Eq. 40) *)
  let g :=
    for_loop 0 P (fun i g =>
      let sum1 := for_loop 0 P (fun j sum1 => sum1 .+ mget (s_H st) i j .* vget beta0 j) d0 in
      <[i := vget g i .+ sum1]> g) (s_g st) in
  {| s_g := g; s_H := s_H st; s_loglike := s_loglike st; s_deviance := s_deviance st |}.

Definition nr_accumulate (X Y : list (list D)) (n : list D) (J N K : nat)
    (beta0 : list D) : nr_sums :=
  nr_sums_of (nr_pi X J K beta0) X Y n J N K beta0.

(** What a call of [newton_raphson] leaves: its return value and the
    arrays it was given to write. *)
Record nr_result : Type := {
  nr_ret : Z;
  nr_beta1 : list D;
  nr_xtwx : list (list D);
  nr_loglike : D;
  nr_deviance : D
}.

(** Lines 698-723: the Hessian is inverted and the new betas solved for;
    [beta1] and [xtwx] are the arrays as the caller passes them. *)
Definition nr_solve (P : nat) (acc : nr_sums) (beta1 : list D) (xtwx : list (list D))
  : nr_result :=
  let failed code :=
    {| nr_ret := code; nr_beta1 := beta1; nr_xtwx := xtwx;
       nr_loglike := s_loglike acc; nr_deviance := s_deviance acc |} in
  (* invert xtwx *)
  let '(r, Hm) := cholesky (s_H acc) P in
  if negb (r =? 0)%Z then failed 11%Z else
  let '(r, Hm) := backsub Hm P in
  if negb (r =? 0)%Z then failed 12%Z else
  let '(r, xtwx) := trimult Hm xtwx P in
  if negb (r =? 0)%Z then failed 13%Z else
  (* solve for new betas *)
  let beta1 :=
    for_loop 0 P (fun i beta1 =>
      let sum1 := for_loop 0 P (fun j sum1 => sum1 .+ mget xtwx i j .* vget (s_g acc) j) d0 in
      <[i := sum1]> beta1) beta1 in
  {| nr_ret := 0; nr_beta1 := beta1; nr_xtwx := xtwx;
     nr_loglike := s_loglike acc; nr_deviance := s_deviance acc |}.

(** [static int newton_raphson (X, Y, n, J, N, K, beta0, beta1, xtwx,
    loglike, deviance)] *)
Definition newton_raphson (X Y : list (list D)) (n : list D) (J N K : nat)
    (beta0 beta1 : list D) (xtwx : list (list D)) : nr_result :=
  nr_solve (K * (J - 1)) (nr_accumulate X Y n J N K beta0) beta1 xtwx.

End NewtonRaphson.
Arguments nr_sums D : clear implicits.
Arguments nr_result D : clear implicits.

(* ================================================================== *)
(** * mlelr.c: the design matrix *)

Section Design.
Context {D : Type} `{Double D}.

(** [a[z]] for an [int] index [z]. *)
Definition zlookup {A : Type} (l : list A) (z : Z) : option A :=
  if (z <? 0)%Z then None else l !! Z.to_nat z.

(** [mod->direct[i]] and [mod->freqs[i]->n], [mod->freqs[i]->obs] *)
Definition direct_at (mdl : model D) (i : nat) : Z := default 0%Z (direct mdl !! i).
Definition freq_n (mdl : model D) (i : nat) : nat :=
  match freqs mdl !! i with Some f => ds_n f | None => 0 end.
Definition freq_obs (mdl : model D) (i : nat) : list (list D) :=
  match freqs mdl !! i with Some f => obs f | None => [] end.

(** The same two through a term of an interaction, [mod->ints[i][j]]. *)
Definition direct_term (mdl : model D) (t : Z) : Z :=
  default 0%Z (zlookup (direct mdl) t).
Definition freq_n_term (mdl : model D) (t : Z) : nat :=
  match zlookup (freqs mdl) t with Some f => ds_n f | None => 0 end.
Definition term_at (mdl : model D) (i j : nat) : Z :=
  default 0%Z (default [] (ints mdl !! i) !! j).

(** ** Step 2: the populations *)

Record pop_state : Type := {
  p_N : nat;                 (* number of populations *)
  p_M : D;                   (* the total frequency count *)
  p_popindex : list nat      (* population of each row of the crosstab *)
}.

(** Lines 138-143: does row [i] differ from row [i-1] in an independent
    variable? *)
Definition popchange (xt : list (list D)) (xtabcols : nat) (i : nat) : bool :=
  match for_ret 0 (xtabcols - 2) (fun j (_ : unit) =>
          if mget xt i j .!= mget xt (i - 1) j then inr tt else inl tt) tt with
  | inl _ => false
  | inr _ => true
  end.

Definition populations (xt : list (list D)) (xtabcols : nat) : pop_state :=
  let xtabrows := length xt in
  (* set the population index for the first row *)
  let st0 := {| p_N := 1; p_M := mget xt 0 (xtabcols - 1);
                p_popindex := <[0 := 0]> (replicate xtabrows 0) |} in
  (* loop through remainder of xtab *)
  for_loop 1 xtabrows (fun i st =>
    let N := if popchange xt xtabcols i then p_N st + 1 else p_N st in
    {| p_N := N;
       p_M := p_M st .+ mget xt i (xtabcols - 1);
       p_popindex := <[i := N - 1]> (p_popindex st) |}) st0.

(** ** Step 3: the number of columns of X *)

(** Lines 174-178: the number of columns of interaction [i]. *)
Definition interaction_columns (mdl : model D) (i : nat) : Z :=
  for_loop 0 (inttc mdl i) (fun j k =>
    if (direct_term mdl (term_at mdl i j) =? 0)%Z
    then (k * (Z.of_nat (freq_n_term mdl (term_at mdl i j)) - 1))%Z
    else k) 1%Z.

(** Lines 159-180: [K]. *)
Definition count_columns (mdl : model D) : Z :=
  let K :=
    for_loop 0 (numiv mdl) (fun i K =>
      (* if direct effect, this variable will have 1 column in X *)
      if negb (direct_at mdl i =? 0)%Z then (K + 1)%Z
      (* otherwise, it will have levelcount - 1 columns in X *)
      else (K + (Z.of_nat (freq_n mdl i) - 1))%Z) 1%Z in
  (* add columns for interactions, if any *)
  for_loop 0 (numints mdl) (fun i K => (K + interaction_columns mdl i)%Z) K.

(** ** Step 5: X, Y and n *)

(** Lines 246-280: row [xr] of X is coded from row [i] of the crosstab.
    The result is X and the column [xc] after the last one written. *)
Definition encode_row (mdl : model D) (dummy : bool) (xt : list (list D))
    (xtabcols : nat) (i xr : nat) (X : list (list D)) : list (list D) * nat :=
  (* set intercept *)
  let X := mset X xr 0 d1 in
  (* do for each independent var *)
  for_loop 0 (xtabcols - 2) (fun j '(X, xc) =>
    (* use actual value if direct effect *)
    if negb (direct_at mdl j =? 0)%Z then (mset X xr xc (mget xt i j), xc + 1)
    (* otherwise, use full-rank center-point parameterization *)
    else
      let levels := freq_n mdl j in
      for_loop 0 (levels - 1) (fun k '(X, xc) =>
        let freq := freq_obs mdl j in
        let v :=
          if mget xt i j .== mget freq k 0 then d1
          else if negb dummy && (mget xt i j .== mget freq (levels - 1) 0) then d_of_int (-1)
          else d0 in
        (mset X xr xc v, xc + 1)) (X, xc))
    (X, 1).

Record design_state : Type := {
  g_lastpop : Z;
  g_xr : nat;
  g_xc : nat;
  g_X : list (list D);
  g_Y : list (list D);
  g_n : list D
}.

(** Lines 285-288: the column of Y for the response of row [i]; [J] when
    the loop finds none. *)
Definition response_column (mdl : model D) (xt : list (list D)) (xtabcols J : nat)
    (i : nat) : nat :=
  match for_ret 0 J (fun j (_ : unit) =>
          if mget xt i (xtabcols - 2) .== mget (freq_obs mdl (numiv mdl)) j 0
          then inr j else inl tt) tt with
  | inl _ => J
  | inr j => j
  end.

(** The body of the loop over the rows of the crosstab (lines 240-295). *)
Definition design_row (mdl : model D) (dummy : bool) (xt : list (list D))
    (xtabcols J : nat) (popindex : list nat) (i : nat) (st : design_state)
  : design_state :=
  let pop := default 0 (popindex !! i) in
  (* do if current row in xtab is a new population to code into X *)
  let '(xr, xc, X) :=
    if negb (Z.of_nat pop =? g_lastpop st)%Z then
      let '(X, xc) := encode_row mdl dummy xt xtabcols i pop (g_X st) in
      (pop, xc, X)
    else (g_xr st, g_xc st, g_X st) in
  (* add count of Y-value to appropriate population *)
  let j := response_column mdl xt xtabcols J i in
  let Y := mset (g_Y st) xr j (mget xt i (xtabcols - 1)) in
  (* increment N *)
  let n := <[xr := vget (g_n st) xr .+ mget Y xr j]> (g_n st) in
  {| g_lastpop := Z.of_nat xr; g_xr := xr; g_xc := xc; g_X := X; g_Y := Y; g_n := n |}.

(** Lines 194-206 and 235-295.  X is allocated without being initialised;
    its cells hold [d0] until they are written. *)
Definition design_rows (mdl : model D) (dummy : bool) (xt : list (list D))
    (xtabcols J N K : nat) (popindex : list nat) : design_state :=
  for_loop 0 (length xt) (design_row mdl dummy xt xtabcols J popindex)
    {| g_lastpop := (-1)%Z; g_xr := 0; g_xc := 0;
       g_X := replicate N (replicate K d0);
       g_Y := replicate N (replicate J d0);
       g_n := replicate N d0 |}.

(** ** The labels of the columns (lines 299-324) *)

Definition labels (mdl : model D) (K : nat) : list string :=
  let Xlabels := <[0 := "Intercept"%string]> (replicate K EmptyString) in
  let '(Xlabels, k) :=
    for_loop 0 (numiv mdl) (fun i '(Xlabels, k) =>
      let name := default EmptyString (ivnames mdl !! i) in
      if negb (direct_at mdl i =? 0)%Z then (<[k := name]> Xlabels, k + 1)
      else for_loop 0 (freq_n mdl i - 1) (fun _ '(Xlabels, k) =>
             (<[k := name]> Xlabels, k + 1)) (Xlabels, k))
      (Xlabels, 1) in
  fst (for_loop 0 (numints mdl) (fun i '(Xlabels, xc) =>
         let name := default EmptyString (intnames mdl !! i) in
         for_loop 0 (Z.to_nat (interaction_columns mdl i)) (fun _ '(Xlabels, xc) =>
           (<[xc := name]> Xlabels, xc + 1)) (Xlabels, xc))
       (Xlabels, k)).

(** ** Step 6: the interactions *)

(** Lines 330-338: where each independent variable starts in X, and how
    many columns it has. *)
Definition column_layout (mdl : model D) (xtabcols : nat) : list nat * list nat * nat :=
  for_loop 0 (xtabcols - 2) (fun i '(startcol, colspan, xc) =>
    let startcol := <[i := xc]> startcol in
    let xc := if negb (direct_at mdl i =? 0)%Z then xc + 1 else xc + (freq_n mdl i - 1) in
    (startcol, <[i := xc - default 0 (startcol !! i)]> colspan, xc))
    (replicate (numiv mdl) 0, replicate (numiv mdl) 0, 1).

(** [do body while (q)], at most [fuel] times. *)
Fixpoint do_while {S : Type} (fuel : nat) (body : S -> S * bool) (s : S) : S :=
  match fuel with
  | O => s
  | Datatypes.S fuel' =>
      let '(s', q) := body s in
      if q then do_while fuel' body s' else s'
  end.

(** Lines 352-373: one column of interaction [i] is written at [xc], and the
    counters [intcolidx] move to the next column; the flag is [q]. *)
Definition interaction_column (mdl : model D) (N : nat) (startcol colspan : list nat)
    (i : nat) (st : list (list D) * nat * list nat) : (list (list D) * nat * list nat) * bool :=
  let '(X, xc, intcolidx) := st in
  let tc := inttc mdl i in
  let start_of k := default 0 (zlookup startcol (term_at mdl i k)) in
  let span_of k := default 0 (zlookup colspan (term_at mdl i k)) in
  (* multiply and write the current column *)
  let X :=
    for_loop 0 N (fun j X =>
      let tgt := for_loop 0 tc (fun k tgt =>
                   tgt .* mget X j (start_of k + default 0 (intcolidx !! k) - 1)) d1 in
      mset X j xc tgt) X in
  (* test for another column, starting with the last variable *)
  let '(intcolidx, q) :=
    for_down tc (fun j '(intcolidx, q) =>
      if negb q then
        let c := default 0 (intcolidx !! j) + 1 in
        if (span_of j <? c)%nat then (<[j := 1]> intcolidx, false)
        else (<[j := c]> intcolidx, true)
      else (intcolidx, q)) (intcolidx, false) in
  ((X, xc + 1, intcolidx), q).

(** Lines 341-377.  The loop [while (q)] writes one column per round and the
    interaction has at most [interaction_columns] of them, which bounds the
    rounds. *)
Definition interactions (mdl : model D) (N : nat) (startcol colspan : list nat)
    (xc : nat) (X : list (list D)) : list (list D) :=
  fst (for_loop 0 (numints mdl) (fun i '(X, xc) =>
         let '(X, xc, _) :=
           do_while (Datatypes.S (Z.to_nat (interaction_columns mdl i)))
             (interaction_column mdl N startcol colspan i)
             (X, xc, replicate (inttc mdl i) 1) in
         (X, xc)) (X, xc)).

End Design.
Arguments pop_state D : clear implicits.
Arguments design_state D : clear implicits.

(* ================================================================== *)
(** * mlelr.c: the Newton-Raphson loop and the report *)

Section Driver.
Context {D : Type} `{Double D} `{Libm D}.

Definition MAX_ITER : nat := 30.

(** The variables of the main loop (lines 412-444). *)
Record loop_state : Type := {
  l_iter : nat;
  l_convergence : Z;
  l_nrret : Z;
  l_beta : list D;
  l_xtwx : list (list D);
  l_loglike : D;
  l_deviance : D;
  l_loglike0 : D
}.

(** Lines 428-435: the test for convergence. *)
Definition convergence_test (P : nat) (beta beta0 : list D) : Z :=
  match for_ret 0 P (fun i (_ : unit) =>
          if fabs (vget beta i .- vget beta0 i) .> EPSILON .* fabs (vget beta0 i)
          then inr tt else inl tt) tt with
  | inl _ => 1%Z
  | inr _ => 0%Z
  end.

(** The body of the main loop. *)
Definition nr_iteration (X Y : list (list D)) (n : list D) (J N K : nat)
    (st : loop_state) : loop_state :=
  let P := K * (J - 1) in
  (* save betas from previous iteration *)
  let beta0 := for_loop 0 P (fun i beta0 => <[i := vget (l_beta st) i]> beta0)
                 (replicate P d0) in
  (* run an iteration, exit if failure *)
  let r := newton_raphson X Y n J N K beta0 (l_beta st) (l_xtwx st) in
  (* test for convergence *)
  let convergence := convergence_test P (nr_beta1 r) beta0 in
  {| l_iter := l_iter st + 1;
     l_convergence := convergence;
     l_nrret := nr_ret r;
     l_beta := nr_beta1 r;
     l_xtwx := nr_xtwx r;
     l_loglike := nr_loglike r;
     l_deviance := nr_deviance r;
     (* if this is the first iteration, record the initial LL *)
     l_loglike0 := if (l_iter st =? 0)%nat then nr_loglike r else l_loglike0 st |}.

(** [while (iter < MAX_ITER && !convergence)]: every round adds one to
    [iter], so [MAX_ITER] rounds are all the loop can take. *)
Fixpoint nr_while (fuel : nat) (X Y : list (list D)) (n : list D) (J N K : nat)
    (st : loop_state) : loop_state :=
  match fuel with
  | O => st
  | Datatypes.S fuel' =>
      if (l_iter st <? MAX_ITER)%nat && (l_convergence st =? 0)%Z
      then nr_while fuel' X Y n J N K (nr_iteration X Y n J N K st)
      else st
  end.

(** Lines 386-413: the variables as the loop is entered.  [xtwx],
    [loglike], [deviance] and [loglike0] are not initialised by the source;
    they hold [d0] until the first round writes them. *)
Definition loop_init (P : nat) : loop_state :=
  {| l_iter := 0; l_convergence := 0; l_nrret := 0;
     l_beta := replicate P d0;
     l_xtwx := replicate P (replicate P d0);
     l_loglike := d0; l_deviance := d0; l_loglike0 := d0 |}.

(** Lines 386-444. *)
Definition nr_loop (X Y : list (list D)) (n : list D) (J N K : nat) : loop_state :=
  nr_while MAX_ITER X Y n J N K (loop_init (K * (J - 1))).

(** The significance tests (lines 447-471), computed only [if (convergence)]. *)
Record fit_tests : Type := {
  f_loglike0 : D; f_loglike : D;
  f_chi1 : D; f_df1 : D; f_chitest1 : D;
  f_deviance : D;
  f_chi2 : D; f_df2 : D; f_chitest2 : D
}.

Definition significance (J N K : nat) (st : loop_state) : fit_tests :=
  let P := (Z.of_nat K * (Z.of_nat J - 1))%Z in
  (* test vs intercept-only model *)
  let chi1 := d_of_int 2 .* (l_loglike st .- l_loglike0 st) in
  let df1 := d_of_int (P - Z.of_nat J - 1) in
  (* test vs saturated model *)
  let chi2 := l_deviance st in
  let df2 := d_of_int (Z.of_nat N * (Z.of_nat J - 1) - P) in
  {| f_loglike0 := l_loglike0 st; f_loglike := l_loglike st;
     f_chi1 := chi1; f_df1 := df1; f_chitest1 := d1 .- gsl_cdf_chisq_P chi1 df1;
     f_deviance := l_deviance st;
     f_chi2 := chi2; f_df2 := df2; f_chitest2 := d1 .- gsl_cdf_chisq_P chi2 df2 |}.

(** Lines 460-469: [stderrs], [wald] and [sigprms]; not initialised by the
    source, they hold [d0] where the loop does not write them. *)
Definition parameter_tests (P : nat) (st : loop_state) : list D * list D * list D :=
  for_loop 0 P (fun i '(stderrs, wald, sigprms) =>
    if mget (l_xtwx st) i i .> d0 then
      let se := sqrt (mget (l_xtwx st) i i) in
      let w := pow (vget (l_beta st) i ./ se) (d_of_int 2) in
      (<[i := se]> stderrs, <[i := w]> wald,
       <[i := d1 .- gsl_cdf_chisq_P w d1]> sigprms)
    else (stderrs, wald, <[i := d_of_int (-1)]> sigprms))
    (replicate P d0, replicate P d0, replicate P d0).

(** Steps 2 to 6 of [mlelr] (lines 115-377): what they leave for the
    Newton-Raphson loop and the report. *)
Record design : Type := {
  d_N : nat;                          (* number of populations *)
  d_M : D;                            (* the total frequency count *)
  d_J : nat;                          (* number of response levels *)
  d_K : Z;                            (* number of columns of X *)
  d_popindex : list nat;
  d_X : list (list D);
  d_Y : list (list D);
  d_n : list D;
  d_Xlabels : list string
}.

(** Lines 230-233: [if (strcmp ("dummy", get_option ("params")) == 0) dummy = 1] *)
Definition dummy_coding (opts : options) : bool :=
  match get_option opts "params" with
  | Some v => (strcmp "dummy" v =? 0)%Z
  | None => false                     (* strcmp (..., NULL): undefined *)
  end.

Definition build_design (opts : options) (mdl : model D) : design :=
  let xt := obs (xtab mdl) in
  let xtabcols := nvars (xtab mdl) in
  (* Step 2 *)
  let pops := populations xt xtabcols in
  let N := p_N pops in
  (* Step 3 *)
  let J := freq_n mdl (numiv mdl) in
  let KZ := count_columns mdl in
  let K := Z.to_nat KZ in
  (* Step 5 *)
  let des := design_rows mdl (dummy_coding opts) xt xtabcols J N K (p_popindex pops) in
  (* Step 6 *)
  let '(startcol, colspan, xc) := column_layout mdl xtabcols in
  {| d_N := N; d_M := p_M pops; d_J := J; d_K := KZ;
     d_popindex := p_popindex pops;
     d_X := interactions mdl N startcol colspan xc (g_X des);
     d_Y := g_Y des; d_n := g_n des;
     d_Xlabels := labels mdl K |}.

(** What [mlelr] prints (lines 477-547), as values instead of text. *)
Record report : Type := {
  r_N : nat;                          (* Number of populations *)
  r_M : D;                            (* Total frequency *)
  r_J : nat;                          (* Response Levels *)
  r_K : Z;                            (* Number of columns in X *)
  r_X : list (list D);                (* Design Matrix *)
  r_iter : nat;                       (* Number of Newton-Raphson iterations *)
  r_convergence : string;             (* "Convergence: " YES or NO *)
  r_fit : option fit_tests;           (* Model Fit Results, when printed *)
  r_params : list (string * nat * D * D * D * D)
                                      (* Parameter, DV, Estimate, Std Err, Wald, Pr *)
}.

(** Lines 446-547: the tests, made only [if (convergence)], and the report. *)
Definition make_report (des : design) (st : loop_state) : report :=
  let J := d_J des in
  let K := Z.to_nat (d_K des) in
  let P := K * (J - 1) in
  let '(stderrs, wald, sigprms) :=
    if negb (l_convergence st =? 0)%Z then parameter_tests P st
    else (replicate P d0, replicate P d0, replicate P d0) in
  {| r_N := d_N des; r_M := d_M des; r_J := J; r_K := d_K des;
     r_X := d_X des;
     r_iter := l_iter st;
     r_convergence := if (l_convergence st =? 1)%Z then "YES"%string else "NO"%string;
     r_fit := if (l_convergence st =? 1)%Z
              then Some (significance J (d_N des) K st) else None;
     r_params :=
       for_loop 0 K (fun i out =>
         for_loop 0 (J - 1) (fun j out =>
           out ++ [(default EmptyString (d_Xlabels des !! i), j,
                    vget (l_beta st) (j * K + i), vget stderrs (j * K + i),
                    vget wald (j * K + i), vget sigprms (j * K + i))]) out) [] |}.

(** [int mlelr (dataset *ds, model *mod)], with the options it reads. *)
Definition mlelr (opts : options) (ds : dataset D) (mdl : model D) : report :=
  (* Step 1 *)
  let mdl := tabulate ds mdl in
  (* Steps 2 to 6 *)
  let des := build_design opts mdl in
  (* Step 7 *)
  let st := nr_loop (d_X des) (d_Y des) (d_n des) (d_J des) (d_N des)
              (Z.to_nat (d_K des)) in
  make_report des st.

End Driver.
Arguments loop_state D : clear implicits.
Arguments fit_tests D : clear implicits.
Arguments design D : clear implicits.
Arguments report D : clear implicits.

(* ================================================================== *)
(** * Inputs of the examples *)

(** A command [logreg d y = ...] as [cmd_logreg] passes it on: the dependent
    variable, then the effects in their order, each with its [vartype].
    [ividx0] is the value every call finds in its uninitialised [ividx]. *)
Definition add_effects {D : Type} (ds : dataset D) (mdl : model D)
    (effects : list (string * Z)) (ividx0 : Z) : model D :=
  foldl (fun mdl e => amv_model (add_model_variable mdl ds e.1 e.2 ividx0)) mdl effects.

(** Two observations with the same value of x, weighted 2 each:
    [logreg d y = direct.x] has a column of X equal to the intercept. *)
Definition collinear_data : dataset float :=
  {| handle := "d"; nvars := 3; varnames := ["x"; "y"; "w"]%string;
     obs := [[1; 0; 2]; [1; 1; 2]]%float; weight := Some 2 |}.

Definition collinear_model : model float :=
  add_effects collinear_data init_model [("y", DEPENDENT); ("x", DIRECT)]%string 0.

(** Scenario 1 of the specification: a binary response and one categorical
    predictor. *)
Definition scenario1_data : dataset float :=
  {| handle := "d"; nvars := 3; varnames := ["x"; "y"; "w"]%string;
     obs := [[0; 0; 40]; [0; 1; 10]; [1; 0; 20]; [1; 1; 30]]%float; weight := Some 2 |}.

Definition scenario1_model : model float :=
  add_effects scenario1_data init_model [("y", DEPENDENT); ("x", MAIN)]%string 0.

(** Scenario 5 of the specification: two categorical variables with 3 and 4
    levels and their interaction, [logreg d y = a b a*b]. *)
Definition scenario5_data : dataset float :=
  {| handle := "d"; nvars := 3; varnames := ["a"; "b"; "y"]%string;
     obs := [[1; 1; 0]; [2; 2; 1]; [3; 3; 0]; [1; 4; 1]; [2; 1; 1]; [3; 2; 0]]%float;
     weight := None |}.

Definition scenario5_model : model float :=
  add_effects scenario5_data init_model
    [("y", DEPENDENT); ("a", MAIN); ("b", MAIN); ("a", NEW_INTERACTION); ("b", INTERACTION)]%string 0.

(** Weights whose sum rounds: 1e16 + 1 is not a binary64 value. *)
Definition rounding_data : dataset float :=
  {| handle := "d"; nvars := 3; varnames := ["x"; "y"; "w"]%string;
     obs := [[0; 0; 1e16]; [1; 0; 1]; [1; 1; 1]]%float; weight := Some 2 |}.

Definition rounding_model : model float :=
  add_effects rounding_data init_model [("y", DEPENDENT); ("x", MAIN)]%string 0.

(** The same data with integer values, for the exact arithmetic. *)
Definition rounding_data_Z : dataset Z :=
  {| handle := "d"; nvars := 3; varnames := ["x"; "y"; "w"]%string;
     obs := [[0; 0; 10000000000000000]; [1; 0; 1]; [1; 1; 1]; [1; 1; -5]]%Z;
     weight := Some 2 |}.

Definition rounding_model_Z : model Z :=
  add_effects rounding_data_Z init_model [("y", DEPENDENT); ("x", MAIN)]%string 0.

(** Two observations whose x is +0 and -0, and two whose x is NaN. *)
Definition signed_zero_data : dataset float :=
  {| handle := "d"; nvars := 2; varnames := ["x"; "y"]%string;
     obs := [[0; 1]; [-0; 1]]%float; weight := None |}.

Definition nan_data : dataset float :=
  {| handle := "d"; nvars := 2; varnames := ["x"; "y"]%string;
     obs := [[nan; 1]; [nan; 1]]%float; weight := None |}.

Definition xy_model : model float :=
  add_effects signed_zero_data init_model [("y", DEPENDENT); ("x", MAIN)]%string 0.

(** A dataset with the variables y, a and b, and a model that has its
    dependent variable but no main effect yet. *)
Definition yab_data {D : Type} : dataset D :=
  {| handle := "d"; nvars := 3; varnames := ["y"; "a"; "b"]%string;
     obs := []; weight := None |}.

Definition y_model {D : Type} : model D :=
  add_effects yab_data init_model [("y", DEPENDENT)]%string 0.

(** A response y and a dose entered as a direct effect. *)
Definition dose_data : dataset float :=
  {| handle := "d"; nvars := 2; varnames := ["dose"; "y"]%string;
     obs := [[0.5; 0]; [2; 1]; [0.5; 1]]%float; weight := None |}.

Definition dose_model : model float :=
  add_effects dose_data init_model [("y", DEPENDENT); ("dose", DIRECT)]%string 0.

(* ================================================================== *)
(** * The specification's wording of the design matrix *)

Section DesignSpec.
Context {D : Type} `{Double D}.

(** The columns a main effect takes in X, and the column its block starts
    at: the intercept is column 0 and the blocks follow in declared order. *)
Definition main_span (mdl : model D) (j : nat) : nat :=
  if (direct_at mdl j =? 0)%Z then freq_n mdl j - 1 else 1.

Definition main_start (mdl : model D) (j : nat) : nat :=
  1 + sum_list_with (main_span mdl) (seq 0 j).

(** The columns an interaction takes in X, and the column its block starts
    at: the blocks of the interactions follow those of the main effects. *)
Definition interaction_span (mdl : model D) (i : nat) : nat :=
  Z.to_nat (interaction_columns mdl i).

Definition interaction_start (mdl : model D) (i : nat) : nat :=
  main_start mdl (numiv mdl) + sum_list_with (interaction_span mdl) (seq 0 i).

(** Term [k] of interaction [i]: the main effect it names and the columns
    of that main effect. *)
Definition term_var (mdl : model D) (i k : nat) : nat := Z.to_nat (term_at mdl i k).
Definition term_span (mdl : model D) (i k : nat) : nat := main_span mdl (term_var mdl i k).

(** A column of an interaction stands for a choice [d k], below the span
    [sp k], of one column of each of its [n] terms.  The choices are numbered
    with the last term varying fastest: [offset_upto sp d n] is the number of
    the choice [d], and [prod_upto sp n] the number of choices. *)
Fixpoint offset_upto (sp d : nat -> nat) (n : nat) : nat :=
  match n with
  | O => 0
  | Datatypes.S k => offset_upto sp d k * sp k + d k
  end.

Fixpoint prod_upto (sp : nat -> nat) (n : nat) : nat :=
  match n with
  | O => 1
  | Datatypes.S k => prod_upto sp k * sp k
  end.

(** The counters [intcolidx] as a choice: counter [k] is one more than the
    column chosen of term [k]. *)
Definition choice_of (idx : list nat) (k : nat) : nat := default 0 (idx !! k) - 1.

(** The loop that moves the counters to the next column (lines 363-371). *)
Definition next_choice (sp : nat -> nat) (hi : nat) (idx : list nat) (q : bool) : list nat * bool :=
  for_down hi (fun j '(intcolidx, q) =>
    if negb q then
      let c := default 0 (intcolidx !! j) + 1 in
      if (sp j <? c)%nat then (<[j := 1]> intcolidx, false)
      else (<[j := c]> intcolidx, true)
    else (intcolidx, q)) (idx, q).

(** The product of the columns [st k + d k] of row [r], one for each of the
    [tc] terms, multiplied from 1 in the order of the terms (lines 354-356). *)
Definition term_product (X : list (list D)) (st d : nat -> nat) (tc r : nat) : D :=
  for_loop 0 tc (fun k tgt => tgt .* mget X r (st k + d k)) d1.

(** Level [k] of main effect [j]: the value of row [k] of its sorted
    frequency table. *)
Definition level (mdl : model D) (j k : nat) : D := mget (freq_obs mdl j) k 0.

(** The table of section 4.2.3: the value of encoding column [k] for the
    observed value [v], the level [lk] of the column and the reference level
    [lref]. *)
Definition encoding (dummy : bool) (v lk lref : D) : D :=
  if v .== lk then d_of_int 1
  else if dummy then d_of_int 0
  else if v .== lref then d_of_int (-1)
  else d_of_int 0.

(** K as the specification words it: the columns of a main effect, of a
    term of an interaction, and their sum over the model. *)
Definition spec_main_columns (mdl : model D) (i : nat) : Z :=
  if (direct_at mdl i =? 0)%Z then (Z.of_nat (freq_n mdl i) - 1)%Z else 1%Z.

Definition spec_term_columns (mdl : model D) (t : Z) : Z :=
  if (direct_term mdl t =? 0)%Z then (Z.of_nat (freq_n_term mdl t) - 1)%Z else 1%Z.

Definition spec_K (mdl : model D) : Z :=
  (1 + foldr Z.add 0%Z (map (spec_main_columns mdl) (seq 0 (numiv mdl)))
     + foldr Z.add 0%Z (map (fun terms => foldr Z.mul 1%Z (map (spec_term_columns mdl) terms))
                          (ints mdl)))%Z.

(** The levels of main effect [j] are sorted and distinct. *)
Definition levels_ascending (mdl : model D) (j : nat) : Prop :=
  forall k k', k < k' < freq_n mdl j -> (level mdl j k .< level mdl j k') = true.

(** The sum of a vector, as the specification writes the totals. *)
Definition sumD (l : list D) : D := foldr dadd d0 l.

(** Arithmetic in which sums are exact and every value equals itself: no
    rounding and no NaN.  [exact_Z] is such; [binary64] is not. *)
Definition exact_arithmetic : Prop :=
  (forall a b : D, a .+ b = b .+ a) /\
  (forall a b c : D, a .+ (b .+ c) = (a .+ b) .+ c) /\
  (forall a : D, d0 .+ a = a) /\
  (forall a : D, (a .== a) = true).

(** The value [v] has an entry in the frequency table [fr]. *)
Definition covers (fr : dataset D) (v : D) : Prop :=
  exists f, f ∈ obs fr /\ (v .== vget f 0) = true.

(** What [tabulate] keeps of its tables, for a model of [nv] independent
    variables: the crosstab has [2 + nv] columns, its last column adds up to
    [total], and the value of the dependent variable of each of its rows has
    an entry in the last frequency table. *)
Definition tab_inv (nv : nat) (fr : list (dataset D)) (xt : dataset D) (total : D) : Prop :=
  length fr = nv + 1 /\ nvars xt = 2 + nv /\
  Forall (fun r => length r = 2 + nv) (obs xt) /\
  sumD (map (fun r => vget r (1 + nv)) (obs xt)) = total /\
  exists f, fr !! nv = Some f /\ nvars f = 2 /\
            Forall (fun r => covers f (vget r nv)) (obs xt).

(** A model as [tabulate] leaves it: the crosstab has a column for each main
    effect, one for the response and one for the count; every main effect
    has a level; the terms of the interactions are main effects. *)
Definition tabulated (mdl : model D) : bool :=
  (nvars (xtab mdl) =? 2 + numiv mdl)%nat &&
  forallb (fun j => (1 <=? freq_n mdl j)%nat) (seq 0 (numiv mdl)) &&
  forallb (forallb (fun t => (0 <=? t)%Z && (t <? Z.of_nat (numiv mdl))%Z)) (ints mdl).

End DesignSpec.

(** A libm to instantiate the statements with: only [exp 0 = 1] and
    [exp NaN = NaN] are asked of it. *)
Definition libm_stub : Libm float := {|
  exp := fun x => if PrimFloat.eqb x x then 1%float else nan;
  log := fun _ => 0%float;
  pow := fun a _ => a;
  gsl_sf_lngamma := fun _ => 0%float;
  gsl_cdf_chisq_P := fun _ _ => 0%float
|}.

(* ================================================================== *)
(** * Facts about the loops *)

Section LoopFacts.
Context {S : Type}.

Lemma iter_from_ind (P : nat -> S -> Prop) (body : nat -> S -> S) (n lo : nat) (s : S) :
  P lo s ->
  (forall i s, lo <= i < lo + n -> P i s -> P (Datatypes.S i) (body i s)) ->
  P (lo + n) (iter_from body n lo s).
Proof.
  revert lo s. induction n as [|n IH]; intros lo s H0 Hstep; simpl.
  - by rewrite Nat.add_0_r.
  - replace (lo + Datatypes.S n) with (Datatypes.S lo + n) by lia.
    apply IH.
    + apply Hstep; [lia | done].
    + intros i s' Hi. apply Hstep. lia.
Qed.

(** The invariant rule of a [for] loop. *)
Lemma for_loop_ind (P : nat -> S -> Prop) (lo hi : nat) (body : nat -> S -> S) (s : S) :
  lo <= hi ->
  P lo s ->
  (forall i s, lo <= i < hi -> P i s -> P (Datatypes.S i) (body i s)) ->
  P hi (for_loop lo hi body s).
Proof.
  intros Hle H0 Hstep. unfold for_loop.
  pose proof (iter_from_ind P body (hi - lo) lo s H0) as HH.
  replace (lo + (hi - lo)) with hi in HH by lia.
  apply HH. intros i s' Hi. apply Hstep. lia.
Qed.

Lemma for_loop_inv (P : S -> Prop) (lo hi : nat) (body : nat -> S -> S) (s : S) :
  P s ->
  (forall i s, lo <= i < hi -> P s -> P (body i s)) ->
  P (for_loop lo hi body s).
Proof.
  intros H0 Hstep. destruct (decide (lo <= hi)) as [Hle|Hgt].
  - by apply (for_loop_ind (fun _ => P)).
  - unfold for_loop. by replace (hi - lo) with 0 by lia.
Qed.

Lemma for_loop_empty (lo hi : nat) (body : nat -> S -> S) (s : S) :
  hi <= lo -> for_loop lo hi body s = s.
Proof. intros Hle. unfold for_loop. by replace (hi - lo) with 0 by lia. Qed.

Lemma for_loop_first (lo hi : nat) (body : nat -> S -> S) (s : S) :
  lo < hi -> for_loop lo hi body s = for_loop (Datatypes.S lo) hi body (body lo s).
Proof.
  intros Hlt. unfold for_loop.
  by replace (hi - lo) with (Datatypes.S (hi - Datatypes.S lo)) by lia.
Qed.

Lemma iter_from_last (body : nat -> S -> S) (n lo : nat) (s : S) :
  iter_from body (Datatypes.S n) lo s = body (lo + n) (iter_from body n lo s).
Proof.
  revert lo s. induction n as [|n IH]; intros lo s.
  - simpl. by rewrite Nat.add_0_r.
  - change (iter_from body (Datatypes.S (Datatypes.S n)) lo s)
      with (iter_from body (Datatypes.S n) (Datatypes.S lo) (body lo s)).
    rewrite IH. by replace (lo + Datatypes.S n) with (Datatypes.S lo + n) by lia.
Qed.

Lemma for_loop_last (lo hi : nat) (body : nat -> S -> S) (s : S) :
  lo <= hi -> for_loop lo (Datatypes.S hi) body s = body hi (for_loop lo hi body s).
Proof.
  intros Hle. unfold for_loop.
  replace (Datatypes.S hi - lo) with (Datatypes.S (hi - lo)) by lia.
  rewrite iter_from_last. by replace (lo + (hi - lo)) with hi by lia.
Qed.

(** Two bodies that agree on the range give the same loop. *)
Lemma for_loop_ext (lo hi : nat) (f g : nat -> S -> S) (s : S) :
  (forall i s, lo <= i < hi -> f i s = g i s) ->
  for_loop lo hi f s = for_loop lo hi g s.
Proof.
  intros Hfg. destruct (decide (lo <= hi)) as [Hle|Hgt].
  - apply (for_loop_ind (fun i s' => for_loop lo i f s = s' /\ True) lo hi g s Hle).
    + split; [|done]. by apply for_loop_empty.
    + intros i s' Hi [<- _]. split; [|done].
      rewrite for_loop_last by lia. apply Hfg. lia.
  - by rewrite !for_loop_empty by lia.
Qed.

Context {R : Type}.

Lemma iter_ret_ind (P : nat -> S -> Prop) (Q : R -> Prop)
    (body : nat -> S -> S + R) (n lo : nat) (s : S) :
  P lo s ->
  (forall i s, lo <= i < lo + n -> P i s ->
     match body i s with inl s' => P (Datatypes.S i) s' | inr r => Q r end) ->
  match iter_ret body n lo s with inl s' => P (lo + n) s' | inr r => Q r end.
Proof.
  revert lo s. induction n as [|n IH]; intros lo s H0 Hstep; simpl.
  - by rewrite Nat.add_0_r.
  - pose proof (Hstep lo s ltac:(lia) H0) as Hb.
    destruct (body lo s) as [s'|r]; [|done].
    replace (lo + Datatypes.S n) with (Datatypes.S lo + n) by lia.
    apply IH; [done|]. intros i s'' Hi. apply Hstep. lia.
Qed.

(** The invariant rule of a loop that may be left: [P] holds while it runs,
    [Q] of the state it is left with. *)
Lemma for_ret_ind (P : nat -> S -> Prop) (Q : R -> Prop)
    (lo hi : nat) (body : nat -> S -> S + R) (s : S) :
  lo <= hi ->
  P lo s ->
  (forall i s, lo <= i < hi -> P i s ->
     match body i s with inl s' => P (Datatypes.S i) s' | inr r => Q r end) ->
  match for_ret lo hi body s with inl s' => P hi s' | inr r => Q r end.
Proof.
  intros Hle H0 Hstep. unfold for_ret.
  pose proof (iter_ret_ind P Q body (hi - lo) lo s H0) as HH.
  replace (lo + (hi - lo)) with hi in HH by lia.
  apply HH. intros i s' Hi. apply Hstep. lia.
Qed.

End LoopFacts.

(** A search loop: the first index of the range at which [test] holds. *)
Lemma for_ret_search {R : Type} (test : nat -> bool) (res : nat -> R) (lo hi : nat) :
  lo <= hi ->
  match for_ret lo hi (fun i (_ : unit) => if test i then inr (res i) else inl tt) tt with
  | inl _ => forall i, lo <= i < hi -> test i = false
  | inr r => exists i, lo <= i < hi /\ r = res i /\ test i = true /\
                       forall i', lo <= i' < i -> test i' = false
  end.
Proof.
  intros Hle.
  apply (for_ret_ind (fun k _ => forall i, lo <= i < k -> test i = false)
           (fun r => exists i, lo <= i < hi /\ r = res i /\ test i = true /\
                       forall i', lo <= i' < i -> test i' = false)); [done|lia|].
  intros i [] Hi Hprev. destruct (test i) eqn:Ht.
  - exists i. eauto.
  - intros i' Hi'. destruct (decide (i' = i)) as [->|]; [done|]. apply Hprev. lia.
Qed.

(** [loop_inv P]: the invariant rule for the first [for] loop of the goal,
    with the invariant [P], as a hypothesis. *)
Ltac loop_inv P :=
  match goal with
  | |- context [for_loop ?lo ?hi ?f ?s] =>
      let H := fresh "Hinv" in
      pose proof (for_loop_ind P lo hi f s) as H; cbv beta in H
  end.

(* ================================================================== *)
(** * Facts about the arrays *)

Section ArrayFacts.
Context {D : Type} `{Double D}.

Lemma vget_insert_eq (v : list D) (i : nat) (a : D) :
  i < length v -> vget (<[i := a]> v) i = a.
Proof. intros Hi. unfold vget. by rewrite list_lookup_insert_eq. Qed.

Lemma vget_insert_ne (v : list D) (i j : nat) (a : D) :
  i <> j -> vget (<[i := a]> v) j = vget v j.
Proof. intros Hne. unfold vget. by rewrite list_lookup_insert_ne. Qed.

Lemma length_mset (x : list (list D)) (i j : nat) (v : D) :
  length (mset x i j v) = length x.
Proof. unfold mset. apply length_alter. Qed.

(** A cell other than the one written keeps its value. *)
Lemma mget_mset_ne (x : list (list D)) (i j i' j' : nat) (v : D) :
  i <> i' \/ j <> j' -> mget (mset x i j v) i' j' = mget x i' j'.
Proof.
  intros Hne. unfold mget, mset.
  destruct (decide (i = i')) as [<-|Hi].
  - rewrite list_lookup_alter_eq. destruct (x !! i) as [row|]; simpl; [|done].
    apply vget_insert_ne. by destruct Hne.
  - by rewrite list_lookup_alter_ne.
Qed.

(** The cell written holds the value, when it is a cell of the matrix. *)
Lemma mget_mset_eq (x : list (list D)) (r c i j : nat) (v : D) :
  shape x r c -> i < r -> j < c -> mget (mset x i j v) i j = v.
Proof.
  intros [Hr Hc] Hi Hj. unfold mget, mset.
  rewrite list_lookup_alter_eq.
  destruct (x !! i) as [row|] eqn:Hrow; simpl.
  - apply vget_insert_eq.
    rewrite Forall_forall in Hc. rewrite (Hc row); [done|].
    by apply list_elem_of_lookup_2 in Hrow.
  - apply lookup_ge_None in Hrow. lia.
Qed.

Lemma shape_mset (x : list (list D)) (r c i j : nat) (v : D) :
  shape x r c -> shape (mset x i j v) r c.
Proof.
  intros [Hr Hc]. split; [by rewrite length_mset|].
  unfold mset. apply Forall_alter; [done|].
  intros row Hrow Hlen. by rewrite length_insert.
Qed.

Lemma shape_replicate (r c : nat) (a : D) : shape (replicate r (replicate c a)) r c.
Proof.
  split; [by rewrite length_replicate|].
  apply Forall_replicate. by rewrite length_replicate.
Qed.

End ArrayFacts.

(* ================================================================== *)
(** * The Cholesky factorisation *)

Section CholeskyFacts.
Context {D : Type} `{Double D}.

Lemma column_sumsq_ext (x x' : list (list D)) (i : nat) :
  (forall j, j < i -> mget x' j i = mget x j i) ->
  column_sumsq x' i = column_sumsq x i.
Proof.
  intros Heq. unfold column_sumsq. apply for_loop_ext.
  intros j s Hj. rewrite Heq by lia. done.
Qed.

Lemma column_dot_ext (x x' : list (list D)) (i j : nat) :
  (forall k c, k < i -> mget x' k c = mget x k c) ->
  column_dot x' i j = column_dot x i j.
Proof.
  intros Heq. unfold column_dot. apply for_loop_ext.
  intros k s Hk. rewrite !Heq by lia. done.
Qed.

(** The loop over [j] of one round (lines 742-747), started on [x1]: it
    writes the cells [(i, j)] with [i < j < order] and no other. *)
Lemma cholesky_row_loop (order i : nat) (x x1 : list (list D)) :
  (forall k c, k < i -> mget x1 k c = mget x k c) ->
  (forall c, c <> i -> mget x1 i c = mget x i c) ->
  let x' := for_loop (i + 1) order (fun j x =>
              let sum := column_dot x i j in
              mset x i j ((mget x i j .- sum) ./ mget x i i)) x1 in
  (forall r c, r <> i \/ c <= i \/ order <= c -> mget x' r c = mget x1 r c) /\
  (forall rr cc, shape x1 rr cc -> shape x' rr cc /\
     (i < rr -> order <= cc -> forall j, i < j < order ->
        mget x' i j = (mget x i j .- column_dot x i j) ./ mget x1 i i)).
Proof.
  intros Hrows Hrow x'. subst x'.
  destruct (decide (i + 1 <= order)) as [Hle|Hgt].
  2:{ rewrite for_loop_empty by lia. split; [done|]. intros rr cc Hs. split; [done|]. lia. }
  apply (for_loop_ind (fun j xs =>
    (forall r c, r <> i \/ c <= i \/ j <= c -> mget xs r c = mget x1 r c) /\
    (forall rr cc, shape x1 rr cc -> shape xs rr cc /\
       (i < rr -> order <= cc -> forall j', i < j' < j ->
          mget xs i j' = (mget x i j' .- column_dot x i j') ./ mget x1 i i)))); [done| |].
  - split; [done|]. intros rr cc Hs. split; [done|]. lia.
  - intros j xs Hj [Hframe Hval]. split.
    + intros r c Hrc. rewrite mget_mset_ne by lia. apply Hframe. lia.
    + intros rr cc Hs. destruct (Hval rr cc Hs) as [Hs' Hv]. split.
      * by apply shape_mset.
      * intros Hi Ho j' Hj'. destruct (decide (j' = j)) as [->|Hne].
        -- rewrite (mget_mset_eq _ rr cc) by (done || lia).
           rewrite (Hframe i j) by lia. rewrite (Hframe i i) by lia.
           rewrite Hrow by lia. f_equal. f_equal.
           apply column_dot_ext. intros k c Hk.
           rewrite Hframe by lia. by apply Hrows.
        -- rewrite mget_mset_ne by lia. apply Hv; [done|done|lia].
Qed.

(** One round that runs to its end. *)
Lemma cholesky_pivot_inl (order i : nat) (x x' : list (list D)) :
  cholesky_pivot order i x = inl x' ->
  (column_sumsq x i .>= mget x i i) = false /\
  (forall r c, r <> i \/ c < i \/ order <= c /\ c <> i -> mget x' r c = mget x r c) /\
  (forall rr cc, shape x rr cc -> shape x' rr cc /\
     (i < rr -> i < cc -> order <= cc ->
        mget x' i i = sqrt (mget x i i .- column_sumsq x i) /\
        forall j, i < j < order ->
          mget x' i j = (mget x i j .- column_dot x i j) ./ mget x' i i)).
Proof.
  unfold cholesky_pivot.
  destruct (column_sumsq x i .>= mget x i i) eqn:Htest; [done|].
  intros [= <-]. split; [done|].
  set (x1 := mset x i i (sqrt (mget x i i .- column_sumsq x i))).
  pose proof (cholesky_row_loop order i x x1) as Hloop.
  cbv zeta in Hloop.
  match goal with |- context [for_loop ?a ?b ?f ?s] => set (xf := for_loop a b f s) in * end.
  destruct Hloop as [Hframe Hval].
  { intros k c Hk. unfold x1. apply mget_mset_ne. lia. }
  { intros c Hc. unfold x1. apply mget_mset_ne. lia. }
  split.
  - intros r c Hrc. rewrite Hframe by lia. unfold x1. apply mget_mset_ne. lia.
  - intros rr cc Hs. destruct (Hval rr cc (shape_mset _ _ _ _ _ _ Hs)) as [Hs' Hv].
    split; [done|]. intros Hi Hic Ho.
    assert (Hd : mget xf i i = sqrt (mget x i i .- column_sumsq x i)).
    { rewrite Hframe by lia. unfold x1. by apply (mget_mset_eq _ rr cc). }
    split; [done|]. intros j Hj. rewrite Hv by done. f_equal.
    rewrite Hd. unfold x1. by apply (mget_mset_eq _ rr cc).
Qed.

(** One round that returns 1. *)
Lemma cholesky_pivot_inr (order i i' : nat) (x x' : list (list D)) :
  cholesky_pivot order i x = inr (i', x') ->
  i' = i /\ x' = x /\ (column_sumsq x i .>= mget x i i) = true.
Proof.
  unfold cholesky_pivot.
  destruct (column_sumsq x i .>= mget x i i) eqn:Htest; [|done].
  by intros [= <- <-].
Qed.

Lemma cholesky_run_spec (x : list (list D)) (order : nat) :
  match cholesky_run x order with
  | inl x' => cholesky_inv order x order x'
  | inr (i, x') =>
      i < order /\ cholesky_inv order x i x' /\
      (column_sumsq x' i .>= mget x i i) = true
  end.
Proof.
  unfold cholesky_run.
  apply (for_ret_ind (cholesky_inv order x)
           (fun '(i, x') => i < order /\ cholesky_inv order x i x' /\
                            (column_sumsq x' i .>= mget x i i) = true)); [lia| |].
  - split; [done|]. split; [lia|]. intros rr cc Hs. split; [done|]. lia.
  - intros i xi Hi (Hframe & Htests & Hval).
    destruct (cholesky_pivot order i xi) as [x'|[i' x']] eqn:Hp.
    + apply cholesky_pivot_inl in Hp as (Htest & Hfr & Hv).
      assert (Hsum : forall i0, i0 <= i -> column_sumsq x' i0 = column_sumsq xi i0).
      { intros i0 Hi0. apply column_sumsq_ext. intros j Hj. apply Hfr. lia. }
      assert (Hdot : forall i0 j, i0 <= i -> column_dot x' i0 j = column_dot xi i0 j).
      { intros i0 j Hi0. apply column_dot_ext. intros k c Hk. apply Hfr. lia. }
      split; [|split].
      * intros r c Hrc. rewrite Hfr by lia. apply Hframe. lia.
      * intros i0 Hi0. rewrite Hsum by lia.
        destruct (decide (i0 = i)) as [->|Hne].
        -- rewrite <- (Hframe i i) by lia. done.
        -- apply Htests. lia.
      * intros rr cc Hs. destruct (Hval rr cc Hs) as [Hs' Hvi].
        destruct (Hv rr cc Hs') as [Hs'' Hvn]. split; [done|].
        intros Hor Hoc i0 Hi0. rewrite Hsum by lia.
        destruct (decide (i0 = i)) as [->|Hne].
        -- destruct Hvn as [Hd Hrow]; [lia..|].
           rewrite Hd. rewrite (Hframe i i) by lia. split; [done|].
           intros j Hj. rewrite Hrow by done. rewrite Hdot by lia.
           rewrite Hd. rewrite (Hframe i j) by lia. rewrite (Hframe i i) by lia. done.
        -- destruct (Hvi Hor Hoc i0) as [Hd Hrow]; [lia|].
           rewrite (Hfr i0 i0) by lia. split; [done|].
           intros j Hj. rewrite (Hfr i0 j) by lia. rewrite Hdot by lia.
           by apply Hrow.
    + apply cholesky_pivot_inr in Hp as (-> & -> & Htest).
      split; [lia|]. split; [done|].
      rewrite <- (Hframe i i) by lia. done.
Qed.

Lemma cholesky_ret (x : list (list D)) (order : nat) :
  fst (cholesky x order) = 0%Z \/ fst (cholesky x order) = 1%Z.
Proof. unfold cholesky. destruct (cholesky_run x order) as [?|[? ?]]; auto. Qed.

End CholeskyFacts.

Section CholeskyClaims.
Context {D : Type} `{Double D} `{Libm D}.

(** C10.  [cholesky (x, order)] writes only cells on or above the diagonal:
    whether it returns 0 or 1, every cell strictly below the diagonal holds
    the value it had at the call; and when it returns 1 at the pivot [i],
    every cell of the rows [i] and beyond holds the value it had at the
    call. *)
Theorem cholesky_frame (x : list (list D)) (order : nat) :
  (forall r c, c < r -> mget (snd (cholesky x order)) r c = mget x r c) /\
  (forall i x', cholesky_run x order = inr (i, x') ->
     cholesky x order = (1%Z, x') /\
     forall r c, i <= r -> mget x' r c = mget x r c).
Proof.
  pose proof (cholesky_run_spec x order) as Hrun. unfold cholesky.
  destruct (cholesky_run x order) as [x'|[i x']]; simpl.
  - destruct Hrun as (Hframe & _). split; [|done].
    intros r c Hrc. apply Hframe. lia.
  - destruct Hrun as (Hi & (Hframe & _) & _). split.
    + intros r c Hrc. apply Hframe. lia.
    + intros i' x'' [= <- <-]. split; [done|].
      intros r c Hrc. apply Hframe. lia.
Qed.


End CholeskyClaims.

(** [cholesky] on [[4 2; 2 5]] gives the factor [[2 1; . 2]]; on the
    singular [[1 1; 1 1]] it returns 1 at the second pivot, where
    [s = 1 >= 1]. *)
Example cholesky_factor_2x2 :
  cholesky [[4; 2]; [2; 5]]%float 2 = (0%Z, [[2; 1]; [2; 2]]%float).
Proof. reflexivity. Qed.

Example cholesky_singular_2x2 :
  cholesky_run [[1; 1]; [1; 1]]%float 2 = inr (1, [[1; 1]; [1; 1]]%float).
Proof. reflexivity. Qed.

(* ================================================================== *)
(** * The options *)

Lemma uchar_nul (c : ascii) : is_nul c = false -> uchar c <> 0%Z.
Proof.
  unfold is_nul, uchar. intros Hc Hz.
  assert (nat_of_ascii c = 0) as Hn by lia.
  assert (c = zero) as ->.
  { rewrite <- (ascii_nat_embedding c). by rewrite Hn. }
  by rewrite Ascii.eqb_refl in Hc.
Qed.

Lemma uchar_inj (c1 c2 : ascii) : Ascii.eqb c1 c2 = false -> (uchar c1 - uchar c2)%Z <> 0%Z.
Proof.
  unfold uchar. intros Hc Hz.
  assert (nat_of_ascii c1 = nat_of_ascii c2) as Hn by lia.
  assert (c1 = c2) as ->.
  { rewrite <- (ascii_nat_embedding c1), <- (ascii_nat_embedding c2). by rewrite Hn. }
  by rewrite Ascii.eqb_refl in Hc.
Qed.

(** The test of [get_option] and [set_option]: the stored key [s] is a
    prefix of the key [k] asked for. *)
Lemma strncmp_prefix (s k : string) :
  cstring s = true -> cstring k = true ->
  (strncmp k s (strlen s) =? 0)%Z = String.prefix s k.
Proof.
  revert k. induction s as [|c s IH]; intros k Hs Hk.
  - simpl. by destruct k.
  - simpl in Hs. apply andb_true_iff in Hs as [Hc Hs].
    apply negb_true_iff in Hc. simpl. rewrite Hc.
    destruct k as [|c1 k]; simpl.
    + apply Z.eqb_neq. pose proof (uchar_nul c Hc). lia.
    + simpl in Hk. apply andb_true_iff in Hk as [Hc1 Hk].
      apply negb_true_iff in Hc1.
      destruct (Ascii.eqb c1 c) eqn:Heq.
      * apply Ascii.eqb_eq in Heq as ->. rewrite Hc.
        destruct (ascii_dec c c); [|done]. by apply IH.
      * destruct (ascii_dec c c1) as [->|Hne].
        -- by rewrite Ascii.eqb_refl in Heq.
        -- apply Z.eqb_neq. by apply uchar_inj.
Qed.

(** C9.  [get_option (k)] does not ask for the key [k] itself: it returns
    the value of the first stored option whose whole key is a prefix of [k],
    and NULL only when no stored key is a prefix of [k].  So where an option
    whose key is a proper prefix of "params" is stored before every other
    key that is a prefix of "params", asking for "params" returns the value
    of that option. *)
Theorem get_option_prefix_match (opts : options) (k : string) :
  Forall (fun kv => cstring kv.1 = true) opts ->
  cstring k = true ->
  match get_option opts k with
  | Some v =>
      exists i ki, opts !! i = Some (ki, v) /\ String.prefix ki k = true /\
        forall i' kv, i' < i -> opts !! i' = Some kv -> String.prefix kv.1 k = false
  | None => forall kv, kv ∈ opts -> String.prefix kv.1 k = false
  end /\
  (forall pre kp v rest,
     opts = pre ++ (kp, v) :: rest -> k = "params"%string ->
     String.prefix kp "params" = true -> kp <> "params"%string ->
     Forall (fun kv => String.prefix kv.1 "params" = false) pre ->
     get_option opts k = Some v).
Proof.
  intros Hopts Hk.
  assert (Hmain :
    match get_option opts k with
    | Some v =>
        exists i ki, opts !! i = Some (ki, v) /\ String.prefix ki k = true /\
          forall i' kv, i' < i -> opts !! i' = Some kv -> String.prefix kv.1 k = false
    | None => forall kv, kv ∈ opts -> String.prefix kv.1 k = false
    end).
  { unfold get_option.
    pose proof (for_ret_ind
      (fun i (_ : unit) => forall i' kv, i' < i -> opts !! i' = Some kv ->
                            String.prefix kv.1 k = false)
      (fun v => exists i ki, opts !! i = Some (ki, v) /\ String.prefix ki k = true /\
          forall i' kv, i' < i -> opts !! i' = Some kv -> String.prefix kv.1 k = false)
      0 (length opts)
      (fun i (_ : unit) =>
         match opts !! i with
         | Some (ki, vi) => if (strncmp k ki (strlen ki) =? 0)%Z then inr vi else inl tt
         | None => inl tt
         end) tt) as Hloop.
    match type of Hloop with _ -> _ -> _ -> match ?e with _ => _ end =>
      destruct e as [[]|v] end.
    - intros kv Hin. apply list_elem_of_lookup in Hin as [i Hi].
      apply (Hloop ltac:(lia) ltac:(intros; lia)) with i; [|by apply lookup_lt_Some in Hi|done].
      clear Hloop. intros j [] Hj Hprev.
      destruct (opts !! j) as [[kj vj]|] eqn:Hlk.
      + rewrite strncmp_prefix; [|by apply (Forall_lookup_1 _ _ _ _ Hopts Hlk)|done].
        destruct (String.prefix kj k) eqn:Hp; [by exists j, kj|].
        intros i' kv' Hi' Hlk'. destruct (decide (i' = j)) as [->|].
        * rewrite Hlk in Hlk'. by injection Hlk' as <-.
        * apply (Hprev i'); [lia|done].
      + apply lookup_ge_None in Hlk. lia.
    - apply Hloop; [lia|intros; lia|]. clear Hloop. intros j [] Hj Hprev.
      destruct (opts !! j) as [[kj vj]|] eqn:Hlk.
      + rewrite strncmp_prefix; [|by apply (Forall_lookup_1 _ _ _ _ Hopts Hlk)|done].
        destruct (String.prefix kj k) eqn:Hp; [by exists j, kj|].
        intros i' kv' Hi' Hlk'. destruct (decide (i' = j)) as [->|].
        * rewrite Hlk in Hlk'. by injection Hlk' as <-.
        * apply (Hprev i'); [lia|done].
      + apply lookup_ge_None in Hlk. lia. }
  split; [done|].
  intros pre kp v rest -> -> Hp Hne Hpre.
  destruct (get_option (pre ++ (kp, v) :: rest) "params") as [v'|].
  - destruct Hmain as (i & ki & Hlk & Hpi & Hfirst).
    destruct (Nat.lt_trichotomy i (length pre)) as [Hlt|[->|Hgt]].
    + rewrite lookup_app_l in Hlk by done.
      rewrite Forall_lookup in Hpre. specialize (Hpre _ _ Hlk). cbn [fst] in Hpre. congruence.
    + rewrite list_lookup_middle in Hlk by done. by injection Hlk as -> ->.
    + specialize (Hfirst (length pre) (kp, v) Hgt).
      rewrite list_lookup_middle in Hfirst by done. specialize (Hfirst eq_refl).
      cbn [fst] in Hfirst. congruence.
  - specialize (Hmain (kp, v)). cbn [fst] in Hmain. rewrite Hmain in Hp; [done|].
    apply elem_of_app. right. apply list_elem_of_here.
Qed.

(** An instance: "par" stored before "params". *)
Lemma get_option_prefix_match_witness :
  get_option [("par", "dummy"); ("params", "centerpoint")]%string "params" = Some "dummy"%string.
Proof.
  pose proof (get_option_prefix_match
    [("par", "dummy"); ("params", "centerpoint")]%string "params"%string) as [_ Hc].
  - repeat constructor.
  - reflexivity.
  - apply (Hc [] "par"%string "dummy"%string [("params", "centerpoint")]%string);
      [reflexivity | reflexivity | reflexivity | discriminate | constructor].
Defined.

(* ================================================================== *)
(** * The number of columns of the design matrix *)

Section Columns.
Context {D : Type} `{Double D}.

Lemma for_loop_sum (f : nat -> Z) (n : nat) (a : Z) :
  for_loop 0 n (fun i acc => (acc + f i)%Z) a = (a + foldr Z.add 0%Z (map f (seq 0 n)))%Z.
Proof.
  induction n as [|n IH].
  - rewrite for_loop_empty by lia. simpl. lia.
  - rewrite for_loop_last by lia. rewrite IH.
    rewrite seq_S, map_app, foldr_app. simpl.
    assert (Hacc : forall l b, foldr Z.add b l = (foldr Z.add 0%Z l + b)%Z).
    { clear. induction l as [|x l IHl]; intros b; simpl; [lia|]. rewrite IHl. lia. }
    rewrite (Hacc _ (f n + 0)%Z). lia.
Qed.

Lemma for_loop_product (g : Z -> Z) (l : list Z) :
  for_loop 0 (length l) (fun j k => (k * g (default 0%Z (l !! j)))%Z) 1%Z
  = foldr Z.mul 1%Z (map g l).
Proof.
  assert (Hgen : forall n, n <= length l ->
    for_loop 0 n (fun j k => (k * g (default 0%Z (l !! j)))%Z) 1%Z
    = foldr Z.mul 1%Z (map g (take n l))).
  { induction n as [|n IH]; intros Hn.
    - by rewrite for_loop_empty by lia.
    - rewrite for_loop_last by lia. rewrite IH by lia.
      destruct (lookup_lt_is_Some_2 l n ltac:(lia)) as [t Ht].
      rewrite (take_S_r _ _ _ Ht), map_app, foldr_app, Ht. simpl.
      assert (Hacc : forall l b, foldr Z.mul b l = (foldr Z.mul 1%Z l * b)%Z).
      { clear. induction l as [|x l IHl]; intros b; simpl; [lia|]. rewrite IHl. lia. }
      rewrite (Hacc _ (g t * 1)%Z). lia. }
  rewrite Hgen by lia. by rewrite firstn_all.
Qed.

Lemma map_seq_lookup {A B : Type} (g : A -> B) (d : A) (l : list A) :
  map (fun i => g (default d (l !! i))) (seq 0 (length l)) = map g l.
Proof.
  induction l as [|t l IH] using rev_ind; [done|].
  rewrite length_app. cbn [length]. rewrite Nat.add_1_r, seq_S, !map_app. cbn [map].
  f_equal.
  - rewrite <- IH. apply map_ext_in. intros i Hi. apply in_seq in Hi.
    rewrite lookup_app_l by lia. done.
  - rewrite lookup_app_r by lia. rewrite Nat.add_0_l, Nat.sub_diag. done.
Qed.

Lemma interaction_columns_spec (mdl : model D) (i : nat) :
  interaction_columns mdl i
  = foldr Z.mul 1%Z (map (spec_term_columns mdl) (default [] (ints mdl !! i))).
Proof.
  unfold interaction_columns, inttc, term_at.
  rewrite <- for_loop_product. apply for_loop_ext.
  intros j k _. unfold spec_term_columns.
  destruct (direct_term mdl (default 0%Z (default [] (ints mdl !! i) !! j)) =? 0)%Z; lia.
Qed.

Lemma count_columns_eq (mdl : model D) : count_columns mdl = spec_K mdl.
Proof.
  unfold count_columns, spec_K.
  rewrite (for_loop_ext 0 (numints mdl) _
             (fun i K => (K + foldr Z.mul 1%Z (map (spec_term_columns mdl)
                                (default [] (ints mdl !! i))))%Z)).
  2:{ intros i K _. by rewrite interaction_columns_spec. }
  rewrite (for_loop_sum (fun i => foldr Z.mul 1%Z (map (spec_term_columns mdl)
                                    (default [] (ints mdl !! i))))).
  rewrite (for_loop_ext 0 (numiv mdl) _ (fun i K => (K + spec_main_columns mdl i)%Z)).
  2:{ intros i K _. unfold spec_main_columns.
      by destruct (direct_at mdl i =? 0)%Z. }
  rewrite for_loop_sum. f_equal. f_equal.
  unfold numints.
  apply (map_seq_lookup (fun terms => foldr Z.mul 1%Z (map (spec_term_columns mdl) terms)) []).
Qed.

(** C7.  The number of columns of the design matrix is 1 for the intercept,
    plus for each main effect 1 if it is direct and L - 1 if it is
    categorical with L levels, plus for each interaction the product over
    its terms of the term's number of columns (1 for a direct term, L - 1
    for a categorical one); two interacting categorical variables with 3 and
    4 levels give K = 12. *)
Theorem count_columns_spec (mdl : model D) :
  count_columns mdl = spec_K mdl /\
  (direct mdl = [0%Z; 0%Z] -> length (iv mdl) = 2 ->
   ints mdl = [[0%Z; 1%Z]] ->
   freq_n mdl 0 = 3 -> freq_n mdl 1 = 4 ->
   count_columns mdl = 12%Z).
Proof.
  split; [apply count_columns_eq|].
  intros Hdir Hiv Hints H3 H4. rewrite count_columns_eq. unfold spec_K, numiv.
  rewrite Hiv, Hints.
  cbn [seq map foldr]. unfold spec_main_columns, spec_term_columns.
  change (freq_n_term mdl 0%Z) with (freq_n mdl 0).
  change (freq_n_term mdl 1%Z) with (freq_n mdl 1).
  unfold direct_at, direct_term, zlookup. rewrite Hdir, H3, H4. reflexivity.
Qed.

End Columns.

(* ================================================================== *)
(** * The Newton-Raphson loop *)

Section DriverFacts.
Context {D : Type} `{Double D} `{Libm D}.

(** [newton_raphson] returns 0, 11 or 12; when it does not return 0 it has
    written neither [beta1] nor [xtwx]. *)
Lemma newton_raphson_ret (X Y : list (list D)) (n : list D) (J N K : nat)
    (beta0 beta1 : list D) (xtwx : list (list D)) :
  let r := newton_raphson X Y n J N K beta0 beta1 xtwx in
  (nr_ret r = 11%Z <->
     fst (cholesky (s_H (nr_accumulate X Y n J N K beta0)) (K * (J - 1))) = 1%Z) /\
  (nr_ret r = 0%Z \/ nr_ret r = 11%Z \/ nr_ret r = 12%Z) /\
  (nr_ret r <> 0%Z -> nr_beta1 r = beta1 /\ nr_xtwx r = xtwx).
Proof.
  unfold newton_raphson, nr_solve.
  pose proof (cholesky_ret (s_H (nr_accumulate X Y n J N K beta0)) (K * (J - 1))) as Hret.
  destruct (cholesky (s_H (nr_accumulate X Y n J N K beta0)) (K * (J - 1))) as [r Hm].
  simpl in *. destruct Hret as [-> | ->]; simpl.
  - destruct (backsub Hm (K * (J - 1))) as [r2 Hm2].
    destruct (negb (r2 =? 0)%Z); simpl.
    + split; [done|]. split; [lia|done].
    + split; [done|]. split; [lia|done].
  - split; [done|]. split; [lia|done].
Qed.

(** The copy of [beta] into [beta0] (lines 419-421). *)
Lemma beta0_copy (P : nat) (beta : list D) (i : nat) :
  i < P ->
  vget (for_loop 0 P (fun i beta0 => <[i := vget beta i]> beta0) (replicate P d0)) i
  = vget beta i.
Proof.
  intros Hi.
  assert (Hinv : forall k, k <= P ->
    let b := for_loop 0 k (fun i beta0 => <[i := vget beta i]> beta0) (replicate P d0) in
    length b = P /\ forall j, j < k -> vget b j = vget beta j).
  { intros k Hk.
    apply (for_loop_ind (fun k b => length b = P /\ forall j, j < k -> vget b j = vget beta j));
      [lia| |].
    - split; [by rewrite length_replicate|lia].
    - intros j b Hj [Hlen Hv]. split; [by rewrite length_insert|].
      intros j' Hj'. destruct (decide (j' = j)) as [->|Hne].
      + apply vget_insert_eq. lia.
      + rewrite vget_insert_ne by done. apply Hv. lia. }
  by apply (Hinv P).
Qed.

(** The test for convergence answers 1 exactly when the comparison
    [fabs (beta[i] - beta0[i]) > EPSILON * fabs (beta0[i])] is false of
    every coefficient. *)
Lemma convergence_test_spec (P : nat) (beta beta0 : list D) :
  (convergence_test P beta beta0 = 1%Z \/ convergence_test P beta beta0 = 0%Z) /\
  (convergence_test P beta beta0 = 1%Z <->
   forall i, i < P ->
     (fabs (vget beta i .- vget beta0 i) .> EPSILON .* fabs (vget beta0 i)) = false).
Proof.
  unfold convergence_test.
  pose proof (for_ret_search
    (fun i => fabs (vget beta i .- vget beta0 i) .> EPSILON .* fabs (vget beta0 i))
    (fun _ => tt) 0 P ltac:(lia)) as Hs.
  match type of Hs with match ?e with _ => _ end => destruct e as [[]|[]] end.
  - split; [by left|]. split; [|done]. intros _ i Hi. apply Hs. lia.
  - split; [by right|]. split; [done|].
    intros Hall. destruct Hs as (i & Hi & _ & Ht & _).
    rewrite Hall in Ht by lia. done.
Qed.

Lemma convergence_test_ext (P : nat) (beta beta0 beta0' : list D) :
  (forall i, i < P -> vget beta0' i = vget beta0 i) ->
  convergence_test P beta beta0' = convergence_test P beta beta0.
Proof.
  intros Heq.
  destruct (convergence_test_spec P beta beta0) as [Hc Hiff].
  destruct (convergence_test_spec P beta beta0') as [Hc' Hiff'].
  assert (convergence_test P beta beta0' = 1%Z <-> convergence_test P beta beta0 = 1%Z) as Hb.
  { rewrite Hiff, Hiff'. split; intros Hall i Hi; specialize (Hall i Hi).
    - by rewrite Heq in Hall.
    - by rewrite Heq. }
  destruct Hc as [Hc|Hc], Hc' as [Hc'|Hc']; rewrite ?Hc, ?Hc'; try done.
  - rewrite Hc' in Hb. rewrite Hc in Hb. destruct Hb as [_ Hb]. by specialize (Hb eq_refl).
  - rewrite Hc' in Hb. rewrite Hc in Hb. destruct Hb as [Hb _]. by specialize (Hb eq_refl).
Qed.

(** What one round of the loop does to its variables: [iter] goes up by
    one, and [convergence] is the test of the new [beta] against the [beta]
    the round started with. *)
Lemma nr_iteration_spec (X Y : list (list D)) (n : list D) (J N K : nat) (st : loop_state D) :
  let st' := nr_iteration X Y n J N K st in
  l_iter st' = l_iter st + 1 /\
  l_convergence st' = convergence_test (K * (J - 1)) (l_beta st') (l_beta st).
Proof.
  unfold nr_iteration. simpl. split; [done|].
  apply convergence_test_ext. intros i Hi. by apply beta0_copy.
Qed.

(** A round in which [newton_raphson] fails leaves [beta] as it was, so
    the test for convergence compares [beta] with itself. *)
Lemma nr_iteration_failure (X Y : list (list D)) (n : list D) (J N K : nat) (st : loop_state D) :
  let st' := nr_iteration X Y n J N K st in
  l_nrret st' <> 0%Z ->
  l_beta st' = l_beta st /\
  l_convergence st' = convergence_test (K * (J - 1)) (l_beta st) (l_beta st).
Proof.
  intros st' Hfail.
  destruct (nr_iteration_spec X Y n J N K st) as [_ Hconv]. fold st' in Hconv.
  assert (l_beta st' = l_beta st) as Hbeta.
  { unfold st', nr_iteration in *. simpl in *.
    by apply newton_raphson_ret in Hfail as [? _]. }
  split; [done|]. by rewrite Hconv, Hbeta.
Qed.

(** The loop as the rounds it makes. *)
Lemma nr_while_spec (X Y : list (list D)) (n : list D) (J N K : nat)
    (fuel : nat) (st : loop_state D) :
  l_iter st <= MAX_ITER -> MAX_ITER <= l_iter st + fuel ->
  exists k, Nat.iter k (nr_iteration X Y n J N K) st = nr_while fuel X Y n J N K st /\
    l_iter (nr_while fuel X Y n J N K st) = l_iter st + k /\
    l_iter st + k <= MAX_ITER /\
    (forall j, j < k -> l_convergence (Nat.iter j (nr_iteration X Y n J N K) st) = 0%Z) /\
    (l_convergence (nr_while fuel X Y n J N K st) <> 0%Z \/ l_iter st + k = MAX_ITER).
Proof.
  revert st. induction fuel as [|fuel IH]; intros st Hle Hfuel.
  - exists 0. simpl. repeat split; lia.
  - simpl. destruct (l_iter st <? MAX_ITER) eqn:Hlt; simpl.
    + apply Nat.ltb_lt in Hlt. destruct (l_convergence st =? 0)%Z eqn:Hc.
      * apply Z.eqb_eq in Hc.
        destruct (nr_iteration_spec X Y n J N K st) as [Hit _].
        destruct (IH (nr_iteration X Y n J N K st)) as (k & Hk & Hi & Hb & Hz & Hend); [lia..|].
        exists (Datatypes.S k). rewrite Nat.iter_succ_r. split; [done|].
        split; [lia|]. split; [lia|]. split.
        -- intros [|j] Hj; [done|]. rewrite Nat.iter_succ_r. apply Hz. lia.
        -- destruct Hend as [?|?]; [by left|right; lia].
      * apply Z.eqb_neq in Hc. exists 0. simpl.
        split; [done|]. split; [lia|]. split; [lia|]. split; [lia|]. by left.
    + apply Nat.ltb_ge in Hlt. exists 0. simpl. repeat split; lia.
Qed.

End DriverFacts.

Section DriverClaims.
Context {D : Type} `{Double D} `{Libm D}.

(** C8, as the code has it.  The loop makes at most [MAX_ITER] = 30 rounds
    of [nr_iteration]; it goes on while [convergence] is 0 and stops as soon
    as [convergence] is not 0 or 30 rounds are made.  After each round
    [convergence] is 1 exactly when no coefficient satisfies
    [fabs (beta[i] - beta_prev[i]) > EPSILON * fabs (beta_prev[i])], where
    [beta_prev] is the [beta] the round started with.  Where the two sides
    compare as numbers do ([a > b] is the negation of [a <= b], which fails
    of a NaN), that is: every coefficient satisfies
    [fabs (beta[i] - beta_prev[i]) <= EPSILON * fabs (beta_prev[i])]. *)
Theorem nr_loop_convergence (X Y : list (list D)) (n : list D) (J N K : nat) :
  let P := K * (J - 1) in
  let step := nr_iteration X Y n J N K in
  MAX_ITER = 30 /\
  (exists k, k <= MAX_ITER /\
     nr_loop X Y n J N K = Nat.iter k step (loop_init P) /\
     l_iter (nr_loop X Y n J N K) = k /\
     (forall j, j < k -> l_convergence (Nat.iter j step (loop_init P)) = 0%Z) /\
     (l_convergence (nr_loop X Y n J N K) <> 0%Z \/ k = MAX_ITER)) /\
  (forall st,
     l_convergence (step st) = convergence_test P (l_beta (step st)) (l_beta st)) /\
  (forall beta beta_prev,
     (convergence_test P beta beta_prev = 1%Z \/ convergence_test P beta beta_prev = 0%Z) /\
     (convergence_test P beta beta_prev = 1%Z <->
      forall i, i < P ->
        (fabs (vget beta i .- vget beta_prev i) .> EPSILON .* fabs (vget beta_prev i))
        = false) /\
     ((forall i, i < P ->
         let a := fabs (vget beta i .- vget beta_prev i) in
         let b := EPSILON .* fabs (vget beta_prev i) in
         (a .> b) = negb (a .<= b)) ->
      (convergence_test P beta beta_prev = 1%Z <->
       forall i, i < P ->
         (fabs (vget beta i .- vget beta_prev i) .<= EPSILON .* fabs (vget beta_prev i))
         = true))).
Proof.
  intros P step. split; [done|]. split; [|split].
  - unfold nr_loop.
    destruct (nr_while_spec X Y n J N K MAX_ITER (loop_init P)) as (k & Hk & Hi & Hb & Hz & Hend);
      [change (l_iter (loop_init P)) with 0; lia..|].
    fold P. change (l_iter (loop_init P)) with 0 in Hi, Hb, Hend.
    rewrite Nat.add_0_l in Hi, Hb, Hend. exists k. split; [lia|]. split; [done|]. split; [done|].
    split; [done|]. destruct Hend; [by left|by right].
  - intros st. apply nr_iteration_spec.
  - intros beta beta_prev.
    destruct (convergence_test_spec P beta beta_prev) as [Hc Hiff].
    split; [done|]. split; [done|].
    intros Hcmp. rewrite Hiff. split; intros Hall i Hi.
    + specialize (Hall i Hi). specialize (Hcmp i Hi). cbv zeta in Hcmp.
      rewrite Hcmp in Hall. by apply negb_false_iff in Hall.
    + specialize (Hall i Hi). specialize (Hcmp i Hi). cbv zeta in Hcmp.
      rewrite Hcmp, Hall. done.
Qed.

(** A round that [newton_raphson] fails in, whatever the code it returns,
    ends with [convergence] set to the test of [beta] against itself; the
    loop then stops if that is 1. *)
Lemma nr_while_failure (X Y : list (list D)) (n : list D) (J N K : nat)
    (fuel : nat) (st : loop_state D) :
  let st' := nr_iteration X Y n J N K st in
  l_iter st < MAX_ITER -> l_convergence st = 0%Z ->
  l_nrret st' <> 0%Z ->
  convergence_test (K * (J - 1)) (l_beta st) (l_beta st) = 1%Z ->
  nr_while (Datatypes.S fuel) X Y n J N K st = st' /\
  l_convergence st' = 1%Z /\ l_iter st' = l_iter st + 1.
Proof.
  intros st' Hit Hc Hfail Hself.
  destruct (nr_iteration_failure X Y n J N K st Hfail) as [Hbeta Hconv].
  fold st' in Hbeta, Hconv. rewrite Hself in Hconv.
  destruct (nr_iteration_spec X Y n J N K st) as [Hiter _]. fold st' in Hiter.
  split; [|done].
  change (nr_while (Datatypes.S fuel) X Y n J N K st)
    with (if (l_iter st <? MAX_ITER)%nat && (l_convergence st =? 0)%Z
          then nr_while fuel X Y n J N K st' else st).
  apply Nat.ltb_lt in Hit. rewrite Hit, Hc. cbn [andb Z.eqb].
  destruct fuel as [|fuel]; [done|].
  change (nr_while (Datatypes.S fuel) X Y n J N K st')
    with (if (l_iter st' <? MAX_ITER)%nat && (l_convergence st' =? 0)%Z
          then nr_while fuel X Y n J N K (nr_iteration X Y n J N K st') else st').
  rewrite Hconv. by rewrite andb_false_r.
Qed.

End DriverClaims.

(** In binary64 the zero vector passes the test against itself. *)
Lemma convergence_test_zero (P : nat) :
  convergence_test P (replicate P d0) (replicate P d0) = 1%Z.
Proof.
  apply convergence_test_spec. intros i Hi.
  unfold vget. rewrite lookup_replicate_2 by done. reflexivity.
Qed.

(** The first round starts with [beta0] the zero vector. *)
Lemma beta0_copy_zero {D : Type} `{Double D} (P : nat) :
  for_loop 0 P (fun i beta0 => <[i := vget (replicate P d0) i]> beta0) (replicate P d0)
  = replicate P d0.
Proof.
  apply (for_loop_inv (fun b => b = replicate P d0)); [done|].
  intros i b Hi ->. apply list_eq. intros j.
  destruct (decide (i = j)) as [->|Hne].
  - rewrite list_lookup_insert_eq by (rewrite length_replicate; lia).
    unfold vget. by rewrite lookup_replicate_2 by lia.
  - by rewrite list_lookup_insert_ne.
Qed.

(** C1, what the code does instead.  In binary64, when [newton_raphson]
    returns an error code in the first round, the loop stops after that
    round with [convergence] = 1, and the report says "Convergence: YES"
    and prints the fit tests. *)
Lemma first_round_failure (m : Libm float) (X Y : list (list float)) (n : list float)
    (J N K : nat) :
  let P := K * (J - 1) in
  nr_ret (newton_raphson X Y n J N K (replicate P d0) (replicate P d0)
            (replicate P (replicate P d0))) <> 0%Z ->
  l_iter (nr_loop X Y n J N K) = 1 /\
  l_convergence (nr_loop X Y n J N K) = 1%Z /\
  l_nrret (nr_loop X Y n J N K) <> 0%Z.
Proof.
  intros P Hfail. unfold nr_loop, MAX_ITER. fold P.
  assert (Hret : l_nrret (nr_iteration X Y n J N K (loop_init P)) <> 0%Z).
  { unfold nr_iteration. cbn [l_nrret l_beta l_xtwx loop_init]. fold P.
    by rewrite beta0_copy_zero. }
  destruct (nr_while_failure X Y n J N K 29 (loop_init P)) as (-> & Hc & Hi).
  - unfold MAX_ITER. change (l_iter (loop_init P)) with 0. lia.
  - done.
  - done.
  - apply convergence_test_zero.
  - done.
Qed.

(** C8, as the claim words it, fails of a NaN: the test answers 1 for a
    coefficient that is NaN, of which [<=] is false. *)
Lemma convergence_test_nan :
  convergence_test 1 [nan]%float [0]%float = 1%Z /\
  (fabs (vget [nan]%float 0 .- vget [0]%float 0)
     .<= EPSILON .* fabs (vget [0]%float 0)) = false.
Proof. split; reflexivity. Qed.

(** The sums of [newton_raphson] depend on the probabilities of the
    populations only. *)
Lemma nr_sums_of_ext {D : Type} `{Double D} `{Libm D} (pi pi' : nat -> list D)
    (X Y : list (list D)) (n : list D) (J N K : nat) (beta0 : list D) :
  (forall i, i < N -> pi i = pi' i) ->
  nr_sums_of pi X Y n J N K beta0 = nr_sums_of pi' X Y n J N K beta0.
Proof.
  intros Hpi. unfold nr_sums_of.
  rewrite (for_loop_ext 0 N (fun i st => nr_population X Y n J K (pi i) i st)
             (fun i st => nr_population X Y n J K (pi' i) i st)); [reflexivity|].
  intros i st Hi. rewrite (Hpi i) by lia. reflexivity.
Qed.

Section CollinearFit.
Context (m : Libm float).
Hypothesis exp_0 : exp 0%float = 1%float.

Lemma collinear_design :
  build_design init_options (tabulate collinear_data collinear_model)
  = {| d_N := 1; d_M := 4%float; d_J := 2; d_K := 2%Z; d_popindex := [0; 0];
       d_X := [[1; 1]]%float; d_Y := [[2; 2]]%float; d_n := [4]%float;
       d_Xlabels := ["Intercept"; "x"]%string |}.
Proof. vm_compute. reflexivity. Qed.

Lemma collinear_pi :
  nr_pi [[1; 1]]%float 2 2 [0; 0]%float 0 = [0.5; 0.5]%float.
Proof using exp_0.
  pose proof exp_0 as He. vm_compute in He. vm_compute. rewrite He. reflexivity.
Qed.

Lemma collinear_hessian :
  s_H (nr_accumulate [[1; 1]]%float [[2; 2]]%float [4]%float 2 1 2 [0; 0]%float)
  = [[1; 1]; [1; 1]]%float.
Proof using exp_0.
  unfold nr_accumulate.
  rewrite (nr_sums_of_ext _ (fun _ => [0.5; 0.5]%float)).
  - vm_compute. reflexivity.
  - intros i Hi. assert (i = 0) as -> by lia. apply collinear_pi.
Qed.

Lemma collinear_newton_raphson :
  nr_ret (newton_raphson [[1; 1]]%float [[2; 2]]%float [4]%float 2 1 2
            [0; 0]%float [0; 0]%float [[0; 0]; [0; 0]]%float) = 11%Z.
Proof using exp_0.
  apply newton_raphson_ret. rewrite collinear_hessian. reflexivity.
Qed.

End CollinearFit.

(** C1 on an input.  [logreg d y = direct.x] on two observations with
    x = 1: the Hessian of the first round is [[1 1; 1 1]], [cholesky] fails
    at the second pivot and [newton_raphson] returns 11; the loop stops after
    this one round with [convergence] = 1, and the report says
    "Convergence: YES" and prints the fit tests. *)
Theorem collinear_fit_reports_convergence (m : Libm float) :
  exp 0%float = 1%float ->
  let des := build_design init_options (tabulate collinear_data collinear_model) in
  let K := Z.to_nat (d_K des) in
  let P := K * (d_J des - 1) in
  let r := mlelr init_options collinear_data collinear_model in
  nr_ret (newton_raphson (d_X des) (d_Y des) (d_n des) (d_J des) (d_N des) K
            (replicate P d0) (replicate P d0) (replicate P (replicate P d0))) = 11%Z /\
  r_iter r = 1 /\
  r_convergence r = "YES"%string /\
  is_Some (r_fit r).
Proof.
  intros Hexp des K P r. subst r P K des. unfold mlelr.
  rewrite collinear_design. cbn [d_X d_Y d_n d_J d_N d_K].
  change (Z.to_nat 2) with 2. change (2 * (2 - 1)) with 2.
  pose proof (collinear_newton_raphson m Hexp) as Hret.
  split; [exact Hret|].
  destruct (first_round_failure m [[1; 1]]%float [[2; 2]]%float [4]%float 2 1 2)
    as (Hi & Hc & _).
  { change (nr_ret (newton_raphson [[1; 1]]%float [[2; 2]]%float [4]%float 2 1 2
                       [0; 0]%float [0; 0]%float [[0; 0]; [0; 0]]%float) <> 0%Z).
    rewrite Hret. done. }
  unfold make_report.
  destruct (if negb (l_convergence _ =? 0)%Z then _ else _) as [[? ?] ?].
  cbn [r_iter r_convergence r_fit]. rewrite Hi, Hc. simpl. eauto.
Qed.

Lemma collinear_fit_witness :
  r_iter (@mlelr float binary64 libm_stub init_options collinear_data collinear_model) = 1 /\
  r_convergence (@mlelr float binary64 libm_stub init_options collinear_data collinear_model)
  = "YES"%string.
Proof.
  destruct (collinear_fit_reports_convergence libm_stub eq_refl) as (_ & Hi & Hc & _).
  split; [exact Hi | exact Hc].
Defined.

(* ================================================================== *)
(** * The comparison [==] of binary64 *)

Lemma SFeqb_finite (s1 s2 : bool) (m1 m2 : positive) (e1 e2 : Z) :
  SFeqb (S754_finite s1 m1 e1) (S754_finite s2 m2 e2) = true <->
  s1 = s2 /\ m1 = m2 /\ e1 = e2.
Proof.
  unfold SFeqb, SFcompare. rewrite Pos.compare_cont_spec.
  split.
  - intros Heq.
    destruct s1, s2; try discriminate Heq;
      destruct (Z.compare e1 e2) eqn:He; try discriminate Heq;
      apply Z.compare_eq in He; subst e2;
      destruct (m1 ?= m2)%positive eqn:Hm; try discriminate Heq;
      apply Pos.compare_eq in Hm; by subst m2.
  - intros (-> & -> & ->). rewrite Z.compare_refl, Pos.compare_refl. by destruct s2.
Qed.

(** [v == u] holds of two binary64 values exactly when they are the same
    value and not NaN, or are both zeros (of either sign).  Equality of
    primitive floats is equality of the bit patterns, all NaNs being one
    value. *)
Lemma binary64_eqb_iff (u v : float) :
  (v .== u) = true <->
  (v = u /\ PrimFloat.is_nan v = false) \/
  (PrimFloat.is_zero v = true /\ PrimFloat.is_zero u = true).
Proof.
  change (v .== u) with (PrimFloat.eqb v u).
  unfold PrimFloat.is_nan, PrimFloat.is_zero.
  rewrite !FloatAxioms.eqb_spec.
  change (Prim2SF PrimFloat.zero) with (S754_zero false).
  split.
  - intros Heq.
    destruct (Prim2SF v) as [sv|sv| |sv mv ev] eqn:Hv;
      destruct (Prim2SF u) as [su|su| |su mu eu] eqn:Hu;
      try discriminate Heq;
      try (destruct sv; discriminate Heq);
      try (destruct su; discriminate Heq).
    + by right.
    + left. assert (sv = su) as -> by (destruct sv, su; done || discriminate Heq).
      split; [|by destruct su]. apply Prim2SF_inj. by rewrite Hv, Hu.
    + apply SFeqb_finite in Heq as (-> & -> & ->). left. split.
      * apply Prim2SF_inj. by rewrite Hv, Hu.
      * apply negb_false_iff. by apply SFeqb_finite.
  - intros [[-> Hnan]|[Hzv Hzu]].
    + by apply negb_false_iff in Hnan.
    + destruct (Prim2SF v) as [sv|sv| |sv mv ev]; try discriminate Hzv;
        try (destruct sv; discriminate Hzv).
      destruct (Prim2SF u) as [su|su| |su mu eu]; try discriminate Hzu;
        try (destruct su; discriminate Hzu).
      done.
Qed.

(* ================================================================== *)
(** * The tabulation *)

Section TabulateFacts.
Context {D : Type} `{Double D}.

Lemma freq_search_spec (fr : dataset D) (target : D) :
  match freq_search fr target with
  | Some k =>
      k < ds_n fr /\ (target .== mget (obs fr) k 0) = true /\
      forall k', k' < k -> (target .== mget (obs fr) k' 0) = false
  | None => forall k, k < ds_n fr -> (target .== mget (obs fr) k 0) = false
  end.
Proof.
  unfold freq_search.
  pose proof (for_ret_search (fun k => target .== mget (obs fr) k 0) (fun k => k)
                0 (ds_n fr) ltac:(lia)) as Hs.
  match type of Hs with match ?e with _ => _ end => destruct e as [[]|k] end.
  - intros k Hk. apply Hs. lia.
  - destruct Hs as (i & Hi & -> & Ht & Hfirst). split; [lia|]. split; [done|].
    intros k' Hk'. apply Hfirst. lia.
Qed.

Lemma obs_match_spec (o row : list D) (n_vars : nat) :
  obs_match o row n_vars = true <->
  forall j, j < n_vars -> (vget o j .== vget row j) = true.
Proof.
  unfold obs_match.
  pose proof (for_ret_search (fun j => vget o j .!= vget row j) (fun _ => tt)
                0 n_vars ltac:(lia)) as Hs.
  match type of Hs with match ?e with _ => _ end => destruct e as [[]|[]] end.
  - split; [|done]. intros _ j Hj. specialize (Hs j ltac:(lia)).
    by apply negb_false_iff in Hs.
  - split; [done|]. intros Hall. destruct Hs as (j & Hj & _ & Ht & _).
    rewrite Hall in Ht by lia. done.
Qed.

Lemma find_observation_spec (xt : dataset D) (o : list D) (n_vars : nat) :
  match find_observation xt o n_vars with
  | Some i =>
      i < ds_n xt /\ obs_match o (default [] (obs xt !! i)) n_vars = true /\
      forall i', i' < i -> obs_match o (default [] (obs xt !! i')) n_vars = false
  | None => forall i, i < ds_n xt -> obs_match o (default [] (obs xt !! i)) n_vars = false
  end.
Proof.
  unfold find_observation.
  pose proof (for_ret_search (fun i => obs_match o (default [] (obs xt !! i)) n_vars)
                (fun i => i) 0 (ds_n xt) ltac:(lia)) as Hs.
  match type of Hs with match ?e with _ => _ end => destruct e as [[]|k] end.
  - intros k Hk. apply Hs. lia.
  - destruct Hs as (i & Hi & -> & Ht & Hfirst). split; [lia|]. split; [done|].
    intros k' Hk'. apply Hfirst. lia.
Qed.

Lemma vget_row (x : list (list D)) (i j : nat) :
  vget (default [] (x !! i)) j = mget x i j.
Proof. unfold mget. by destruct (x !! i). Qed.

End TabulateFacts.

(** C3, as the code has it.  In [tabulate] a value [v] is added to the
    entry of the first key [u] of the frequency table with [v == u], the
    comparison of C, and starts a new entry when there is none; a row of the
    crosstab is found in the same way, every variable compared with [!=].
    In binary64 [v == u] holds exactly when [u] and [v] are the same value
    and not NaN, or are both zeros: +0 and -0 share an entry, and a NaN
    never joins an entry, its own included. *)
Theorem tabulate_value_equality :
  (forall (D : Type) (Hd : Double D) (fr : dataset D) (v w : D),
     nvars fr = 2 ->
     match freq_search fr v with
     | Some k =>
         k < ds_n fr /\ (v .== mget (obs fr) k 0) = true /\
         (forall k', k' < k -> (v .== mget (obs fr) k' 0) = false) /\
         obs (freq_add fr v w) = mset (obs fr) k 1 (mget (obs fr) k 1 .+ w)
     | None =>
         (forall k, k < ds_n fr -> (v .== mget (obs fr) k 0) = false) /\
         obs (freq_add fr v w) = obs fr ++ [[v; w]]
     end) /\
  (forall (D : Type) (Hd : Double D) (xt : dataset D) (o : list D) (nv : nat) (w : D),
     match find_observation xt o (1 + nv) with
     | Some i =>
         i < ds_n xt /\
         (forall j, j < 1 + nv -> (vget o j .== mget (obs xt) i j) = true) /\
         (forall i', i' < i ->
            ~ forall j, j < 1 + nv -> (vget o j .== mget (obs xt) i' j) = true) /\
         obs (xtab_add xt o nv w).1
         = mset (obs xt) i (1 + nv) (mget (obs xt) i (1 + nv) .+ w)
     | None =>
         (forall i, i < ds_n xt ->
            ~ forall j, j < 1 + nv -> (vget o j .== mget (obs xt) i j) = true) /\
         obs (xtab_add xt o nv w).1
         = obs xt ++ [map (vget (<[1 + nv := w]> o)) (seq 0 (nvars xt))]
     end) /\
  (forall u v : float,
     (v .== u) = true <->
     (v = u /\ PrimFloat.is_nan v = false) \/
     (PrimFloat.is_zero v = true /\ PrimFloat.is_zero u = true)).
Proof.
  split; [|split].
  - intros D Hd fr v w Hnv. unfold freq_add.
    pose proof (freq_search_spec fr v) as Hs.
    destruct (freq_search fr v) as [k|].
    + destruct Hs as (Hk & Ht & Hfirst). done.
    + split; [done|]. unfold add_observation. simpl. by rewrite Hnv.
  - intros D Hd xt o nv w. unfold xtab_add.
    pose proof (find_observation_spec xt o (1 + nv)) as Hs.
    destruct (find_observation xt o (1 + nv)) as [i|].
    + destruct Hs as (Hi & Ht & Hfirst). split; [done|]. split; [|split; [|done]].
      * intros j Hj. rewrite <- vget_row.
        by apply (proj1 (obs_match_spec o _ (1 + nv)) Ht).
      * intros i' Hi' Hall. specialize (Hfirst i' Hi').
        assert (obs_match o (default [] (obs xt !! i')) (1 + nv) = true) as Hm.
        { apply obs_match_spec. intros j Hj. rewrite vget_row. by apply Hall. }
        congruence.
    + split; [|done]. intros i Hi Hall. specialize (Hs i Hi).
      assert (obs_match o (default [] (obs xt !! i)) (1 + nv) = true) as Hm.
      { apply obs_match_spec. intros j Hj. rewrite vget_row. by apply Hall. }
      congruence.
  - apply binary64_eqb_iff.
Qed.

(** C3, as the claim words it, fails of the zeros and of NaN: -0 is added to
    the entry of +0, whose bit pattern is another, and a NaN starts an entry
    beside the entry of NaN. *)
Lemma tabulate_signed_zero_nan :
  ((-0)%float <> 0%float /\
   map obs (freqs (tabulate signed_zero_data xy_model))
   = [[[0; 2]]; [[1; 2]]]%float /\
   obs (xtab (tabulate signed_zero_data xy_model)) = [[0; 1; 2]]%float) /\
  (map obs (freqs (tabulate nan_data xy_model))
   = [[[nan; 1]; [nan; 1]]; [[1; 2]]]%float /\
   obs (xtab (tabulate nan_data xy_model)) = [[nan; 1; 1]; [nan; 1; 1]]%float).
Proof.
  split; [split|].
  - intros Heq. apply (f_equal PrimFloat.classify) in Heq. vm_compute in Heq. discriminate.
  - split; reflexivity.
  - split; reflexivity.
Qed.

(* ================================================================== *)
(** * The model *)

(** C2 on an input.  [logreg d y = a*b] where neither a nor b is a main
    effect yet.  Each call registers its variable as a main effect and warns,
    but the term it stores in the interaction is the value [g] that the
    uninitialised local [ividx] happens to hold, not the index of the main
    effect just registered (0 for a, 1 for b).  Where both calls find the
    same [g] there, the second call takes b for a term the interaction
    already has and stores nothing. *)
Theorem add_model_variable_unregistered (D : Type) (g g' : Z) :
  let r1 := add_model_variable (@y_model D) yab_data "a" NEW_INTERACTION g in
  let r2 := add_model_variable (amv_model r1) yab_data "b" INTERACTION g' in
  (amv_ret r1 = 0%Z /\
   iv (amv_model r1) = [1] /\
   ints (amv_model r1) = [[g]] /\
   amv_log r1
   = ["Warning: this interaction variable will also be added as a main effect: a"%string]) /\
  (amv_ret r2 = 0%Z /\
   iv (amv_model r2) = [1; 2] /\
   ints (amv_model r2) = (if (g' =? g)%Z then [[g]] else [[g; g']])).
Proof.
  intros r1 r2. split.
  - repeat split; reflexivity.
  - subst r2 r1. unfold add_model_variable. simpl. unfold for_ret. simpl.
    destruct (g' =? g)%Z eqn:Heq; repeat split; reflexivity.
Qed.

(** When the variable is a main effect already, the term is its index. *)
Example add_model_variable_registered (D : Type) (g : Z) :
  ints (add_effects (@yab_data D) init_model
          [("y", DEPENDENT); ("a", MAIN); ("b", MAIN);
           ("b", NEW_INTERACTION); ("a", INTERACTION)]%string g)
  = [[1%Z; 0%Z]].
Proof. reflexivity. Qed.

(** The same of every model and dataset: a variable of the dataset that is
    not among the main effects is registered, and the new interaction gets
    the indeterminate [g] for its term. *)
Lemma add_model_variable_new_interaction {D : Type} (mdl : model D) (ds : dataset D)
    (varname : string) (varidx : nat) (g : Z) :
  find_varname ds varname = Some varidx ->
  varidx ∉ iv mdl ->
  let r := add_model_variable mdl ds varname NEW_INTERACTION g in
  amv_ret r = 0%Z /\
  iv (amv_model r) = iv mdl ++ [varidx] /\
  ints (amv_model r) = ints mdl ++ [[g]].
Proof.
  intros Hfind Hnew r. subst r. unfold add_model_variable. simpl. rewrite Hfind.
  pose proof (for_ret_search (fun i => (varidx =? default 0 (iv mdl !! i))%nat) (fun i => i)
                0 (numiv mdl) ltac:(lia)) as Hs.
  match type of Hs with match ?e with _ => _ end => destruct e as [[]|i] end.
  - simpl. done.
  - destruct Hs as (i' & Hi' & -> & Ht & _). exfalso. apply Hnew.
    apply Nat.eqb_eq in Ht.
    destruct (lookup_lt_is_Some_2 (iv mdl) i' ltac:(unfold numiv in Hi'; lia)) as [x Hx].
    rewrite Hx in Ht. simpl in Ht. subst x. by apply list_elem_of_lookup_2 in Hx.
Qed.

(* ================================================================== *)
(** * The populations *)

Section PopulationFacts.
Context {D : Type} `{Double D}.

(** Step 2: the first row is of population 0, and a row is of the population
    of the row before it, or of the next one when it differs from that row
    in an independent variable. *)
Lemma populations_spec (xt : list (list D)) (xtabcols : nat) :
  let ps := populations xt xtabcols in
  length (p_popindex ps) = length xt /\
  1 <= p_N ps /\
  (forall i, i < length xt -> default 0 (p_popindex ps !! i) < p_N ps) /\
  default 0 (p_popindex ps !! 0) = 0 /\
  (forall i, 1 <= i < length xt ->
     default 0 (p_popindex ps !! i)
     = default 0 (p_popindex ps !! (i - 1)) + (if popchange xt xtabcols i then 1 else 0)).
Proof.
  intros ps. subst ps. unfold populations.
  destruct (decide (length xt = 0)) as [Hz|Hnz].
  { rewrite for_loop_empty by lia. simpl.
    rewrite length_insert, length_replicate. repeat split; try lia.
    destruct xt; [done|simpl in Hz; lia]. }
  loop_inv (fun i (st : pop_state D) =>
    length (p_popindex st) = length xt /\
    1 <= p_N st /\
    default 0 (p_popindex st !! (i - 1)) + 1 = p_N st /\
    (forall i', i' < i -> default 0 (p_popindex st !! i') < p_N st) /\
    default 0 (p_popindex st !! 0) = 0 /\
    (forall i', 1 <= i' < i ->
       default 0 (p_popindex st !! i')
       = default 0 (p_popindex st !! (i' - 1)) + (if popchange xt xtabcols i' then 1 else 0))).
  destruct Hinv as (Hlen & HN & _ & Hlt & H0 & Hrel); [lia| | |done].
  - simpl. rewrite length_insert, length_replicate.
    rewrite list_lookup_insert_eq by (rewrite length_replicate; lia). simpl.
    repeat split; try lia. intros i' Hi'. assert (i' = 0) as -> by lia.
    rewrite list_lookup_insert_eq by (rewrite length_replicate; lia). simpl. lia.
  - intros i st Hi (Hlen & HN & Hlast & Hlt & H0 & Hrel). simpl.
    rewrite length_insert.
    set (N' := if popchange xt xtabcols i then p_N st + 1 else p_N st).
    assert (HN' : p_N st <= N') by (unfold N'; destruct (popchange xt xtabcols i); lia).
    assert (Hget : forall i', i' <> i ->
              default 0 (<[i := N' - 1]> (p_popindex st) !! i')
              = default 0 (p_popindex st !! i')).
    { intros i' Hne. by rewrite list_lookup_insert_ne. }
    assert (Hset : default 0 (<[i := N' - 1]> (p_popindex st) !! i) = N' - 1).
    { by rewrite list_lookup_insert_eq by lia. }
    split; [done|]. split; [lia|]. split; [|split; [|split]].
    + replace (i - 0) with i by lia. rewrite Hset. lia.
    + intros i' Hi'. destruct (decide (i' = i)) as [->|Hne].
      * rewrite Hset. lia.
      * rewrite Hget by done. specialize (Hlt i' ltac:(lia)). lia.
    + rewrite Hget by lia. done.
    + intros i' Hi'. destruct (decide (i' = i)) as [->|Hne].
      * rewrite Hset. rewrite Hget by lia. unfold N'.
        replace (i - 1) with (i - 1) in Hlast by done.
        destruct (popchange xt xtabcols i); lia.
      * rewrite !Hget by lia. apply Hrel. lia.
Qed.

(** The populations of the rows never go down, and go up at a change. *)
Lemma popindex_mono (xt : list (list D)) (xtabcols : nat) (i i' : nat) :
  let ps := populations xt xtabcols in
  i <= i' -> i' < length xt ->
  default 0 (p_popindex ps !! i) <= default 0 (p_popindex ps !! i').
Proof.
  intros ps Hle Hi'.
  destruct (populations_spec xt xtabcols) as (_ & _ & _ & _ & Hrel). fold ps in Hrel.
  induction i' as [|i' IH]; [by replace i with 0 by lia|].
  destruct (decide (i = Datatypes.S i')) as [->|Hne]; [done|].
  specialize (Hrel (Datatypes.S i') ltac:(lia)).
  replace (Datatypes.S i' - 1) with i' in Hrel by lia.
  specialize (IH ltac:(lia) ltac:(lia)). lia.
Qed.

End PopulationFacts.

(* ================================================================== *)
(** * The coding of the main effects *)

Section EncodingFacts.
Context {D : Type} `{Double D}.

Lemma main_start_S (mdl : model D) (j : nat) :
  main_start mdl (Datatypes.S j) = main_start mdl j + main_span mdl j.
Proof.
  unfold main_start. rewrite seq_S, sum_list_with_app. simpl. lia.
Qed.

Lemma main_start_mono (mdl : model D) (j j' : nat) :
  j <= j' -> main_start mdl j <= main_start mdl j'.
Proof.
  induction 1 as [|j' Hle IH]; [done|]. rewrite main_start_S. lia.
Qed.

(** The loop over [k] of lines 265-277, which codes a categorical variable
    into the columns from [xc] on of row [xr]. *)
Lemma encode_levels_spec (mdl : model D) (dummy : bool) (xt : list (list D))
    (i xr j : nat) (X : list (list D)) (xc N K : nat) :
  shape X N K -> xr < N -> xc + (freq_n mdl j - 1) <= K ->
  let res := for_loop 0 (freq_n mdl j - 1) (fun k '(X, xc) =>
      let freq := freq_obs mdl j in
      let v :=
        if mget xt i j .== mget freq k 0 then d1
        else if negb dummy && (mget xt i j .== mget freq (freq_n mdl j - 1) 0)
             then d_of_int (-1)
        else d0 in
      (mset X xr xc v, xc + 1)) (X, xc) in
  shape res.1 N K /\ res.2 = xc + (freq_n mdl j - 1) /\
  (forall r c, r <> xr \/ c < xc \/ xc + (freq_n mdl j - 1) <= c ->
     mget res.1 r c = mget X r c) /\
  (forall k, k < freq_n mdl j - 1 ->
     mget res.1 xr (xc + k)
     = encoding dummy (mget xt i j) (level mdl j k) (level mdl j (freq_n mdl j - 1))).
Proof.
  intros Hs Hxr HK res. subst res.
  set (L1 := freq_n mdl j - 1) in *.
  loop_inv (fun k (st : list (list D) * nat) =>
    shape st.1 N K /\ st.2 = xc + k /\
    (forall r c, r <> xr \/ c < xc \/ xc + k <= c -> mget st.1 r c = mget X r c) /\
    (forall k', k' < k ->
       mget st.1 xr (xc + k')
       = encoding dummy (mget xt i j) (level mdl j k') (level mdl j L1))).
  apply Hinv; clear Hinv.
  - lia.
  - simpl. split; [done|]. split; [lia|]. split; [done|]. intros k' Hk'. lia.
  - intros k [X' xc'] Hk (Hs' & Hxc & Hframe & Hval). simpl in *. subst xc'.
    split; [by apply shape_mset|]. split; [lia|]. split.
    + intros r c Hrc. rewrite mget_mset_ne by lia. apply Hframe. lia.
    + intros k' Hk'. destruct (decide (k' = k)) as [->|Hne].
      * rewrite (mget_mset_eq _ N K) by (done || lia).
        unfold encoding, level, d1, d0.
        destruct (mget xt i j .== mget (freq_obs mdl j) k 0); [done|].
        destruct dummy; simpl; [done|].
        by destruct (mget xt i j .== mget (freq_obs mdl j) L1 0).
      * rewrite mget_mset_ne by lia. apply Hval. lia.
Qed.

(** Lines 246-280: row [xr] of X after it is coded from row [i] of the
    crosstab. *)
Lemma encode_row_spec (mdl : model D) (dummy : bool) (xt : list (list D))
    (i xr : nat) (X : list (list D)) (N K : nat) :
  shape X N K -> xr < N -> main_start mdl (numiv mdl) <= K ->
  let res := encode_row mdl dummy xt (2 + numiv mdl) i xr X in
  shape res.1 N K /\
  (forall r c, r <> xr \/ main_start mdl (numiv mdl) <= c -> mget res.1 r c = mget X r c) /\
  (forall j k, j < numiv mdl -> direct_at mdl j = 0%Z -> k < freq_n mdl j - 1 ->
     mget res.1 xr (main_start mdl j + k)
     = encoding dummy (mget xt i j) (level mdl j k) (level mdl j (freq_n mdl j - 1))).
Proof.
  intros Hs Hxr HK res. subst res. unfold encode_row.
  replace (2 + numiv mdl - 2) with (numiv mdl) by lia.
  set (X1 := mset X xr 0 d1).
  assert (Hs1 : shape X1 N K) by (by apply shape_mset).
  assert (Hframe1 : forall r c, r <> xr \/ 1 <= c -> mget X1 r c = mget X r c).
  { intros r c Hrc. unfold X1. apply mget_mset_ne. lia. }
  assert (Hone : forall j, 1 <= main_start mdl j) by (intros j; unfold main_start; lia).
  cbv zeta.
  loop_inv (fun j (st : list (list D) * nat) =>
    shape st.1 N K /\ st.2 = main_start mdl j /\
    (forall r c, r <> xr \/ c < 1 \/ main_start mdl j <= c -> mget st.1 r c = mget X1 r c) /\
    (forall j' k, j' < j -> direct_at mdl j' = 0%Z -> k < freq_n mdl j' - 1 ->
       mget st.1 xr (main_start mdl j' + k)
       = encoding dummy (mget xt i j') (level mdl j' k) (level mdl j' (freq_n mdl j' - 1)))).
  destruct Hinv as (Hsr & _ & Hfr & Hv); [lia| | |].
  - simpl. split; [done|]. split; [done|]. split; [done|]. intros j' k Hj'. lia.
  - intros j [X' xc'] Hj (Hs' & Hxc & Hframe & Hval).
    cbn [fst snd] in Hs', Hxc, Hframe, Hval. subst xc'.
    pose proof (main_start_S mdl j) as HS.
    pose proof (main_start_mono mdl (Datatypes.S j) (numiv mdl) ltac:(lia)) as Hmono.
    assert (Hblock : forall j' k, j' < j -> direct_at mdl j' = 0%Z -> k < freq_n mdl j' - 1 ->
              main_start mdl j' + k < main_start mdl j).
    { intros j' k Hj' Hd' Hk'.
      pose proof (main_start_mono mdl (Datatypes.S j') j ltac:(lia)) as Hm.
      pose proof (main_start_S mdl j') as HS'. unfold main_span in HS'.
      rewrite Hd' in HS'. cbn [Z.eqb] in HS'. lia. }
    destruct (direct_at mdl j =? 0)%Z eqn:Hdir; cbn [negb].
    + (* categorical *)
      unfold main_span in HS. rewrite Hdir in HS. cbv iota in HS.
      pose proof (Hone j) as Hj1.
      pose proof (encode_levels_spec mdl dummy xt i xr j X' (main_start mdl j) N K
                    Hs' Hxr ltac:(lia)) as Hlev.
      cbv zeta in Hlev.
      destruct Hlev as (Hsr & Hxcr & Hfr & Hvr).
      split; [exact Hsr|]. split; [rewrite Hxcr; lia|]. split.
      * intros r c Hrc. rewrite Hfr by lia. apply Hframe. lia.
      * intros j' k Hj' Hd' Hk'. destruct (decide (j' = j)) as [->|Hne].
        -- by apply Hvr.
        -- pose proof (Hblock j' k ltac:(lia) Hd' Hk').
           rewrite Hfr by lia. apply Hval; [lia|done|done].
    + (* direct *)
      unfold main_span in HS. rewrite Hdir in HS. cbv iota in HS. cbn [fst snd].
      pose proof (Hone j) as Hj1.
      split; [by apply shape_mset|]. split; [lia|]. split.
      * intros r c Hrc. rewrite mget_mset_ne by lia. apply Hframe. lia.
      * intros j' k Hj' Hd' Hk'. destruct (decide (j' = j)) as [->|Hne].
        -- apply Z.eqb_neq in Hdir. done.
        -- pose proof (Hblock j' k ltac:(lia) Hd' Hk').
           rewrite mget_mset_ne by lia. apply Hval; [lia|done|done].
  - split; [done|]. split; [|done].
    intros r c Hrc. destruct Hrc as [Hr|Hc].
    + rewrite Hfr by lia. apply Hframe1. lia.
    + specialize (Hone (numiv mdl)). rewrite Hfr by lia. apply Hframe1. lia.
Qed.

End EncodingFacts.

(* ================================================================== *)
(** * The interactions leave the main effects alone *)

Section InteractionFacts.
Context {D : Type} `{Double D}.

(** Lines 330-338: the interactions start where the main effects end. *)
Lemma column_layout_xc (mdl : model D) :
  (column_layout mdl (2 + numiv mdl)).2 = main_start mdl (numiv mdl).
Proof.
  unfold column_layout. replace (2 + numiv mdl - 2) with (numiv mdl) by lia.
  loop_inv (fun i (st : list nat * list nat * nat) => st.2 = main_start mdl i).
  apply Hinv; clear Hinv; [lia|done|].
  intros i [[sc cs] xc] Hi Hxc. cbn [snd] in Hxc. subst xc.
  rewrite main_start_S. unfold main_span.
  by destruct (direct_at mdl i =? 0)%Z.
Qed.

(** One column of an interaction is written at [xc]: the columns before it
    keep their cells. *)
Lemma interaction_column_frame (mdl : model D) (N : nat) (startcol colspan : list nat)
    (i : nat) (X : list (list D)) (xc : nat) (idx : list nat) :
  let res := interaction_column mdl N startcol colspan i (X, xc, idx) in
  res.1.1.2 = xc + 1 /\
  forall r c, c < xc -> mget res.1.1.1 r c = mget X r c.
Proof.
  unfold interaction_column.
  match goal with |- context [for_down ?n ?f ?s] => destruct (for_down n f s) as [idx' q] end.
  cbn [fst snd]. split; [done|].
  intros r c Hc.
  apply (for_loop_inv (fun X' => mget X' r c = mget X r c)); [done|].
  intros j X' Hj HX'. rewrite mget_mset_ne by lia. done.
Qed.

Lemma do_while_frame (mdl : model D) (N : nat) (startcol colspan : list nat)
    (i : nat) (fuel : nat) (X : list (list D)) (xc : nat) (idx : list nat) :
  let res := do_while fuel (interaction_column mdl N startcol colspan i) (X, xc, idx) in
  xc <= res.1.2 /\
  forall r c, c < xc -> mget res.1.1 r c = mget X r c.
Proof.
  revert X xc idx. induction fuel as [|fuel IH]; intros X xc idx; [done|].
  cbn [do_while].
  pose proof (interaction_column_frame mdl N startcol colspan i X xc idx) as Hcol.
  cbv zeta in Hcol.
  destruct (interaction_column mdl N startcol colspan i (X, xc, idx)) as [[[X' xc'] idx'] q].
  cbn [fst snd] in Hcol. destruct Hcol as [-> Hfr].
  destruct q.
  - specialize (IH X' (xc + 1) idx'). cbv zeta in IH. destruct IH as [Hle Hfr'].
    split; [lia|]. intros r c Hc. rewrite Hfr' by lia. by apply Hfr.
  - cbn [fst snd]. split; [lia|]. done.
Qed.

(** Step 6 writes no cell of the columns before [xc], where it starts. *)
Lemma interactions_frame (mdl : model D) (N : nat) (startcol colspan : list nat)
    (xc : nat) (X : list (list D)) (r c : nat) :
  c < xc -> mget (interactions mdl N startcol colspan xc X) r c = mget X r c.
Proof.
  intros Hc. unfold interactions.
  loop_inv (fun (i : nat) (st : list (list D) * nat) =>
    xc <= st.2 /\ mget st.1 r c = mget X r c).
  apply Hinv; clear Hinv; [lia|done|].
  intros i [X' xc'] Hi [Hle HX']. cbn [fst snd] in Hle, HX'.
  pose proof (do_while_frame mdl N startcol colspan i
                (Datatypes.S (Z.to_nat (interaction_columns mdl i)))
                X' xc' (replicate (inttc mdl i) 1)) as Hdw.
  cbv zeta in Hdw.
  destruct (do_while _ _ _) as [[X'' xc''] idx]. cbn [fst snd] in Hdw |- *.
  destruct Hdw as [Hle' Hfr]. split; [lia|]. rewrite Hfr by lia. done.
Qed.

End InteractionFacts.

(* ================================================================== *)
(** * The design matrix of a tabulated model *)

Section DesignFacts.
Context {D : Type} `{Double D}.

Lemma tabulated_spec (mdl : model D) :
  tabulated mdl = true ->
  nvars (xtab mdl) = 2 + numiv mdl /\
  (forall j, j < numiv mdl -> 1 <= freq_n mdl j) /\
  (forall terms t, terms ∈ ints mdl -> t ∈ terms -> (0 <= t < Z.of_nat (numiv mdl))%Z).
Proof.
  unfold tabulated. intros Ht.
  apply andb_true_iff in Ht as [Ht Hints]. apply andb_true_iff in Ht as [Hnv Hfreq].
  apply Nat.eqb_eq in Hnv. split; [done|]. split.
  - intros j Hj. rewrite forallb_forall in Hfreq.
    specialize (Hfreq j). apply Nat.leb_le. apply Hfreq. apply in_seq. lia.
  - intros terms t Hterms Ht. rewrite forallb_forall in Hints.
    specialize (Hints terms ltac:(by apply list_elem_of_In)).
    rewrite forallb_forall in Hints.
    specialize (Hints t ltac:(by apply list_elem_of_In)). lia.
Qed.

(** The columns of X suffice for the intercept and the main effects. *)
Lemma main_columns_fit (mdl : model D) :
  tabulated mdl = true ->
  main_start mdl (numiv mdl) <= Z.to_nat (count_columns mdl).
Proof.
  intros Ht. apply tabulated_spec in Ht as (_ & Hfreq & Hints).
  rewrite count_columns_eq. unfold spec_K.
  assert (Hmain : forall j, j <= numiv mdl ->
            (1 + foldr Z.add 0%Z (map (spec_main_columns mdl) (seq 0 j)))%Z
            = Z.of_nat (main_start mdl j)).
  { induction j as [|j IH]; intros Hj; [done|].
    rewrite main_start_S, seq_S, map_app, foldr_app. cbn [map foldr].
    assert (Hacc : forall l b, foldr Z.add b l = (foldr Z.add 0%Z l + b)%Z).
    { clear. induction l as [|x l IHl]; intros b; simpl; [lia|]. rewrite IHl. lia. }
    rewrite (Hacc _ (spec_main_columns mdl j + 0)%Z).
    specialize (IH ltac:(lia)).
    assert (spec_main_columns mdl j = Z.of_nat (main_span mdl j)) as ->.
    { unfold spec_main_columns, main_span. specialize (Hfreq j ltac:(lia)).
      destruct (direct_at mdl j =? 0)%Z; lia. }
    lia. }
  assert (Hint : (0 <= foldr Z.add 0
                    (map (fun terms => foldr Z.mul 1 (map (spec_term_columns mdl) terms))
                         (ints mdl)))%Z).
  { assert (Hall : forall l : list (list Z), (forall terms, terms ∈ l -> terms ∈ ints mdl) ->
       (0 <= foldr Z.add 0
               (map (fun terms => foldr Z.mul 1 (map (spec_term_columns mdl) terms)) l))%Z).
    { induction l as [|terms l IH]; intros Hsub; simpl; [lia|].
      assert (0 <= foldr Z.mul 1 (map (spec_term_columns mdl) terms))%Z.
      { assert (Hterms : forall t, t ∈ terms -> (0 <= spec_term_columns mdl t)%Z).
        { intros t Hin. specialize (Hints terms t (Hsub terms ltac:(left)) Hin).
          unfold spec_term_columns, freq_n_term, zlookup.
          destruct (direct_term mdl t =? 0)%Z; [|lia].
          destruct (t <? 0)%Z eqn:Hneg; [lia|].
          specialize (Hfreq (Z.to_nat t) ltac:(lia)). unfold freq_n in Hfreq.
          destruct (freqs mdl !! Z.to_nat t); lia. }
        clear -Hterms. induction terms as [|t terms IH]; simpl; [lia|].
        apply Z.mul_nonneg_nonneg.
        - apply Hterms. left.
        - apply IH. intros t' Hin. apply Hterms. by right. }
      specialize (IH ltac:(intros t' Hin; apply Hsub; by right)). lia. }
    by apply Hall. }
  specialize (Hmain (numiv mdl) ltac:(lia)). lia.
Qed.

(** Step 5: after the rows of the crosstab, the row of X of each population
    holds the coding of the row of the crosstab that starts the
    population. *)
Lemma design_rows_X (mdl : model D) (dummy : bool) (J K : nat) :
  main_start mdl (numiv mdl) <= K ->
  let xt := obs (xtab mdl) in
  let cols := 2 + numiv mdl in
  let ps := populations xt cols in
  let des := design_rows mdl dummy xt cols J (p_N ps) K (p_popindex ps) in
  forall i j k, i < length xt -> (i = 0 \/ popchange xt cols i = true) ->
    j < numiv mdl -> direct_at mdl j = 0%Z -> k < freq_n mdl j - 1 ->
    mget (g_X des) (default 0 (p_popindex ps !! i)) (main_start mdl j + k)
    = encoding dummy (mget xt i j) (level mdl j k) (level mdl j (freq_n mdl j - 1)).
Proof.
  intros HK xt cols ps des. subst des. unfold design_rows.
  destruct (populations_spec xt cols) as (Hplen & HN & Hplt & Hp0 & Hprel).
  fold ps in Hplen, HN, Hplt, Hp0, Hprel.
  set (pidx i := default 0 (p_popindex ps !! i)) in *.
  loop_inv (fun i (st : design_state D) =>
    shape (g_X st) (p_N ps) K /\
    g_lastpop st = (if decide (i = 0) then (-1)%Z else Z.of_nat (pidx (i - 1))) /\
    (i <> 0 -> g_xr st = pidx (i - 1)) /\
    (forall i0 j k, i0 < i -> (i0 = 0 \/ popchange xt cols i0 = true) ->
       j < numiv mdl -> direct_at mdl j = 0%Z -> k < freq_n mdl j - 1 ->
       mget (g_X st) (pidx i0) (main_start mdl j + k)
       = encoding dummy (mget xt i0 j) (level mdl j k) (level mdl j (freq_n mdl j - 1)))).
  destruct Hinv as (_ & _ & _ & Hval); [lia| | |].
  - cbn [g_X g_lastpop g_xr]. split; [apply shape_replicate|]. split; [done|].
    split; [done|]. intros i0 j k Hi0. lia.
  - intros i st Hi (Hs & Hlast & Hxr & Hval). unfold design_row. fold (pidx i).
    assert (Hnew : negb (Z.of_nat (pidx i) =? g_lastpop st)%Z
                   = if decide (i = 0) then true else popchange xt cols i).
    { rewrite Hlast. destruct (decide (i = 0)) as [->|Hnz].
      - apply negb_true_iff, Z.eqb_neq. lia.
      - specialize (Hprel i ltac:(lia)). fold (pidx i) (pidx (i - 1)) in Hprel.
        destruct (popchange xt cols i).
        + apply negb_true_iff, Z.eqb_neq. lia.
        + apply negb_false_iff, Z.eqb_eq. lia. }
    rewrite Hnew.
    pose proof (encode_row_spec mdl dummy xt i (pidx i) (g_X st) (p_N ps) K Hs
                  (Hplt i ltac:(lia)) HK) as Henc.
    cbv zeta in Henc. fold cols in Henc.
    destruct (encode_row mdl dummy xt cols i (pidx i) (g_X st)) as [X' xc'].
    cbn [fst snd] in Henc. destruct Henc as (Hs' & Hfr & Henc).
    assert (Hcase : (if decide (i = 0) then true else popchange xt cols i) = true
                    \/ ((if decide (i = 0) then true else popchange xt cols i) = false
                        /\ i <> 0 /\ popchange xt cols i = false)).
    { destruct (decide (i = 0)); [by left|]. destruct (popchange xt cols i); [by left|].
      right. done. }
    destruct Hcase as [Hc|(Hc & Hnz & Hpc)]; rewrite Hc; cbn [g_X g_lastpop g_xr].
    + split; [done|]. split; [|split].
      * destruct (decide (Datatypes.S i = 0)); [lia|].
        by replace (Datatypes.S i - 1) with i by lia.
      * intros _. by replace (Datatypes.S i - 1) with i by lia.
      * intros i0 j k Hi0 Hfirst Hj Hd Hk.
        destruct (decide (i0 = i)) as [->|Hne]; [by apply Henc|].
        assert (pidx i0 <> pidx i) as Hrow.
        { destruct (decide (i = 0)) as [->|Hnz]; [lia|]. rewrite Hc in *.
          specialize (Hprel i ltac:(lia)). fold (pidx i) (pidx (i - 1)) in Hprel.
          rewrite Hc in Hprel.
          pose proof (popindex_mono xt cols i0 (i - 1) ltac:(lia) ltac:(lia)) as Hm.
          cbv zeta in Hm. fold ps in Hm. fold (pidx i0) (pidx (i - 1)) in Hm. lia. }
        rewrite Hfr by (left; done). apply Hval; [lia|done..].
    + split; [done|]. split; [|split].
      * destruct (decide (Datatypes.S i = 0)); [lia|].
        replace (Datatypes.S i - 1) with i by lia. rewrite Hxr by done.
        specialize (Hprel i ltac:(lia)). fold (pidx i) (pidx (i - 1)) in Hprel.
        rewrite Hpc in Hprel. f_equal. lia.
      * intros _. replace (Datatypes.S i - 1) with i by lia. rewrite Hxr by done.
        specialize (Hprel i ltac:(lia)). fold (pidx i) (pidx (i - 1)) in Hprel.
        rewrite Hpc in Hprel. lia.
      * intros i0 j k Hi0 Hfirst Hj Hd Hk.
        destruct (decide (i0 = i)) as [->|Hne].
        -- destruct Hfirst as [?|Hf]; [done|]. rewrite Hpc in Hf. done.
        -- apply Hval; [lia|done..].
  - intros i j k Hi. by apply Hval.
Qed.

End DesignFacts.

Section EncodingClaim.
Context {D : Type} `{Double D}.


End EncodingClaim.


(* ================================================================== *)
(** * Sums in exact arithmetic *)

Section SumFacts.
Context {D : Type} `{Double D}.
Hypothesis exact : exact_arithmetic.

Lemma dadd_comm (a b : D) : a .+ b = b .+ a.
Proof using exact. by destruct exact as (Hc & _). Qed.

Lemma dadd_assoc (a b c : D) : a .+ (b .+ c) = (a .+ b) .+ c.
Proof using exact. by destruct exact as (_ & Ha & _). Qed.

Lemma dadd_0_l (a : D) : d0 .+ a = a.
Proof using exact. by destruct exact as (_ & _ & H0 & _). Qed.

Lemma dadd_0_r (a : D) : a .+ d0 = a.
Proof using exact. rewrite dadd_comm. apply dadd_0_l. Qed.

Lemma deqb_refl (a : D) : (a .== a) = true.
Proof using exact. by destruct exact as (_ & _ & _ & Hr). Qed.

Lemma sumD_app (l1 l2 : list D) : sumD (l1 ++ l2) = sumD l1 .+ sumD l2.
Proof using exact.
  induction l1 as [|a l1 IH]; simpl.
  - by rewrite dadd_0_l.
  - unfold sumD in *. simpl. by rewrite IH, dadd_assoc.
Qed.

Lemma sumD_snoc (l : list D) (a : D) : sumD (l ++ [a]) = sumD l .+ a.
Proof using exact. rewrite sumD_app. unfold sumD at 2. simpl. by rewrite dadd_0_r. Qed.

Lemma sumD_perm (l l' : list D) : Permutation l l' -> sumD l = sumD l'.
Proof using exact.
  induction 1 as [|a l l' _ IH|a b l|l l' l'' _ IH1 _ IH2]; unfold sumD in *; simpl.
  - done.
  - by rewrite IH.
  - rewrite !dadd_assoc. by rewrite (dadd_comm a b).
  - by rewrite IH1.
Qed.

(** Adding [w] to one cell of a vector adds [w] to its sum. *)
Lemma sumD_insert (l : list D) (i : nat) (w : D) :
  i < length l -> sumD (<[i := vget l i .+ w]> l) = sumD l .+ w.
Proof using exact.
  revert i. induction l as [|a l IH]; intros i Hi; simpl in Hi; [lia|].
  destruct i as [|i]; unfold sumD in *; simpl.
  - unfold vget. simpl. rewrite <- !dadd_assoc. by rewrite (dadd_comm w).
  - change (vget (a :: l) (Datatypes.S i)) with (vget l i).
    rewrite IH by lia. by rewrite dadd_assoc.
Qed.

(** The loop that adds up a column from its first cell, as [populations]
    does for M. *)
Lemma for_loop_sumD (g : nat -> D) (n : nat) :
  1 <= n ->
  for_loop 1 n (fun i M => M .+ g i) (g 0) = sumD (map g (seq 0 n)).
Proof using exact.
  intros Hn. induction n as [|n IH]; [lia|].
  destruct (decide (n = 0)) as [->|Hnz].
  - rewrite for_loop_empty by lia. unfold sumD. simpl. by rewrite dadd_0_r.
  - rewrite for_loop_last by lia. rewrite IH by lia.
    rewrite seq_S, map_app. simpl. by rewrite sumD_snoc.
Qed.

End SumFacts.

(* ================================================================== *)
(** * The totals of the tabulation *)

Section SortFacts.
Context {A : Type}.

Lemma qsort_insert_perm (cmp : A -> A -> Z) (a : A) (l : list A) :
  Permutation (qsort_insert cmp a l) (a :: l).
Proof.
  induction l as [|b l IH]; simpl; [done|].
  destruct (cmp a b <=? 0)%Z; [done|].
  rewrite IH. apply perm_swap.
Qed.

(** [qsort] rearranges its input. *)
Lemma qsort_perm (cmp : A -> A -> Z) (l : list A) : Permutation (qsort cmp l) l.
Proof.
  induction l as [|a l IH]; simpl; [done|].
  unfold qsort in *. simpl. rewrite qsort_insert_perm. by rewrite IH.
Qed.

End SortFacts.

Section ColumnFacts.
Context {D : Type} `{Double D}.

Lemma map_vget_seq (o : list D) : map (vget o) (seq 0 (length o)) = o.
Proof.
  induction o as [|a o IH] using rev_ind; [done|].
  rewrite length_app, Nat.add_1_r, seq_S, map_app. simpl. f_equal.
  - rewrite <- IH at 3. apply map_ext_in. intros i Hi. apply in_seq in Hi.
    unfold vget. by rewrite lookup_app_l by lia.
  - unfold vget. by rewrite list_lookup_middle.
Qed.

Lemma col_mset_ne (x : list (list D)) (i c c' : nat) (v : D) :
  c <> c' -> map (fun r => vget r c') (mset x i c v) = map (fun r => vget r c') x.
Proof.
  intros Hne. unfold mset. revert i. induction x as [|r x IH]; intros i; [done|].
  destruct i as [|i]; simpl.
  - by rewrite vget_insert_ne.
  - f_equal. apply IH.
Qed.

Lemma col_mset_eq (x : list (list D)) (i c : nat) (v : D) (row : list D) :
  x !! i = Some row -> c < length row ->
  map (fun r => vget r c) (mset x i c v) = <[i := v]> (map (fun r => vget r c) x).
Proof.
  unfold mset. revert i. induction x as [|r x IH]; intros i Hrow Hc; [done|].
  destruct i as [|i]; simpl in *.
  - injection Hrow as ->. by rewrite vget_insert_eq.
  - f_equal. by apply IH.
Qed.

Lemma vget_col (x : list (list D)) (i c : nat) :
  vget (map (fun r => vget r c) x) i = mget x i c.
Proof.
  unfold vget at 1, mget. rewrite list_lookup_fmap. by destruct (x !! i).
Qed.

Lemma col_seq (x : list (list D)) (c : nat) :
  map (fun i => mget x i c) (seq 0 (length x)) = map (fun r => vget r c) x.
Proof.
  induction x as [|r x IH] using rev_ind; [done|].
  rewrite length_app, Nat.add_1_r, seq_S, !map_app. simpl. f_equal.
  - rewrite <- IH. apply map_ext_in. intros i Hi. apply in_seq in Hi.
    unfold mget. by rewrite lookup_app_l by lia.
  - unfold mget. by rewrite list_lookup_middle.
Qed.

End ColumnFacts.

Section TabulateTotals.
Context {D : Type} `{Double D}.

Lemma lookup_mset_eq (x : list (list D)) (i j : nat) (v : D) :
  mset x i j v !! i = (fun row => <[j := v]> row) <$> (x !! i).
Proof. unfold mset. apply list_lookup_alter_eq. Qed.

Lemma lookup_mset_ne (x : list (list D)) (i i' j : nat) (v : D) :
  i <> i' -> mset x i j v !! i' = x !! i'.
Proof. intros Hne. unfold mset. by apply list_lookup_alter_ne. Qed.

Lemma freq_add_nvars (fr : dataset D) (t w : D) : nvars (freq_add fr t w) = nvars fr.
Proof. unfold freq_add. by destruct (freq_search fr t). Qed.

(** A value that has an entry keeps it when a weight is added. *)
Lemma freq_add_covers_old (fr : dataset D) (t w v : D) :
  covers fr v -> covers (freq_add fr t w) v.
Proof.
  intros (f & Hf & Hv). unfold freq_add, covers.
  destruct (freq_search fr t) as [k|]; unfold add_observation, set_obs; cbn [obs].
  - apply list_elem_of_lookup in Hf as [i Hi].
    destruct (decide (i = k)) as [->|Hne].
    + exists (<[1 := mget (obs fr) k 1 .+ w]> f). split.
      * apply (list_elem_of_lookup_2 _ k).
        rewrite lookup_mset_eq. by rewrite Hi.
      * by rewrite vget_insert_ne.
    + exists f. split; [|done].
      apply (list_elem_of_lookup_2 _ i).
      by rewrite lookup_mset_ne.
  - exists f. split; [|done]. apply elem_of_app. by left.
Qed.

(** The value added has an entry afterwards, when it equals itself. *)
Lemma freq_add_covers_new (fr : dataset D) (t w : D) :
  nvars fr = 2 -> (t .== t) = true -> covers (freq_add fr t w) t.
Proof.
  intros Hnv Hrefl. unfold freq_add, covers.
  pose proof (freq_search_spec fr t) as Hs.
  destruct (freq_search fr t) as [k|]; unfold add_observation, set_obs; cbn [obs].
  - destruct Hs as (Hk & Heq & _). unfold ds_n in Hk.
    destruct (lookup_lt_is_Some_2 (obs fr) k Hk) as [f Hf].
    exists (<[1 := mget (obs fr) k 1 .+ w]> f). split.
    + apply (list_elem_of_lookup_2 _ k).
      rewrite lookup_mset_eq. by rewrite Hf.
    + rewrite vget_insert_ne by done.
      unfold mget in Heq. by rewrite Hf in Heq.
  - exists [t; w]. split; [|done]. rewrite Hnv. apply elem_of_app. right.
    apply list_elem_of_here.
Qed.

(** The loop over the variables of one observation: the buffer holds the
    value of the dependent variable at [numiv], and the last frequency table
    has had it added. *)
Lemma tabulate_vars_spec (mdl : model D) (row : list D) (w : D)
    (fr : list (dataset D)) (o : list D) :
  let nv := numiv mdl in
  nv < length o ->
  length (tabulate_vars mdl row w fr o).1 = length fr /\
  length (tabulate_vars mdl row w fr o).2 = length o /\
  vget (tabulate_vars mdl row w fr o).2 nv = vget row (dv mdl) /\
  (tabulate_vars mdl row w fr o).1 !! nv
  = (fun f => freq_add f (vget row (dv mdl)) w) <$> (fr !! nv).
Proof.
  intros nv Ho. unfold tabulate_vars. fold nv.
  rewrite Nat.add_1_r, for_loop_last by lia.
  set (body := fun (j : nat) '(fr0, o0) => _).
  assert (Hinv : let r := for_loop 0 nv body (fr, o) in
            length r.1 = length fr /\ length r.2 = length o /\ r.1 !! nv = fr !! nv).
  { apply (for_loop_ind (fun j (r : list (dataset D) * list D) =>
             length r.1 = length fr /\ length r.2 = length o /\ r.1 !! nv = fr !! nv));
      [lia|done|].
    intros j [fr0 o0] Hj (Hl1 & Hl2 & Hnv). unfold body. cbn [fst snd] in *.
    rewrite length_alter, length_insert.
    split; [done|]. split; [done|].
    rewrite list_lookup_alter_ne by lia. done. }
  cbv zeta in Hinv. destruct (for_loop 0 nv body (fr, o)) as [fr0 o0].
  cbn [fst snd] in Hinv. destruct Hinv as (Hl1 & Hl2 & Hnv).
  unfold body. cbn [fst snd]. rewrite Nat.ltb_irrefl.
  rewrite length_alter, length_insert.
  split; [done|]. split; [done|]. split.
  - apply vget_insert_eq. lia.
  - rewrite list_lookup_alter_eq. by rewrite Hnv.
Qed.

End TabulateTotals.

Section FoldFacts.
Context {S A : Type}.

(** A loop over the elements of a list is a fold. *)
Lemma for_loop_foldl (f : A -> S -> S) (d : A) (l : list A) (s : S) :
  for_loop 0 (length l) (fun i st => f (default d (l !! i)) st) s
  = foldl (fun st a => f a st) s l.
Proof.
  induction l as [|a l IH] using rev_ind; [done|].
  rewrite length_app, Nat.add_1_r, for_loop_last by lia.
  rewrite foldl_app. cbn [foldl]. rewrite list_lookup_middle by done. cbn [default].
  f_equal. rewrite <- IH. apply for_loop_ext. intros i st Hi.
  by rewrite lookup_app_l by lia.
Qed.

(** Elements that leave the state as it is can be dropped. *)
Lemma foldl_filter (f : S -> A -> S) (p : A -> bool) (l : list A) (s : S) :
  (forall a s, p a = false -> f s a = s) ->
  foldl f s (List.filter p l) = foldl f s l.
Proof.
  intros Hskip. revert s. induction l as [|a l IH]; intros s; [done|].
  cbn [List.filter foldl]. destruct (p a) eqn:Hp.
  - cbn [foldl]. apply IH.
  - rewrite (Hskip a s Hp). apply IH.
Qed.

(** The same function applied at each index of a list, one after the other. *)
Lemma for_loop_alter (g : A -> A) (n : nat) (l : list A) :
  length (for_loop 0 n (fun i fr => alter g i fr) l) = length l /\
  forall j, j < n -> for_loop 0 n (fun i fr => alter g i fr) l !! j = g <$> (l !! j).
Proof.
  induction n as [|n [IHlen IH]]; [split; [done|lia]|].
  rewrite for_loop_last by lia. split; [by rewrite length_alter|].
  intros j Hj. destruct (decide (j = n)) as [->|Hne].
  - rewrite list_lookup_alter_eq.
    assert (Hn : forall m, m <= n ->
              for_loop 0 m (fun i fr => alter g i fr) l !! n = l !! n).
    { induction m as [|m IHm]; intros Hm; [done|].
      rewrite for_loop_last by lia. rewrite list_lookup_alter_ne by lia. apply IHm. lia. }
    by rewrite Hn.
  - rewrite list_lookup_alter_ne by done. apply IH. lia.
Qed.

End FoldFacts.

Section TabulateInvariant.
Context {D : Type} `{Double D}.
Hypothesis exact : exact_arithmetic.

(** One observation added to the crosstab: its weight is added to the last
    column, in the row found or in a new row. *)
Lemma xtab_add_spec (nv : nat) (xt f : dataset D) (o : list D) (w : D) :
  nvars xt = 2 + nv ->
  Forall (fun r => length r = 2 + nv) (obs xt) ->
  length o = 2 + nv ->
  covers f (vget o nv) ->
  Forall (fun r => covers f (vget r nv)) (obs xt) ->
  nvars (xtab_add xt o nv w).1 = 2 + nv /\
  Forall (fun r => length r = 2 + nv) (obs (xtab_add xt o nv w).1) /\
  length (xtab_add xt o nv w).2 = 2 + nv /\
  sumD (map (fun r => vget r (1 + nv)) (obs (xtab_add xt o nv w).1))
  = sumD (map (fun r => vget r (1 + nv)) (obs xt)) .+ w /\
  Forall (fun r => covers f (vget r nv)) (obs (xtab_add xt o nv w).1).
Proof using exact.
  intros Hnv Hlen Ho Hcov Hcovs. unfold xtab_add.
  pose proof (find_observation_spec xt o (1 + nv)) as Hs.
  destruct (find_observation xt o (1 + nv)) as [i|];
    unfold add_observation, set_obs; cbn [fst snd obs nvars].
  - destruct Hs as (Hi & _). unfold ds_n in Hi.
    destruct (lookup_lt_is_Some_2 (obs xt) i Hi) as [row Hrow].
    assert (Hrowlen : length row = 2 + nv).
    { rewrite Forall_forall in Hlen. apply Hlen. by apply list_elem_of_lookup_2 in Hrow. }
    split; [done|]. split; [|split; [done|split]].
    + apply (shape_mset _ (length (obs xt)) (2 + nv)). by split.
    + rewrite (col_mset_eq _ _ _ _ row) by (done || lia).
      rewrite <- vget_col. apply sumD_insert; [done|]. by rewrite length_map.
    + unfold mset. apply Forall_alter; [done|].
      intros r _ Hr. by rewrite vget_insert_ne by lia.
  - assert (Hrow : map (vget (<[1 + nv := w]> o)) (seq 0 (nvars xt)) = <[1 + nv := w]> o).
    { rewrite Hnv. rewrite <- (map_vget_seq (<[1 + nv := w]> o)) at 2.
      by rewrite length_insert, Ho. }
    rewrite Hrow. split; [done|]. split; [|split; [|split]].
    + apply Forall_app. split; [done|]. apply Forall_singleton. by rewrite length_insert.
    + by rewrite length_insert.
    + rewrite map_app. cbn [map]. rewrite sumD_snoc by done.
      by rewrite vget_insert_eq by lia.
    + apply Forall_app. split; [done|]. apply Forall_singleton.
      by rewrite vget_insert_ne by lia.
Qed.

(** An observation of positive weight adds its weight to the total. *)
Lemma tabulate_row_inv (ds : dataset D) (mdl : model D) (row : list D)
    (st : tab_state D) (total : D) :
  let nv := numiv mdl in
  tab_inv nv (t_freqs st) (t_xtab st) total -> length (t_obs st) = 2 + nv ->
  (obs_weight ds row .> d0) = true ->
  tab_inv nv (t_freqs (tabulate_row ds mdl row st)) (t_xtab (tabulate_row ds mdl row st))
    (total .+ obs_weight ds row) /\
  length (t_obs (tabulate_row ds mdl row st)) = 2 + nv.
Proof using exact.
  intros nv (Hfr & Hnv & Hlen & Hsum & f & Hf & Hf2 & Hcov) Ho Hpos.
  unfold tabulate_row. rewrite Hpos.
  pose proof (tabulate_vars_spec mdl row (obs_weight ds row) (t_freqs st) (t_obs st)
                ltac:(fold nv; lia)) as Hv.
  destruct (tabulate_vars mdl row (obs_weight ds row) (t_freqs st) (t_obs st)) as [fr o].
  cbn [fst snd] in Hv. fold nv in Hv. destruct Hv as (Hfr' & Ho' & Hdv & Hlast).
  rewrite Hf in Hlast. cbn [fmap option_fmap option_map] in Hlast.
  set (f' := freq_add f (vget row (dv mdl)) (obs_weight ds row)) in *.
  pose proof (xtab_add_spec nv (t_xtab st) f' o (obs_weight ds row) Hnv Hlen
                ltac:(lia)) as Hx.
  fold nv. destruct Hx as (Hx1 & Hx2 & Hx3 & Hx4 & Hx5).
  { rewrite Hdv. apply freq_add_covers_new; [done|]. by apply deqb_refl. }
  { eapply Forall_impl; [exact Hcov|]. intros r Hr. by apply freq_add_covers_old. }
  destruct (xtab_add (t_xtab st) o nv (obs_weight ds row)) as [xt' o'].
  cbn [fst snd t_freqs t_xtab t_obs] in *.
  split; [|done]. split; [lia|]. split; [done|]. split; [done|]. split.
  - by rewrite Hx4, Hsum.
  - exists f'. split; [done|]. split; [|done]. unfold f'. by rewrite freq_add_nvars.
Qed.

(** The observations of a list, one after the other. *)
Lemma tabulate_rows_inv (ds : dataset D) (mdl : model D) (l : list (list D)) :
  let nv := numiv mdl in
  let step := fun st row => tabulate_row ds mdl row st in
  forall (st : tab_state D) (total : D),
  tab_inv nv (t_freqs st) (t_xtab st) total -> length (t_obs st) = 2 + nv ->
  tab_inv nv (t_freqs (foldl step st l)) (t_xtab (foldl step st l))
    (total .+ sumD (map (obs_weight ds)
                      (List.filter (fun row => obs_weight ds row .> d0) l))).
Proof using exact.
  intros nv step. induction l as [|row l IH]; intros st total Hinv Ho.
  - cbn [foldl List.filter map]. unfold sumD. cbn [foldr]. by rewrite dadd_0_r.
  - cbn [foldl List.filter]. destruct (obs_weight ds row .> d0) eqn:Hpos.
    + cbn [map]. unfold sumD. cbn [foldr]. fold (sumD (D := D)).
      rewrite dadd_assoc by done.
      destruct (tabulate_row_inv ds mdl row st total Hinv Ho Hpos) as [Hinv' Ho'].
      by apply IH.
    + assert (Hskip : step st row = st).
      { unfold step, tabulate_row. by rewrite Hpos. }
      rewrite Hskip. by apply IH.
Qed.

End TabulateInvariant.

Section TabulateWhole.
Context {D : Type} `{Double D}.

Lemma tabulate_foldl (ds : dataset D) (mdl : model D) (st : tab_state D) :
  for_loop 0 (ds_n ds) (tabulate_obs ds mdl) st
  = foldl (fun st row => tabulate_row ds mdl row st) st (obs ds).
Proof. unfold ds_n, tabulate_obs. apply (for_loop_foldl (tabulate_row ds mdl)). Qed.

(** Observations whose weight is not positive leave the tables as they are. *)
Lemma tabulate_positive (ds : dataset D) (mdl : model D) :
  tabulate ds mdl
  = tabulate (set_obs ds (List.filter (fun row => obs_weight ds row .> d0) (obs ds))) mdl.
Proof.
  unfold tabulate. rewrite !tabulate_foldl.
  set (st0 := {| t_freqs := _; t_xtab := _; t_obs := _ |}).
  set (ds' := set_obs ds _).
  assert (Hrow : forall row st, tabulate_row ds' mdl row st = tabulate_row ds mdl row st) by done.
  assert (Hfold : foldl (fun st row => tabulate_row ds' mdl row st) st0 (obs ds')
                  = foldl (fun st row => tabulate_row ds mdl row st) st0 (obs ds)).
  { unfold ds', set_obs. cbn [obs].
    rewrite <- (foldl_filter (fun st row => tabulate_row ds mdl row st)
                  (fun row => obs_weight ds row .> d0) (obs ds) st0).
    - done.
    - intros row st Hneg. unfold tabulate_row. by rewrite Hneg. }
  by rewrite Hfold.
Qed.

Hypothesis exact : exact_arithmetic.

(** The tables [tabulate] leaves: the last column of the crosstab adds up to
    the weights of the observations of positive weight. *)
Lemma tabulate_totals (ds : dataset D) (mdl : model D) :
  tab_inv (numiv mdl) (freqs (tabulate ds mdl)) (xtab (tabulate ds mdl))
    (sumD (map (obs_weight ds)
             (List.filter (fun row => obs_weight ds row .> d0) (obs ds)))).
Proof using exact.
  unfold tabulate. rewrite tabulate_foldl.
  set (nv := numiv mdl).
  set (st0 := {| t_freqs := _; t_xtab := _; t_obs := _ |}).
  assert (H0 : tab_inv nv (t_freqs st0) (t_xtab st0) d0).
  { unfold st0, tab_inv, add_dataset. cbn [t_freqs t_xtab obs nvars].
    rewrite length_app, length_replicate. cbn [length].
    split; [done|]. split; [done|]. split; [done|]. split; [done|].
    eexists. split.
    - rewrite lookup_app_r by (rewrite length_replicate; lia).
      rewrite length_replicate, Nat.sub_diag. done.
    - done. }
  pose proof (tabulate_rows_inv exact ds mdl (obs ds) st0 d0 H0) as Hinv.
  cbv zeta in Hinv. fold nv in Hinv.
  specialize (Hinv ltac:(unfold st0; cbn [t_obs]; by rewrite length_replicate)).
  rewrite dadd_0_l in Hinv by done.
  set (st := foldl _ st0 (obs ds)) in *.
  destruct Hinv as (Hfr & Hnv & Hlen & Hsum & f & Hf & Hf2 & Hcov).
  unfold set_tables, sort_dataset, set_obs. cbn [freqs xtab].
  destruct (for_loop_alter (fun f0 : dataset D =>
              {| handle := handle f0; nvars := nvars f0; varnames := varnames f0;
                 obs := qsort (compare_obs 1) (obs f0); weight := weight f0 |})
              (1 + nv) (t_freqs st)) as [Hslen Hsget].
  unfold tab_inv. cbn [obs nvars].
  split; [by rewrite Hslen|]. split; [done|]. split; [|split].
  - by rewrite qsort_perm.
  - rewrite <- Hsum. apply sumD_perm; [done|].
    apply Permutation_map. apply qsort_perm.
  - eexists. split; [|split].
    + rewrite Hsget by lia. rewrite Hf. done.
    + done.
    + rewrite (qsort_perm (compare_obs (1 + nv)) (obs (t_xtab st))).
      eapply Forall_impl; [exact Hcov|].
      intros r (e & He & Hv). exists e. split; [|done].
      cbn [obs]. apply list_elem_of_In.
      apply (Permutation_in _ (Permutation_sym (qsort_perm _ _))).
      by apply list_elem_of_In.
Qed.

End TabulateWhole.

Section TabulateNonEmpty.
Context {D : Type} `{Double D}.

Lemma xtab_add_length (xt : dataset D) (o : list D) (nv : nat) (w : D) :
  length (obs xt) <= length (obs (xtab_add xt o nv w).1) /\
  1 <= length (obs (xtab_add xt o nv w).1).
Proof.
  unfold xtab_add. pose proof (find_observation_spec xt o (1 + nv)) as Hs.
  destruct (find_observation xt o (1 + nv)) as [i|];
    unfold add_observation, set_obs; cbn [fst obs].
  - destruct Hs as (Hi & _). unfold ds_n in Hi. rewrite length_mset. lia.
  - rewrite length_app. cbn [length]. lia.
Qed.

Lemma tabulate_row_length (ds : dataset D) (mdl : model D) (row : list D)
    (st : tab_state D) :
  length (obs (t_xtab st)) <= length (obs (t_xtab (tabulate_row ds mdl row st))) /\
  ((obs_weight ds row .> d0) = true ->
   1 <= length (obs (t_xtab (tabulate_row ds mdl row st)))).
Proof.
  unfold tabulate_row. destruct (obs_weight ds row .> d0); [|split; [lia|done]].
  destruct (tabulate_vars mdl row (obs_weight ds row) (t_freqs st) (t_obs st)) as [fr o].
  pose proof (xtab_add_length (t_xtab st) o (numiv mdl) (obs_weight ds row)) as Hx.
  destruct (xtab_add (t_xtab st) o (numiv mdl) (obs_weight ds row)) as [xt' o'].
  cbn [fst t_xtab] in *. split; [lia|]. intros _. lia.
Qed.

Lemma tabulate_rows_length (ds : dataset D) (mdl : model D) (l : list (list D))
    (st : tab_state D) :
  let st' := foldl (fun st row => tabulate_row ds mdl row st) st l in
  length (obs (t_xtab st)) <= length (obs (t_xtab st')) /\
  ((exists row, row ∈ l /\ (obs_weight ds row .> d0) = true) ->
   1 <= length (obs (t_xtab st'))).
Proof.
  revert st. induction l as [|a l IH]; intros st; cbn [foldl].
  - split; [lia|]. intros (row & Hrow & _). by apply elem_of_nil in Hrow.
  - destruct (IH (tabulate_row ds mdl a st)) as [Hmono Hpos].
    destruct (tabulate_row_length ds mdl a st) as [Hmono1 Hpos1].
    split; [lia|]. intros (row & Hrow & Hw).
    apply elem_of_cons in Hrow as [->|Hrow].
    + specialize (Hpos1 Hw). lia.
    + apply Hpos. by exists row.
Qed.

(** An observation of positive weight gives the crosstab a row. *)
Lemma tabulate_nonempty (ds : dataset D) (mdl : model D) :
  (exists row, row ∈ obs ds /\ (obs_weight ds row .> d0) = true) ->
  1 <= length (obs (xtab (tabulate ds mdl))).
Proof.
  intros Hpos. unfold tabulate. rewrite tabulate_foldl.
  unfold set_tables, sort_dataset, set_obs. cbn [xtab obs].
  rewrite (Permutation_length (qsort_perm _ _)).
  by apply tabulate_rows_length.
Qed.

End TabulateNonEmpty.

Section DesignTotals.
Context {D : Type} `{Double D}.

(** The column of Y found for a row is one of the [J] columns when the
    response of the row has an entry in the frequency table. *)
Lemma response_column_lt (mdl : model D) (xt : list (list D)) (xtabcols J i : nat) :
  (exists j, j < J /\
     (mget xt i (xtabcols - 2) .== mget (freq_obs mdl (numiv mdl)) j 0) = true) ->
  response_column mdl xt xtabcols J i < J.
Proof.
  intros (j & Hj & Heq). unfold response_column.
  pose proof (for_ret_search
                (fun j => mget xt i (xtabcols - 2) .== mget (freq_obs mdl (numiv mdl)) j 0)
                (fun j => j) 0 J ltac:(lia)) as Hs.
  match type of Hs with match ?e with _ => _ end => destruct e as [[]|k] end.
  - rewrite Hs in Heq by lia. done.
  - destruct Hs as (k' & Hk' & -> & _). lia.
Qed.

Hypothesis exact : exact_arithmetic.

Lemma sumD_replicate_0 (n : nat) : sumD (replicate n d0) = d0.
Proof using exact.
  induction n as [|n IH]; [done|].
  unfold sumD in *. cbn [replicate foldr]. rewrite IH. by apply dadd_0_l.
Qed.

(** Step 2: M is the sum of the last column of the crosstab. *)
Lemma populations_M (xt : list (list D)) (xtabcols : nat) :
  1 <= length xt ->
  p_M (populations xt xtabcols) = sumD (map (fun r => vget r (xtabcols - 1)) xt).
Proof using exact.
  intros Hlen. rewrite <- col_seq. rewrite <- (for_loop_sumD exact) by done.
  unfold populations.
  loop_inv (fun i (st : pop_state D) =>
    p_M st = for_loop 1 i (fun i M => M .+ mget xt i (xtabcols - 1))
               (mget xt 0 (xtabcols - 1))).
  apply Hinv; [lia|done|].
  intros i st Hi HM. cbn [p_M]. rewrite for_loop_last by lia. by rewrite HM.
Qed.

(** Step 5: the count of each row of the crosstab is added to [n], at the
    population of the row. *)
Lemma design_rows_n (mdl : model D) (dummy : bool) (xt : list (list D))
    (xtabcols J N K : nat) (popindex : list nat) :
  (forall i, i < length xt -> default 0 (popindex !! i) < N) ->
  (forall i, i < length xt -> response_column mdl xt xtabcols J i < J) ->
  sumD (g_n (design_rows mdl dummy xt xtabcols J N K popindex))
  = sumD (map (fun r => vget r (xtabcols - 1)) xt).
Proof using exact.
  intros Hpop Hresp. rewrite <- col_seq. unfold design_rows.
  loop_inv (fun i (st : design_state D) =>
    length (g_n st) = N /\ shape (g_Y st) N J /\
    sumD (g_n st) = sumD (map (fun i => mget xt i (xtabcols - 1)) (seq 0 i)) /\
    (i = 0 /\ g_lastpop st = (-1)%Z \/ g_lastpop st = Z.of_nat (g_xr st))).
  destruct Hinv as (_ & _ & Hsum & _); [lia| | |done].
  - cbn [g_n g_Y g_lastpop g_xr]. rewrite length_replicate.
    split; [done|]. split; [apply shape_replicate|].
    split; [by apply sumD_replicate_0|]. by left.
  - intros i st Hi (Hn & HY & Hsum & Hlast).
    unfold design_row.
    set (pop := default 0 (popindex !! i)).
    assert (Hpop' : pop < N) by (apply Hpop; lia).
    set (j := response_column mdl xt xtabcols J i).
    assert (Hj : j < J) by (apply Hresp; lia).
    assert (Hgoal : forall (xr xc : nat) (X : list (list D)), xr = pop ->
      let Y := mset (g_Y st) xr j (mget xt i (xtabcols - 1)) in
      let n := <[xr := vget (g_n st) xr .+ mget Y xr j]> (g_n st) in
      length n = N /\ shape Y N J /\
      sumD n = sumD (map (fun i => mget xt i (xtabcols - 1)) (seq 0 (Datatypes.S i)))).
    { intros xr xc X -> Y n0. subst Y n0.
      rewrite length_insert. split; [done|]. split; [by apply shape_mset|].
      rewrite (mget_mset_eq _ N J) by done.
      rewrite sumD_insert by (done || lia).
      rewrite seq_S, map_app. cbn [map]. rewrite sumD_snoc by done.
      by rewrite Hsum. }
    destruct (negb (Z.of_nat pop =? g_lastpop st)%Z) eqn:Hnew.
    + destruct (encode_row mdl dummy xt xtabcols i pop (g_X st)) as [X xc].
      cbn [g_n g_Y g_lastpop g_xr].
      destruct (Hgoal pop xc X eq_refl) as (H1 & H2 & H3).
      split; [done|]. split; [done|]. split; [done|]. by right.
    + cbn [g_n g_Y g_lastpop g_xr].
      apply negb_false_iff, Z.eqb_eq in Hnew.
      assert (Hxr : g_xr st = pop) by (destruct Hlast as [[_ Hl]|Hl]; lia).
      destruct (Hgoal (g_xr st) (g_xc st) (g_X st) Hxr) as (H1 & H2 & H3).
      split; [done|]. split; [done|]. split; [done|]. by right.
Qed.

End DesignTotals.


Section ExactTotals.
#[local] Existing Instance exact_Z.

(** The integers are such an arithmetic. *)
Lemma exact_Z_exact : exact_arithmetic (D := Z).
Proof.
  unfold exact_arithmetic. cbn [dadd deqb d0 d_of_int exact_Z].
  split; [intros; lia|]. split; [intros; lia|]. split; [intros; lia|].
  intros a. apply Z.eqb_refl.
Qed.


End ExactTotals.


(* ================================================================== *)
(** * Setting and reading options *)

Lemma strncmp_refl (s : string) (n : nat) : strncmp s s n = 0%Z.
Proof.
  revert s. induction n as [|n IH]; intros s; [by destruct s|].
  destruct s as [|c s]; [done|]. cbn [strncmp]. rewrite Ascii.eqb_refl.
  destruct (is_nul c); [done|]. apply IH.
Qed.

Section OptionFacts.
Variables (opts : options) (k : string).

Lemma option_search {R : Type} (res : nat -> string -> R) :
  match for_ret 0 (length opts) (fun i (_ : unit) =>
          match opts !! i with
          | Some (ki, vi) => if (strncmp k ki (strlen ki) =? 0)%Z then inr (res i vi) else inl tt
          | None => inl tt
          end) tt with
  | inl _ => no_match opts k
  | inr r => exists i ki v, r = res i v /\ first_match opts k i ki v
  end.
Proof.
  pose proof (for_ret_ind
    (fun i (_ : unit) => forall i' kv, i' < i -> opts !! i' = Some kv ->
                          option_hit k kv.1 = false)
    (fun r => exists i ki v, r = res i v /\ first_match opts k i ki v)
    0 (length opts)
    (fun i (_ : unit) =>
       match opts !! i with
       | Some (ki, vi) => if (strncmp k ki (strlen ki) =? 0)%Z then inr (res i vi) else inl tt
       | None => inl tt
       end) tt) as Hloop.
  specialize (Hloop (Nat.le_0_l _)).
  assert (H0 : forall i' (kv : string * string), i' < 0 -> opts !! i' = Some kv ->
            option_hit k kv.1 = false) by (intros; lia).
  specialize (Hloop H0).
  assert (Hstep : forall i (s : unit), 0 <= i < length opts ->
            (forall i' kv, i' < i -> opts !! i' = Some kv ->
               option_hit k kv.1 = false) ->
            match
              match opts !! i with
              | Some (ki, vi) =>
                  if (strncmp k ki (strlen ki) =? 0)%Z then inr (res i vi) else inl tt
              | None => inl tt
              end
            with
            | inl _ => forall i' kv, i' < Datatypes.S i -> opts !! i' = Some kv ->
                         option_hit k kv.1 = false
            | inr r => exists i ki v, r = res i v /\ first_match opts k i ki v
            end).
  { intros j [] Hj Hprev. destruct (opts !! j) as [[kj vj]|] eqn:Hlk.
    - destruct (strncmp k kj (strlen kj) =? 0)%Z eqn:Hp.
      + exists j, kj, vj. by repeat split.
      + intros i' kv' Hi' Hlk'. destruct (decide (i' = j)) as [->|].
        * rewrite Hlk in Hlk'. by injection Hlk' as <-.
        * apply (Hprev i'); [lia|done].
    - apply lookup_ge_None in Hlk. lia. }
  specialize (Hloop Hstep).
  match type of Hloop with match ?e with _ => _ end => destruct e as [[]|r] end; [|done].
  intros kv Hin. apply list_elem_of_lookup in Hin as [i Hi].
  apply (Hloop i); [by apply lookup_lt_Some in Hi|done].
Qed.

End OptionFacts.

Lemma first_match_unique (opts : options) (k : string) (i j : nat) (ki kj v w : string) :
  first_match opts k i ki v -> first_match opts k j kj w -> i = j /\ ki = kj /\ v = w.
Proof.
  intros (Hi & Hhi & Hfi) (Hj & Hhj & Hfj).
  destruct (Nat.lt_trichotomy i j) as [Hlt|[->|Hgt]].
  - specialize (Hfj i _ Hlt Hi). cbn [fst] in Hfj. congruence.
  - rewrite Hi in Hj. by injection Hj as -> ->.
  - specialize (Hfi j _ Hgt Hj). cbn [fst] in Hfi. congruence.
Qed.

Lemma get_option_match (opts : options) (k : string) (i : nat) (ki v : string) :
  first_match opts k i ki v -> get_option opts k = Some v.
Proof.
  intros Hm. unfold get_option.
  pose proof (option_search opts k (fun _ v => v)) as Hs. cbv beta in Hs.
  match type of Hs with match ?e with _ => _ end => destruct e as [[]|r] end.
  - destruct Hm as (Hi & Hh & _).
    specialize (Hs _ (list_elem_of_lookup_2 _ _ _ Hi)). cbn [fst] in Hs. congruence.
  - destruct Hs as (j & kj & w & -> & Hj).
    by destruct (first_match_unique _ _ _ _ _ _ _ _ Hm Hj) as (_ & _ & ->).
Qed.

Lemma get_option_no_match (opts : options) (k : string) :
  no_match opts k -> get_option opts k = None.
Proof.
  intros Hn. unfold get_option.
  pose proof (option_search opts k (fun _ v => v)) as Hs. cbv beta in Hs.
  match type of Hs with match ?e with _ => _ end => destruct e as [[]|r] end; [done|].
  destruct Hs as (j & kj & w & -> & Hj & Hh & _).
  specialize (Hn _ (list_elem_of_lookup_2 _ _ _ Hj)). cbn [fst] in Hn. congruence.
Qed.

(** What [set_option] does to the table. *)
Lemma set_option_spec (opts : options) (k v : string) :
  (exists i ki v0, first_match opts k i ki v0 /\
     set_option opts k v = <[i := (ki, v)]> opts) \/
  (no_match opts k /\ set_option opts k v = opts ++ [(k, v)]).
Proof.
  unfold set_option.
  pose proof (option_search opts k (fun i _ => i)) as Hs. cbv beta in Hs.
  match type of Hs with match ?e with _ => _ end => destruct e as [[]|r] end.
  - by right.
  - left. destruct Hs as (i & ki & v0 & -> & Hm). exists i, ki, v0. split; [done|].
    destruct Hm as (Hi & _). apply list_eq. intros j.
    destruct (decide (j = i)) as [->|Hne].
    + rewrite list_lookup_alter_eq, Hi.
      rewrite list_lookup_insert_eq by (by apply lookup_lt_Some in Hi). done.
    + rewrite list_lookup_alter_ne by done. by rewrite list_lookup_insert_ne.
Qed.

Lemma first_match_insert (opts : options) (k : string) (i : nat) (ki v0 v : string) :
  first_match opts k i ki v0 -> first_match (<[i := (ki, v)]> opts) k i ki v.
Proof.
  intros (Hi & Hh & Hf). split; [|split; [done|]].
  - apply list_lookup_insert_eq. by apply lookup_lt_Some in Hi.
  - intros i' kv Hi' Hlk. rewrite list_lookup_insert_ne in Hlk by lia. by apply (Hf i').
Qed.

Lemma first_match_append (opts : options) (k v : string) :
  no_match opts k -> first_match (opts ++ [(k, v)]) k (length opts) k v.
Proof.
  intros Hn. split; [|split].
  - by apply list_lookup_middle.
  - unfold option_hit. by rewrite strncmp_refl.
  - intros i' kv Hi' Hlk. rewrite lookup_app_l in Hlk by done.
    apply Hn. by apply list_elem_of_lookup_2 in Hlk.
Qed.

Lemma option_hit_prefix (opts : options) (k : string) :
  Forall (fun kv => cstring kv.1 = true) opts -> cstring k = true ->
  forall kv, kv ∈ opts -> option_hit k kv.1 = String.prefix kv.1 k.
Proof.
  intros Hopts Hk kv Hin. rewrite Forall_forall in Hopts.
  apply strncmp_prefix; [by apply Hopts|done].
Qed.

(** A value that has been set is the value read for the same key, whatever
    the table held. *)
Theorem set_option_get_option (opts : options) (k v : string) :
  get_option (set_option opts k v) k = Some v.
Proof.
  destruct (set_option_spec opts k v) as [(i & ki & v0 & Hm & ->)|[Hn ->]].
  - apply (get_option_match _ _ i ki). by apply (first_match_insert _ _ _ _ v0).
  - apply (get_option_match _ _ (length opts) k). by apply first_match_append.
Qed.

(** [set_option (k, v)] replaces the value of the first stored option whose
    key is a prefix of [k] and leaves the key of that option as it is; it
    stores [k] itself, after the other options, only when no stored key is a
    prefix of [k]. *)
Theorem set_option_prefix (opts : options) (k v : string) :
  Forall (fun kv => cstring kv.1 = true) opts ->
  cstring k = true ->
  (forall i ki v0,
     opts !! i = Some (ki, v0) -> String.prefix ki k = true ->
     (forall i' kv, i' < i -> opts !! i' = Some kv -> String.prefix kv.1 k = false) ->
     set_option opts k v = <[i := (ki, v)]> opts) /\
  ((forall kv, kv ∈ opts -> String.prefix kv.1 k = false) ->
   set_option opts k v = opts ++ [(k, v)]).
Proof.
  intros Hopts Hk. pose proof (option_hit_prefix opts k Hopts Hk) as Hhit. split.
  - intros i ki v0 Hi Hp Hfirst.
    assert (Hm : first_match opts k i ki v0).
    { split; [done|]. split.
      - pose proof (Hhit (ki, v0) (list_elem_of_lookup_2 _ _ _ Hi)) as Hx.
        cbn [fst] in Hx. by rewrite Hx.
      - intros i' kv Hi' Hlk. rewrite Hhit by (by apply list_elem_of_lookup_2 in Hlk).
        by apply (Hfirst i'). }
    destruct (set_option_spec opts k v) as [(j & kj & w & Hm' & ->)|[Hn _]].
    + by destruct (first_match_unique _ _ _ _ _ _ _ _ Hm Hm') as (-> & -> & _).
    + destruct Hm as (Hlk & Hh & _).
      specialize (Hn _ (list_elem_of_lookup_2 _ _ _ Hlk)). cbn [fst] in Hn. congruence.
  - intros Hnone.
    destruct (set_option_spec opts k v) as [(j & kj & w & Hm' & _)|[_ ->]]; [|done].
    destruct Hm' as (Hlk & Hh & _). apply list_elem_of_lookup_2 in Hlk.
    pose proof (Hhit _ Hlk) as Hx. pose proof (Hnone _ Hlk) as Hy.
    cbn [fst] in Hx, Hy. congruence.
Qed.

(** The option "params" is stored; setting "paramsize" changes its value and
    stores no new key. *)
Lemma set_option_prefix_witness :
  set_option init_options "paramsize" "9" = [("params", "9")]%string.
Proof.
  destruct (set_option_prefix init_options "paramsize" "9") as [Hset _].
  - repeat constructor.
  - reflexivity.
  - apply (Hset 0 "params"%string "centerpoint"%string).
    + reflexivity.
    + reflexivity.
    + intros i' kv Hi'. lia.
Defined.

(** Setting [k] leaves what is read for another key [k'] as it was, where
    [k] is not a prefix of [k'] and no stored key is a prefix of both. *)
Theorem set_option_other_key (opts : options) (k v k' : string) :
  Forall (fun kv => cstring kv.1 = true) opts ->
  cstring k = true -> cstring k' = true ->
  String.prefix k k' = false ->
  (forall kv, kv ∈ opts -> String.prefix kv.1 k = true -> String.prefix kv.1 k' = false) ->
  get_option (set_option opts k v) k' = get_option opts k'.
Proof.
  intros Hopts Hk Hk' Hkk' Hsep.
  pose proof (option_hit_prefix opts k Hopts Hk) as Hhit.
  pose proof (option_hit_prefix opts k' Hopts Hk') as Hhit'.
  assert (Hnew : option_hit k' k = false).
  { unfold option_hit. by rewrite strncmp_prefix. }
  assert (Hget : forall opts',
            (exists j kj w, first_match opts k' j kj w /\ first_match opts' k' j kj w) \/
            (no_match opts k' /\ no_match opts' k') ->
            get_option opts' k' = get_option opts k').
  { intros opts' [(j & kj & w & Hm & Hm')|[Hn Hn']].
    - by rewrite (get_option_match _ _ _ _ _ Hm), (get_option_match _ _ _ _ _ Hm').
    - by rewrite (get_option_no_match _ _ Hn), (get_option_no_match _ _ Hn'). }
  apply Hget.
  pose proof (option_search opts k' (fun i _ => i)) as Hs. cbv beta in Hs.
  destruct (set_option_spec opts k v) as [(i & ki & v0 & Hm & ->)|[Hn ->]].
  - destruct Hm as (Hi & Hh & _).
    pose proof (list_elem_of_lookup_2 _ _ _ Hi) as Hin.
    assert (Hki : option_hit k' ki = false).
    { pose proof (Hhit' _ Hin) as Hx. pose proof (Hhit _ Hin) as Hy.
      pose proof (Hsep _ Hin) as Hz. cbn [fst] in Hx, Hy, Hz.
      rewrite Hx. apply Hz. by rewrite <- Hy. }
    match type of Hs with match ?e with _ => _ end => destruct e as [[]|r] end.
    + right. split; [done|]. intros kv Hkv.
      apply list_elem_of_lookup in Hkv as [j Hj].
      destruct (decide (j = i)) as [->|Hne].
      * rewrite list_lookup_insert_eq in Hj by (by apply lookup_lt_Some in Hi).
        by injection Hj as <-.
      * rewrite list_lookup_insert_ne in Hj by done.
        apply Hs. by apply list_elem_of_lookup_2 in Hj.
    + left. destruct Hs as (j & kj & w & _ & Hj & Hhj & Hfj).
      exists j, kj, w. split; [done|].
      assert (Hne : i <> j).
      { intros ->. rewrite Hi in Hj. injection Hj as -> ->. congruence. }
      split; [by rewrite list_lookup_insert_ne|]. split; [done|].
      intros i' kv Hi' Hlk. destruct (decide (i' = i)) as [->|Hne'].
      * rewrite list_lookup_insert_eq in Hlk by (by apply lookup_lt_Some in Hi).
        by injection Hlk as <-.
      * rewrite list_lookup_insert_ne in Hlk by done. by apply (Hfj i').
  - match type of Hs with match ?e with _ => _ end => destruct e as [[]|r] end.
    + right. split; [done|]. intros kv Hkv.
      apply elem_of_app in Hkv as [Hkv|Hkv]; [by apply Hs|].
      apply list_elem_of_singleton in Hkv as ->. done.
    + left. destruct Hs as (j & kj & w & _ & Hj & Hhj & Hfj).
      exists j, kj, w. split; [done|].
      pose proof (lookup_lt_Some _ _ _ Hj) as Hlt.
      split; [by rewrite lookup_app_l|]. split; [done|].
      intros i' kv Hi' Hlk. rewrite lookup_app_l in Hlk by lia. by apply (Hfj i').
Qed.

(** With "params" stored, setting "debug" leaves "params" as it is. *)
Lemma set_option_other_key_witness :
  get_option (set_option init_options "debug" "1") "params" = Some "centerpoint"%string.
Proof.
  rewrite (set_option_other_key init_options "debug" "1" "params").
  - reflexivity.
  - repeat constructor.
  - reflexivity.
  - reflexivity.
  - reflexivity.
  - intros kv Hkv. apply list_elem_of_singleton in Hkv as ->. done.
Defined.

(* ================================================================== *)
(** * Names of variables *)

Lemma strncmp_eq (a b : string) (n : nat) :
  cstring a = true -> cstring b = true ->
  String.length a < n ->
  strncmp a b n = 0%Z <-> a = b.
Proof.
  revert b n. induction a as [|c a IH]; intros b n Ha Hb Hn.
  - destruct n as [|n]; [simpl in Hn; lia|].
    destruct b as [|c2 b]; [done|]. cbn [strncmp].
    simpl in Hb. apply andb_true_iff in Hb as [Hc2 _]. apply negb_true_iff in Hc2.
    pose proof (uchar_nul c2 Hc2). split; [lia|done].
  - destruct n as [|n]; [simpl in Hn; lia|].
    simpl in Ha. apply andb_true_iff in Ha as [Hc Ha]. apply negb_true_iff in Hc.
    destruct b as [|c2 b]; cbn [strncmp].
    + pose proof (uchar_nul c Hc). split; [lia|done].
    + simpl in Hb. apply andb_true_iff in Hb as [Hc2 Hb].
      destruct (Ascii.eqb c c2) eqn:Heq.
      * apply Ascii.eqb_eq in Heq as <-. rewrite Hc.
        rewrite IH by (done || simpl in Hn; lia).
        split; [by intros ->|by intros [= ->]].
      * pose proof (uchar_inj c c2 Heq). split; [lia|].
        intros [= -> _]. by rewrite Ascii.eqb_refl in Heq.
Qed.

(** [strcmp] is 0 of equal strings only. *)
Lemma strcmp_eq (a b : string) :
  cstring a = true -> cstring b = true -> (strcmp a b =? 0)%Z = true <-> a = b.
Proof.
  intros Ha Hb. unfold strcmp. rewrite Z.eqb_eq. apply strncmp_eq; [done|done|lia].
Qed.

Section VarnameFacts.
Context {D : Type} `{Double D}.

Lemma find_varname_search (ds : dataset D) (varname : string) :
  match find_varname ds varname with
  | Some i =>
      i < nvars ds /\
      (strcmp varname (default EmptyString (varnames ds !! i)) =? 0)%Z = true /\
      forall i', i' < i ->
        (strcmp varname (default EmptyString (varnames ds !! i')) =? 0)%Z = false
  | None =>
      forall i, i < nvars ds ->
        (strcmp varname (default EmptyString (varnames ds !! i)) =? 0)%Z = false
  end.
Proof.
  unfold find_varname.
  pose proof (for_ret_search
    (fun i => (strcmp varname (default EmptyString (varnames ds !! i)) =? 0)%Z)
    (fun i => i) 0 (nvars ds) (Nat.le_0_l _)) as Hs.
  match type of Hs with match ?e with _ => _ end => destruct e as [[]|r] end.
  - intros i Hi. apply Hs. lia.
  - destruct Hs as (i & Hi & -> & Ht & Hfirst). split; [lia|]. split; [done|].
    intros i' Hi'. apply Hfirst. lia.
Qed.

(** [find_varname] answers the first variable whose name is [varname], the
    whole name, and -1 when the dataset has no variable of that name. *)
Theorem find_varname_exact (ds : dataset D) (varname : string) :
  length (varnames ds) = nvars ds ->
  Forall (fun s => cstring s = true) (varnames ds) ->
  cstring varname = true ->
  match find_varname ds varname with
  | Some i =>
      varnames ds !! i = Some varname /\
      forall i', i' < i -> varnames ds !! i' <> Some varname
  | None => varname ∉ varnames ds
  end.
Proof.
  intros Hlen Hnames Hv. pose proof (find_varname_search ds varname) as Hs.
  assert (Hat : forall i s, varnames ds !! i = Some s ->
            (strcmp varname (default EmptyString (varnames ds !! i)) =? 0)%Z = true
            <-> s = varname).
  { intros i s Hi. rewrite Hi. cbn [default]. rewrite strcmp_eq; [done|done|].
    rewrite Forall_forall in Hnames. apply Hnames. by apply list_elem_of_lookup_2 in Hi. }
  destruct (find_varname ds varname) as [i|].
  - destruct Hs as (Hi & Ht & Hfirst).
    destruct (lookup_lt_is_Some_2 (varnames ds) i ltac:(lia)) as [s Hs].
    apply (Hat i s Hs) in Ht as ->. split; [done|].
    intros i' Hi' Hlk. specialize (Hfirst i' Hi').
    pose proof (proj2 (Hat i' varname Hlk) eq_refl). congruence.
  - intros Hin. apply list_elem_of_lookup in Hin as [i Hi].
    specialize (Hs i ltac:(apply lookup_lt_Some in Hi; lia)).
    pose proof (proj2 (Hat i varname Hi) eq_refl). congruence.
Qed.

End VarnameFacts.

(** In a dataset with the variables x and xy, the name xy is the second
    variable, although x is a prefix of it. *)
Lemma find_varname_exact_witness :
  find_varname (D := float) (add_dataset "d" 2 ["x"; "xy"]%string) "xy" = Some 1.
Proof.
  pose proof (find_varname_exact (D := float)
                (add_dataset "d" 2 ["x"; "xy"]%string) "xy"%string
                eq_refl ltac:(repeat constructor) eq_refl) as Hf.
  destruct (find_varname (D := float) (add_dataset "d" 2 ["x"; "xy"]%string) "xy")
    as [i|] eqn:Hi.
  - destruct Hf as [Hlk _]. destruct i as [|[|i]]; [done|done|done].
  - exfalso. apply Hf. apply (list_elem_of_lookup_2 _ 1). reflexivity.
Defined.

(* ================================================================== *)
(** * Adding variables to a model *)

Section ModelFacts.
Context {D : Type} `{Double D}.

(** The search of the main effects for the variable at [varidx]. *)
Lemma main_effect_search (mdl : model D) (varidx : nat) :
  match for_ret 0 (numiv mdl) (fun i (_ : unit) =>
          if (varidx =? default 0 (iv mdl !! i))%nat then inr i else inl tt) tt with
  | inl _ => varidx ∉ iv mdl
  | inr i => iv mdl !! i = Some varidx /\ forall i', i' < i -> iv mdl !! i' <> Some varidx
  end.
Proof.
  pose proof (for_ret_search (fun i => (varidx =? default 0 (iv mdl !! i))%nat) (fun i => i)
                0 (numiv mdl) (Nat.le_0_l _)) as Hs.
  match type of Hs with match ?e with _ => _ end => destruct e as [[]|r] end.
  - intros Hin. apply list_elem_of_lookup in Hin as [i Hi].
    specialize (Hs i ltac:(apply lookup_lt_Some in Hi; unfold numiv; lia)).
    rewrite Hi in Hs. simpl in Hs. apply Nat.eqb_neq in Hs. done.
  - destruct Hs as (i & Hi & -> & Ht & Hfirst).
    destruct (lookup_lt_is_Some_2 (iv mdl) i ltac:(unfold numiv in Hi; lia)) as [x Hx].
    rewrite Hx in Ht. simpl in Ht. apply Nat.eqb_eq in Ht. subst x.
    split; [done|]. intros i' Hi' Hlk. specialize (Hfirst i' ltac:(lia)).
    rewrite Hlk in Hfirst. simpl in Hfirst. apply Nat.eqb_neq in Hfirst. done.
Qed.

(** The ways a call of [add_model_variable] ends. *)
Lemma add_model_variable_cases (mdl : model D) (ds : dataset D) (varname : string)
    (vartype g : Z) :
  let r := add_model_variable mdl ds varname vartype g in
  (* refused *)
  ((~ (0 <= vartype <= 4)%Z \/ find_varname ds varname = None) /\
   amv_ret r = 1%Z /\ amv_model r = mdl) \/
  (exists varidx, (0 <= vartype <= 4)%Z /\ find_varname ds varname = Some varidx /\
     amv_ret r = 0%Z /\
     ((* the dependent variable *)
      (vartype = DEPENDENT /\ amv_model r = set_dv mdl varname varidx) \/
      (* a main effect *)
      (vartype <> DEPENDENT /\
       exists m1 ividx,
         ((exists i, iv mdl !! i = Some varidx /\
                     (forall i', i' < i -> iv mdl !! i' <> Some varidx) /\
                     ividx = Z.of_nat i /\ m1 = mdl) \/
          ((varidx ∉ iv mdl) /\ ividx = g /\
           m1 = set_main mdl (ivnames mdl ++ [varname]) (iv mdl ++ [varidx])
                  (direct mdl ++ [if (vartype =? DIRECT)%Z then 1%Z else 0%Z]))) /\
         ((* MAIN or DIRECT *)
          ((vartype = MAIN \/ vartype = DIRECT) /\ amv_model r = m1) \/
          (vartype = NEW_INTERACTION /\
           amv_model r = set_ints m1 (ints m1 ++ [[ividx]]) (intnames m1 ++ [varname])) \/
          (vartype = INTERACTION /\
           let last := numints m1 - 1 in
           let terms := default [] (ints m1 !! last) in
           ((ividx ∈ terms /\ amv_model r = m1) \/
            ((ividx ∉ terms) /\
             amv_model r
             = set_ints m1 (alter (fun t => t ++ [ividx]) last (ints m1))
                 (alter (fun nm => nm ++ "*" ++ varname)%string last (intnames m1))))))))).
Proof.
  intros r. subst r. unfold add_model_variable.
  destruct ((0 <=? vartype)%Z && (vartype <=? 4)%Z) eqn:Hty; cbn [negb].
  2:{ left. split; [|done]. left. apply andb_false_iff in Hty as [Hty|Hty]; lia. }
  apply andb_true_iff in Hty as [Hlo Hhi].
  assert (Hrange : (0 <= vartype <= 4)%Z) by lia.
  destruct (find_varname ds varname) as [varidx|] eqn:Hfind.
  2:{ left. split; [by right|done]. }
  right. exists varidx. split; [done|]. split; [done|].
  destruct (vartype =? DEPENDENT)%Z eqn:Hdep.
  { apply Z.eqb_eq in Hdep. split; [done|]. by left. }
  apply Z.eqb_neq in Hdep.
  pose proof (main_effect_search mdl varidx) as Hs.
  destruct (for_ret 0 (numiv mdl) _ tt) as [[]|i].
  - (* not found *)
    cbn [negb andb].
    set (m1 := set_main mdl _ _ _).
    assert (Hvt : vartype = MAIN \/ vartype = DIRECT \/ vartype = NEW_INTERACTION
                  \/ vartype = INTERACTION).
    { unfold DEPENDENT, MAIN, DIRECT, NEW_INTERACTION, INTERACTION in *. lia. }
    destruct Hvt as [-> | [-> | [-> | ->]]]; cbn [Z.eqb Pos.eqb orb NEW_INTERACTION INTERACTION
                                              MAIN DIRECT DEPENDENT].
    + split; [done|]. right. split; [done|]. exists m1, g.
      split; [right; by repeat split|]. left. by split; [left|].
    + split; [done|]. right. split; [done|]. exists m1, g.
      split; [right; by repeat split|]. left. by split; [right|].
    + split; [done|]. right. split; [done|]. exists m1, g.
      split; [right; by repeat split|]. right. left. by split.
    + set (terms := default [] (ints m1 !! (numints m1 - 1))).
      pose proof (for_ret_search
        (fun i => (g =? default 0%Z (terms !! i))%Z)
        (fun _ => tt) 0 (length terms) (Nat.le_0_l _)) as Ht.
      match type of Ht with match ?e with _ => _ end => destruct e as [[]|[]] end.
      * split; [done|]. right. split; [done|]. exists m1, g.
        split; [right; by repeat split|]. right. right. split; [done|].
        right. split; [|done]. intros Hin. fold terms in Hin.
        apply list_elem_of_lookup in Hin as [j Hj].
        specialize (Ht j ltac:(apply lookup_lt_Some in Hj; lia)).
        rewrite Hj in Ht. simpl in Ht. apply Z.eqb_neq in Ht. done.
      * split; [done|]. right. split; [done|]. exists m1, g.
        split; [right; by repeat split|]. right. right. split; [done|].
        left. split; [|done]. destruct Ht as (j & Hj & _ & Ht & _).
        destruct (lookup_lt_is_Some_2 terms j ltac:(lia)) as [x Hx].
        rewrite Hx in Ht. simpl in Ht. apply Z.eqb_eq in Ht. subst x.
        by apply list_elem_of_lookup_2 in Hx.
  - (* found at i *)
    destruct Hs as [Hi Hfirst].
    assert (Hvt : vartype = MAIN \/ vartype = DIRECT \/ vartype = NEW_INTERACTION
                  \/ vartype = INTERACTION).
    { unfold DEPENDENT, MAIN, DIRECT, NEW_INTERACTION, INTERACTION in *. lia. }
    assert (Hm1 : exists i0, iv mdl !! i0 = Some varidx /\
                    (forall i', i' < i0 -> iv mdl !! i' <> Some varidx) /\
                    Z.of_nat i = Z.of_nat i0 /\ mdl = mdl) by (by exists i).
    destruct Hvt as [-> | [-> | [-> | ->]]]; cbn [Z.eqb Pos.eqb orb andb negb NEW_INTERACTION
                                              INTERACTION MAIN DIRECT DEPENDENT].
    + split; [done|]. right. split; [done|]. exists mdl, (Z.of_nat i).
      split; [by left|]. left. by split; [left|].
    + split; [done|]. right. split; [done|]. exists mdl, (Z.of_nat i).
      split; [by left|]. left. by split; [right|].
    + split; [done|]. right. split; [done|]. exists mdl, (Z.of_nat i).
      split; [by left|]. right. left. by split.
    + set (terms := default [] (ints mdl !! (numints mdl - 1))).
      pose proof (for_ret_search
        (fun j => (Z.of_nat i =? default 0%Z (terms !! j))%Z)
        (fun _ => tt) 0 (length terms) (Nat.le_0_l _)) as Ht.
      match type of Ht with match ?e with _ => _ end => destruct e as [[]|[]] end.
      * split; [done|]. right. split; [done|]. exists mdl, (Z.of_nat i).
        split; [by left|]. right. right. split; [done|].
        right. split; [|done]. intros Hin. fold terms in Hin.
        apply list_elem_of_lookup in Hin as [j Hj].
        specialize (Ht j ltac:(apply lookup_lt_Some in Hj; lia)).
        rewrite Hj in Ht. simpl in Ht. apply Z.eqb_neq in Ht. done.
      * split; [done|]. right. split; [done|]. exists mdl, (Z.of_nat i).
        split; [by left|]. right. right. split; [done|].
        left. split; [|done]. destruct Ht as (j & Hj & _ & Ht & _).
        destruct (lookup_lt_is_Some_2 terms j ltac:(lia)) as [x Hx].
        rewrite Hx in Ht. simpl in Ht. apply Z.eqb_eq in Ht. subst x.
        by apply list_elem_of_lookup_2 in Hx.
Qed.

End ModelFacts.

Section ModelTheorems.
Context {D : Type} `{Double D}.

(** [add_model_variable] returns 0 or 1.  It returns 1, and leaves the
    model as it was, exactly when the type of the variable is none of the
    five types or the dataset has no variable of that name. *)
Theorem add_model_variable_refusal (mdl : model D) (ds : dataset D) (varname : string)
    (vartype g : Z) :
  let r := add_model_variable mdl ds varname vartype g in
  (amv_ret r = 0%Z \/ amv_ret r = 1%Z) /\
  (amv_ret r = 1%Z <-> ~ (0 <= vartype <= 4)%Z \/ find_varname ds varname = None) /\
  (amv_ret r = 1%Z -> amv_model r = mdl).
Proof.
  intros r. subst r.
  destruct (add_model_variable_cases mdl ds varname vartype g)
    as [(Hwhy & Hret & Hm)|(varidx & Hty & Hfind & Hret & _)].
  - split; [by right|]. split; [done|done].
  - rewrite Hret. split; [by left|]. split; [|done]. split; [done|].
    intros [Hn|Hn]; [done|congruence].
Qed.

(** The main effects of a model are kept as they are by every call: each
    keeps its index, its name and its kind, so a main effect that is added
    again as a direct effect stays categorical; and no variable becomes a
    main effect twice. *)
Theorem add_model_variable_main_effects (mdl : model D) (ds : dataset D)
    (varname : string) (vartype g : Z) :
  NoDup (iv mdl) ->
  length (ivnames mdl) = length (iv mdl) ->
  length (direct mdl) = length (iv mdl) ->
  let m := amv_model (add_model_variable mdl ds varname vartype g) in
  NoDup (iv m) /\
  length (ivnames m) = length (iv m) /\
  length (direct m) = length (iv m) /\
  iv mdl `prefix_of` iv m /\
  ivnames mdl `prefix_of` ivnames m /\
  direct mdl `prefix_of` direct m.
Proof.
  intros Hnd Hnames Hdirect m. subst m.
  assert (Hsame : NoDup (iv mdl) /\ length (ivnames mdl) = length (iv mdl) /\
                  length (direct mdl) = length (iv mdl) /\
                  iv mdl `prefix_of` iv mdl /\ ivnames mdl `prefix_of` ivnames mdl /\
                  direct mdl `prefix_of` direct mdl) by done.
  destruct (add_model_variable_cases mdl ds varname vartype g)
    as [(_ & _ & ->)|(varidx & _ & _ & _ & [[_ ->]|(_ & m1 & ividx & Hm1 & Hm)])];
    [done|done|].
  assert (H1 : NoDup (iv m1) /\ length (ivnames m1) = length (iv m1) /\
               length (direct m1) = length (iv m1) /\
               iv mdl `prefix_of` iv m1 /\ ivnames mdl `prefix_of` ivnames m1 /\
               direct mdl `prefix_of` direct m1).
  { destruct Hm1 as [(i & _ & _ & _ & ->)|(Hnew & _ & ->)]; [done|].
    cbn [iv ivnames direct set_main]. rewrite !length_app. cbn [length].
    split; [|split; [lia|split; [lia|]]].
    - apply NoDup_app. split; [done|]. split; [|apply NoDup_singleton].
      intros x Hx Hx'. apply list_elem_of_singleton in Hx' as ->. done.
    - split; [by apply prefix_app_r|]. split; by apply prefix_app_r. }
  destruct Hm as [[_ ->]|[[_ ->]|[_ Hm]]]; [done|done|].
  cbv zeta in Hm. by destruct Hm as [[_ ->]|[_ ->]].
Qed.

(** A term of an interaction that is a main effect already is stored as
    the index of that main effect, and the call does not depend on what the
    uninitialised [ividx] holds. *)
Theorem add_model_variable_registered_effect (mdl : model D) (ds : dataset D)
    (varname : string) (vartype : Z) (varidx i : nat) :
  find_varname ds varname = Some varidx ->
  iv mdl !! i = Some varidx ->
  (forall i', i' < i -> iv mdl !! i' <> Some varidx) ->
  (forall g g', add_model_variable mdl ds varname vartype g
                = add_model_variable mdl ds varname vartype g') /\
  (forall g, vartype = NEW_INTERACTION ->
     amv_model (add_model_variable mdl ds varname vartype g)
     = set_ints mdl (ints mdl ++ [[Z.of_nat i]]) (intnames mdl ++ [varname])) /\
  (forall g, vartype = INTERACTION ->
     let last := numints mdl - 1 in
     amv_model (add_model_variable mdl ds varname vartype g)
     = if decide (Z.of_nat i ∈ default [] (ints mdl !! last)) then mdl
       else set_ints mdl (alter (fun t => t ++ [Z.of_nat i]) last (ints mdl))
              (alter (fun nm => nm ++ "*" ++ varname)%string last (intnames mdl))).
Proof.
  intros Hfind Hi Hfirst.
  assert (Hin : varidx ∈ iv mdl) by (by apply list_elem_of_lookup_2 in Hi).
  split; [|split].
  - intros g g'. unfold add_model_variable. rewrite Hfind.
    pose proof (main_effect_search mdl varidx) as Hs.
    destruct (for_ret 0 (numiv mdl) _ tt) as [[]|j]; [done|]. done.
  - intros g ->.
    destruct (add_model_variable_cases mdl ds varname NEW_INTERACTION g)
      as [([Hn|Hn] & _)|(varidx' & _ & Hfind' & _ & [[Hn _]|(_ & m1 & ividx & Hm1 & Hm)])];
      [unfold NEW_INTERACTION in Hn; lia|congruence|done|].
    rewrite Hfind in Hfind'. injection Hfind' as <-.
    destruct Hm1 as [(j & Hj & Hjfirst & -> & ->)|(Hnew & _)]; [|done].
    assert (j = i) as ->.
    { destruct (Nat.lt_trichotomy j i) as [Hlt|[->|Hgt]]; [|done|].
      - by specialize (Hfirst j Hlt).
      - by specialize (Hjfirst i Hgt). }
    destruct Hm as [[[Hn|Hn] _]|[[_ ->]|[Hn _]]]; done.
  - intros g -> last.
    destruct (add_model_variable_cases mdl ds varname INTERACTION g)
      as [([Hn|Hn] & _)|(varidx' & _ & Hfind' & _ & [[Hn _]|(_ & m1 & ividx & Hm1 & Hm)])];
      [unfold INTERACTION in Hn; lia|congruence|done|].
    rewrite Hfind in Hfind'. injection Hfind' as <-.
    destruct Hm1 as [(j & Hj & Hjfirst & -> & ->)|(Hnew & _)]; [|done].
    assert (j = i) as ->.
    { destruct (Nat.lt_trichotomy j i) as [Hlt|[->|Hgt]]; [|done|].
      - by specialize (Hfirst j Hlt).
      - by specialize (Hjfirst i Hgt). }
    destruct Hm as [[[Hn|Hn] _]|[[Hn _]|[_ Hm]]]; [done|done|done|].
    cbv zeta in Hm. fold last in Hm.
    destruct (decide (Z.of_nat i ∈ default [] (ints mdl !! last))) as [Hd|Hd];
      by destruct Hm as [[Hc ->]|[Hc ->]].
Qed.

End ModelTheorems.

(** The first main effect of a model that has its dependent variable. *)
Lemma add_model_variable_main_effects_witness :
  let m := amv_model (add_model_variable (D := float) y_model yab_data "a" DIRECT 0) in
  NoDup (iv m) /\ length (ivnames m) = length (iv m) /\ length (direct m) = length (iv m) /\
  [] `prefix_of` iv m /\ [] `prefix_of` ivnames m /\ [] `prefix_of` direct m.
Proof.
  apply (add_model_variable_main_effects (D := float) y_model yab_data "a" DIRECT 0).
  - apply NoDup_nil_2.
  - reflexivity.
  - reflexivity.
Defined.

(** [logreg d y = a b b*a]: b is the main effect 1 when the interaction
    starts. *)
Lemma add_model_variable_registered_effect_witness :
  ints (amv_model (add_model_variable (D := float)
                     (add_effects yab_data init_model
                        [("y", DEPENDENT); ("a", MAIN); ("b", MAIN)]%string 0)
                     yab_data "b" NEW_INTERACTION 7))
  = [[1%Z]].
Proof.
  destruct (add_model_variable_registered_effect (D := float)
              (add_effects yab_data init_model
                 [("y", DEPENDENT); ("a", MAIN); ("b", MAIN)]%string 0)
              yab_data "b" NEW_INTERACTION 2 1) as (_ & Hnew & _).
  - reflexivity.
  - reflexivity.
  - intros i' Hi'. assert (i' = 0) as -> by lia. done.
  - rewrite (Hnew 7%Z eq_refl). reflexivity.
Defined.

(** [logreg d y = a*b] on a model that has no main effect yet. *)
Lemma add_model_variable_new_interaction_witness :
  ints (amv_model (add_model_variable (D := float) y_model yab_data "a" NEW_INTERACTION 7))
  = [[7%Z]].
Proof.
  destruct (add_model_variable_new_interaction (D := float) y_model yab_data "a" 1 7)
    as (_ & _ & Hints).
  - reflexivity.
  - apply not_elem_of_nil.
  - exact Hints.
Defined.

(* ================================================================== *)
(** * Back substitution and the triangular product *)

Section BacksubFacts.
Context {D : Type} `{Double D}.

(** The loop over the rows above [i] of one round of [backsub]: it writes
    column [i] above the diagonal and no other cell. *)
Lemma backsub_column_loop (i : nat) (f : nat -> list (list D) -> D) (x1 : list (list D)) :
  let x' := for_loop 0 i (fun j x => mset x j i (f j x)) x1 in
  (forall r c, c <> i \/ i <= r -> mget x' r c = mget x1 r c) /\
  (forall rr cc, shape x1 rr cc -> shape x' rr cc).
Proof.
  intros x'. subst x'.
  apply (for_loop_ind (fun j xs =>
    (forall r c, c <> i \/ i <= r -> mget xs r c = mget x1 r c) /\
    (forall rr cc, shape x1 rr cc -> shape xs rr cc))); [lia|done|].
  intros j xs Hj [Hframe Hshape]. split.
  - intros r c Hrc. rewrite mget_mset_ne by lia. by apply Hframe.
  - intros rr cc Hs. apply shape_mset. by apply Hshape.
Qed.

(** One round of [backsub]. *)
Lemma backsub_row_spec (i : nat) (x : list (list D)) :
  match backsub_row i x with
  | inr x' => (mget x i i .== d0) = true /\ x' = x
  | inl x' =>
      (mget x i i .== d0) = false /\
      (forall r c, c <> i \/ i < r -> mget x' r c = mget x r c) /\
      (forall rr cc, shape x rr cc -> shape x' rr cc /\
         (i < rr -> i < cc -> mget x' i i = d1 ./ mget x i i))
  end.
Proof.
  unfold backsub_row. destruct (mget x i i .== d0) eqn:Hz; [done|].
  split; [done|].
  set (x1 := mset x i i (d1 ./ mget x i i)).
  match goal with |- context [for_loop 0 i ?f x1] =>
    pose proof (backsub_column_loop i
                  (fun j x => dneg (for_loop j i (fun k sum => sum .+ mget x j k .* mget x k i) d0)
                              .* mget x i i) x1) as Hloop;
    cbv zeta in Hloop;
    change (for_loop 0 i f x1) with
      (for_loop 0 i (fun j x => mset x j i
         (dneg (for_loop j i (fun k sum => sum .+ mget x j k .* mget x k i) d0)
          .* mget x i i)) x1)
  end.
  destruct Hloop as [Hframe Hshape]. split.
  - intros r c Hrc. rewrite Hframe by lia. unfold x1. apply mget_mset_ne. lia.
  - intros rr cc Hs. split.
    + apply Hshape. unfold x1. by apply shape_mset.
    + intros Hi Hc. rewrite Hframe by lia. unfold x1.
      by rewrite (mget_mset_eq _ rr cc).
Qed.

Lemma backsub_ret (x : list (list D)) (order : nat) :
  (backsub x order).1 = 0%Z \/ (backsub x order).1 = 1%Z.
Proof.
  unfold backsub. destruct (mget x 0 0 .== d0); [by right|].
  destruct (for_ret 1 order backsub_row _); [by left|by right].
Qed.

End BacksubFacts.

Section BacksubTheorems.
Context {D : Type} `{Double D}.

(** [backsub] returns 1 exactly when an element of the diagonal of the
    matrix it is given is 0, the first element being read even for order 0.
    It writes the diagonal and the cells above it, in the columns below
    [order], and nothing else; where it returns 0, each element of the
    diagonal has become its reciprocal. *)
Theorem backsub_spec (x : list (list D)) (order : nat) :
  let n := Nat.max 1 order in
  let r := backsub x order in
  (r.1 = 0%Z \/ r.1 = 1%Z) /\
  (r.1 = 1%Z <-> exists i, i < n /\ (mget x i i .== d0) = true) /\
  (forall i j, j < i \/ n <= j -> mget r.2 i j = mget x i j) /\
  (forall rr cc, shape x rr cc -> shape r.2 rr cc /\
     (r.1 = 0%Z -> forall i, i < n -> i < rr -> i < cc ->
        mget r.2 i i = d1 ./ mget x i i)).
Proof.
  intros n r. subst r. unfold backsub.
  destruct (mget x 0 0 .== d0) eqn:Hz0.
  { cbn [fst snd]. split; [by right|]. split; [|split; [done|]].
    - split; [|done]. intros _. exists 0. split; [lia|done].
    - intros rr cc Hs. split; [done|]. done. }
  set (x1 := mset x 0 0 (d1 ./ mget x 0 0)).
  pose proof (for_ret_ind
    (fun i (xk : list (list D)) =>
       (forall r c, c < r \/ i <= c -> mget xk r c = mget x r c) /\
       (forall k, k < i -> (mget x k k .== d0) = false) /\
       (forall rr cc, shape x rr cc -> shape xk rr cc /\
          (forall k, k < i -> k < rr -> k < cc -> mget xk k k = d1 ./ mget x k k)))
    (fun xk : list (list D) =>
       (exists i, i < n /\ (mget x i i .== d0) = true) /\
       (forall r c, c < r \/ n <= c -> mget xk r c = mget x r c) /\
       (forall rr cc, shape x rr cc -> shape xk rr cc))
    1 n backsub_row x1 ltac:(lia)) as Hloop.
  assert (Hn : for_ret 1 order backsub_row x1 = for_ret 1 n backsub_row x1).
  { unfold for_ret. f_equal. lia. }
  rewrite Hn.
  assert (H1 : (forall r c, c < r \/ 1 <= c -> mget x1 r c = mget x r c) /\
               (forall k, k < 1 -> (mget x k k .== d0) = false) /\
               (forall rr cc, shape x rr cc -> shape x1 rr cc /\
                  (forall k, k < 1 -> k < rr -> k < cc -> mget x1 k k = d1 ./ mget x k k))).
  { split; [|split].
    - intros r c Hrc. unfold x1. apply mget_mset_ne. lia.
    - intros k Hk. by replace k with 0 by lia.
    - intros rr cc Hs. split; [by apply shape_mset|].
      intros k Hk Hr Hc. replace k with 0 by lia. unfold x1.
      by rewrite (mget_mset_eq _ rr cc) by (done || lia). }
  specialize (Hloop H1). clear H1.
  assert (Hstep : forall i (xk : list (list D)), 1 <= i < n ->
    (forall r c, c < r \/ i <= c -> mget xk r c = mget x r c) /\
    (forall k, k < i -> (mget x k k .== d0) = false) /\
    (forall rr cc, shape x rr cc -> shape xk rr cc /\
       (forall k, k < i -> k < rr -> k < cc -> mget xk k k = d1 ./ mget x k k)) ->
    match backsub_row i xk with
    | inl xk' =>
        (forall r c, c < r \/ Datatypes.S i <= c -> mget xk' r c = mget x r c) /\
        (forall k, k < Datatypes.S i -> (mget x k k .== d0) = false) /\
        (forall rr cc, shape x rr cc -> shape xk' rr cc /\
           (forall k, k < Datatypes.S i -> k < rr -> k < cc ->
              mget xk' k k = d1 ./ mget x k k))
    | inr xk' =>
        (exists i, i < n /\ (mget x i i .== d0) = true) /\
        (forall r c, c < r \/ n <= c -> mget xk' r c = mget x r c) /\
        (forall rr cc, shape x rr cc -> shape xk' rr cc)
    end).
  { intros i xk Hi (Hframe & Hnz & Hval).
    pose proof (backsub_row_spec i xk) as Hrow.
    destruct (backsub_row i xk) as [xk'|xk'].
    - destruct Hrow as (Hz & Hf & Hs). rewrite Hframe in Hz by lia.
      split; [|split].
      + intros r c Hrc. rewrite Hf by lia. apply Hframe. lia.
      + intros k Hk. destruct (decide (k = i)) as [->|]; [done|]. apply Hnz. lia.
      + intros rr cc Hsx. destruct (Hval rr cc Hsx) as [Hsk Hdiag].
        destruct (Hs rr cc Hsk) as [Hsk' Hdi]. split; [done|].
        intros k Hk Hr Hc. destruct (decide (k = i)) as [->|Hne].
        * rewrite Hdi by done. by rewrite Hframe by lia.
        * rewrite Hf by lia. apply Hdiag; lia.
    - destruct Hrow as [Hz ->]. rewrite Hframe in Hz by lia.
      split; [by exists i; split; [lia|]|]. split.
      + intros r c Hrc. apply Hframe. lia.
      + intros rr cc Hsx. by destruct (Hval rr cc Hsx). }
  specialize (Hloop Hstep). clear Hstep.
  destruct (for_ret 1 n backsub_row x1) as [x'|x']; cbn [fst snd].
  - destruct Hloop as (Hframe & Hnz & Hval).
    split; [by left|]. split; [|split].
    + split; [done|]. intros (i & Hi & Hz). rewrite Hnz in Hz by done. done.
    + intros i j Hij. apply Hframe. lia.
    + intros rr cc Hs. destruct (Hval rr cc Hs) as [Hs' Hdiag]. split; [done|].
      intros _ i Hi Hr Hc. by apply Hdiag.
  - destruct Hloop as (Hex & Hframe & Hshape).
    split; [by right|]. split; [done|]. split.
    + intros i j Hij. by apply Hframe.
    + intros rr cc Hs. split; [by apply Hshape|done].
Qed.

End BacksubTheorems.

Section TrimultFacts.
Context {D : Type} `{Double D}.

(** A row of a matrix filled from a function of the column. *)
Lemma fill_row (i m : nat) (g : nat -> D) (out : list (list D)) :
  let out' := for_loop 0 m (fun j out => mset out i j (g j)) out in
  (forall r c, r <> i \/ m <= c -> mget out' r c = mget out r c) /\
  (forall rr cc, shape out rr cc -> shape out' rr cc /\
     (i < rr -> m <= cc -> forall j, j < m -> mget out' i j = g j)).
Proof.
  intros out'. subst out'.
  apply (for_loop_ind (fun k (xs : list (list D)) =>
    (forall r c, r <> i \/ k <= c -> mget xs r c = mget out r c) /\
    (forall rr cc, shape out rr cc -> shape xs rr cc /\
       (i < rr -> m <= cc -> forall j, j < k -> mget xs i j = g j)))); [lia| |].
  - split; [done|]. intros rr cc Hs. split; [done|]. lia.
  - intros k xs Hk [Hframe Hval]. split.
    + intros r c Hrc. rewrite mget_mset_ne by lia. apply Hframe. lia.
    + intros rr cc Hs. destruct (Hval rr cc Hs) as [Hs' Hv]. split; [by apply shape_mset|].
      intros Hi Hm j Hj. destruct (decide (j = k)) as [->|Hne].
      * by rewrite (mget_mset_eq _ rr cc) by (done || lia).
      * rewrite mget_mset_ne by lia. apply Hv; [done|done|lia].
Qed.

(** The rows of a matrix filled one after the other. *)
Lemma fill_matrix (n m : nat) (g : nat -> nat -> D) (out : list (list D)) :
  let out' := for_loop 0 n (fun i out =>
                for_loop 0 m (fun j out => mset out i j (g i j)) out) out in
  (forall r c, n <= r \/ m <= c -> mget out' r c = mget out r c) /\
  (forall rr cc, shape out rr cc -> shape out' rr cc /\
     (n <= rr -> m <= cc -> forall i j, i < n -> j < m -> mget out' i j = g i j)).
Proof.
  intros out'. subst out'.
  apply (for_loop_ind (fun k (xs : list (list D)) =>
    (forall r c, k <= r \/ m <= c -> mget xs r c = mget out r c) /\
    (forall rr cc, shape out rr cc -> shape xs rr cc /\
       (n <= rr -> m <= cc -> forall i j, i < k -> j < m -> mget xs i j = g i j))));
    [lia| |].
  - split; [done|]. intros rr cc Hs. split; [done|]. lia.
  - intros k xs Hk [Hframe Hval].
    destruct (fill_row k m (g k) xs) as [Hf Hv]. split.
    + intros r c Hrc. rewrite Hf by lia. apply Hframe. lia.
    + intros rr cc Hs. destruct (Hval rr cc Hs) as [Hs' Hcells].
      destruct (Hv rr cc Hs') as [Hs'' Hrow]. split; [done|].
      intros Hn Hm i j Hi Hj. destruct (decide (i = k)) as [->|Hne].
      * apply Hrow; [lia|done|done].
      * rewrite Hf by lia. apply Hcells; [done|done|lia|done].
Qed.

(** The cells [trimult] writes. *)
Lemma trimult_cells (inp out : list (list D)) (order rr cc : nat) :
  shape out rr cc -> order <= rr -> order <= cc ->
  shape (trimult inp out order).2 rr cc /\
  (forall i j, i < order -> j < order ->
     mget (trimult inp out order).2 i j
     = for_loop (Nat.max i j) order (fun k sum => sum .+ mget inp i k .* mget inp j k) d0).
Proof.
  intros Hs Hr Hc. unfold trimult. cbn [snd].
  pose proof (fill_matrix order order
    (fun i j => for_loop (if (j <? i)%nat then i else j) order
                  (fun k sum => sum .+ mget inp i k .* mget inp j k) d0) out) as Hfill.
  cbv zeta in Hfill. destruct Hfill as [Hframe Hval].
  destruct (Hval rr cc Hs) as [Hs' Hcells]. split; [done|].
  intros i j Hi Hj. rewrite Hcells by done.
  destruct (j <? i)%nat eqn:Hji.
  - apply Nat.ltb_lt in Hji. by replace (Nat.max i j) with i by lia.
  - apply Nat.ltb_ge in Hji. by replace (Nat.max i j) with j by lia.
Qed.

End TrimultFacts.

Section TrimultTheorems.
Context {D : Type} `{Double D}.

(** [trimult] returns 0 for every input.  It writes the cells [(i, j)] of
    [out] with [i] and [j] below [order] and leaves the other cells as they
    are; cell [(i, j)] is the sum of [in[i][k] * in[j][k]] for [k] from the
    larger of [i] and [j] up to [order], added from [k] upwards. *)
Theorem trimult_spec (inp out : list (list D)) (order rr cc : nat) :
  shape out rr cc -> order <= rr -> order <= cc ->
  let r := trimult inp out order in
  r.1 = 0%Z /\
  shape r.2 rr cc /\
  (forall i j, i < order -> j < order ->
     mget r.2 i j
     = for_loop (Nat.max i j) order (fun k sum => sum .+ mget inp i k .* mget inp j k) d0) /\
  (forall i j, order <= i \/ order <= j -> mget r.2 i j = mget out i j).
Proof.
  intros Hs Hr Hc r. subst r. unfold trimult. cbn [fst snd].
  split; [done|].
  pose proof (fill_matrix order order
    (fun i j => for_loop (if (j <? i)%nat then i else j) order
                  (fun k sum => sum .+ mget inp i k .* mget inp j k) d0) out) as Hfill.
  cbv zeta in Hfill. destruct Hfill as [Hframe Hval].
  destruct (Hval rr cc Hs) as [Hs' Hcells].
  split; [done|]. split; [|done].
  intros i j Hi Hj. rewrite Hcells by done.
  destruct (j <? i)%nat eqn:Hji.
  - apply Nat.ltb_lt in Hji. by replace (Nat.max i j) with i by lia.
  - apply Nat.ltb_ge in Hji. by replace (Nat.max i j) with j by lia.
Qed.

(** [trimult] reads the cells of [in] on and above the diagonal only, and
    its result is symmetric where the product of two numbers does not depend
    on their order. *)
Theorem trimult_upper_triangle (inp inp' out : list (list D)) (order rr cc : nat) :
  shape out rr cc -> order <= rr -> order <= cc ->
  (forall i k, i <= k -> mget inp' i k = mget inp i k) ->
  (forall i j, i < order -> j < order ->
     mget (trimult inp' out order).2 i j = mget (trimult inp out order).2 i j) /\
  ((forall a b : D, a .* b = b .* a) ->
   forall i j, i < order -> j < order ->
     mget (trimult inp out order).2 i j = mget (trimult inp out order).2 j i).
Proof.
  intros Hs Hr Hc Hupper.
  destruct (trimult_cells inp out order rr cc Hs Hr Hc) as [_ Hcell].
  destruct (trimult_cells inp' out order rr cc Hs Hr Hc) as [_ Hcell'].
  split.
  - intros i j Hi Hj. rewrite Hcell, Hcell' by done.
    apply for_loop_ext. intros k s Hk. rewrite !Hupper by lia. done.
  - intros Hcomm i j Hi Hj. rewrite !Hcell by done.
    replace (Nat.max j i) with (Nat.max i j) by lia.
    apply for_loop_ext. intros k s Hk. by rewrite Hcomm.
Qed.

End TrimultTheorems.

(* ================================================================== *)
(** * The return value of a Newton-Raphson step *)

Section StepCodes.
Context {D : Type} `{Double D} `{Libm D}.


End StepCodes.

(* ================================================================== *)
(** * A step that fails, in binary64 *)

Lemma binary_round_aux_sign (sx : bool) (mx ex : Z) (lx : location) :
  SFltb (binary_round_aux prec emax sx mx ex lx) (S754_zero false) = sx \/
  SFltb (binary_round_aux prec emax sx mx ex lx) (S754_zero false) = false.
Proof.
  unfold binary_round_aux.
  destruct (shr_fexp prec emax mx ex lx) as [mrs' e'].
  destruct (shr_fexp prec emax _ e' loc_Exact) as [mrs'' e''].
  destruct (shr_m mrs'') as [|p|p]; [destruct sx; by auto| |by right].
  destruct (e'' <=? emax - prec)%Z; destruct sx; by auto.
Qed.

(** A coefficient that the step left as it was passes the test of
    convergence, whatever its value. *)
Lemma unchanged_coefficient (b : float) :
  (fabs (b .- b) .> EPSILON .* fabs b) = false.
Proof.
  change ((PrimFloat.mul 0x1.5798ee2308c3ap-27 (PrimFloat.abs b)
           <? PrimFloat.abs (PrimFloat.sub b b))%float = false).
  rewrite FloatAxioms.ltb_spec, FloatAxioms.mul_spec, !FloatAxioms.abs_spec,
    FloatAxioms.sub_spec.
  change (Prim2SF 0x1.5798ee2308c3ap-27) with (S754_finite false 6044629098073146 (-79)).
  destruct (Prim2SF b) as [s|s| |s m e].
  - by destruct s.
  - by destruct s.
  - done.
  - unfold SF64sub, SFsub. rewrite Z.sub_diag.
    cbn [binary_normalize SFabs]. unfold SF64mul, SFmul. cbn [xorb].
    by destruct (binary_round_aux_sign false (Z.pos (6044629098073146 * m)) (-79 + e)
                   loc_Exact) as [-> | ->].
Qed.

Lemma convergence_test_self (P : nat) (beta : list float) :
  convergence_test P beta beta = 1%Z.
Proof.
  apply convergence_test_spec. intros i Hi. apply unchanged_coefficient.
Qed.

(** In binary64, a round of the main loop whose [newton_raphson] does not
    return 0 is the last one: it leaves [beta] and [xtwx] as they were, sets
    [convergence] to 1 and ends the loop, and the report made of that state
    says "Convergence: YES" and holds the tests of fit. *)
Theorem failed_step_ends_converged (m : Libm float) (X Y : list (list float))
    (n : list float) (J N K : nat) (fuel : nat) (st : loop_state float) :
  l_iter st < MAX_ITER -> l_convergence st = 0%Z ->
  l_nrret (nr_iteration X Y n J N K st) <> 0%Z ->
  let st' := nr_iteration X Y n J N K st in
  nr_while (Datatypes.S fuel) X Y n J N K st = st' /\
  l_iter st' = l_iter st + 1 /\
  l_convergence st' = 1%Z /\
  l_beta st' = l_beta st /\ l_xtwx st' = l_xtwx st /\
  forall des, r_convergence (make_report des st') = "YES"%string /\
              is_Some (r_fit (make_report des st')).
Proof.
  intros Hit Hc Hfail st'.
  destruct (nr_while_failure X Y n J N K fuel st Hit Hc Hfail
              (convergence_test_self _ _)) as (Hw & Hconv & Hiter).
  destruct (nr_iteration_failure X Y n J N K st Hfail) as [Hbeta _].
  fold st' in Hw, Hconv, Hiter, Hbeta.
  split; [done|]. split; [done|]. split; [done|]. split; [done|]. split.
  - destruct (newton_raphson_ret X Y n J N K
                (for_loop 0 (K * (J - 1)) (fun i beta0 => <[i := vget (l_beta st) i]> beta0)
                   (replicate (K * (J - 1)) d0))
                (l_beta st) (l_xtwx st)) as (_ & _ & Hkeep).
    by destruct (Hkeep Hfail) as [_ Hx].
  - intros des. unfold make_report.
    destruct (if negb (l_convergence st' =? 0)%Z then _ else _) as [[? ?] ?].
    cbn [r_convergence r_fit]. rewrite Hconv. cbn [Z.eqb Pos.eqb]. eauto.
Qed.

(** The first round of the fit of [logreg d y = direct.x] on two
    observations with x = 1. *)
Lemma failed_step_ends_converged_witness :
  l_convergence (nr_iteration (H0 := libm_stub)
                   [[1; 1]]%float [[2; 2]]%float [4]%float 2 1 2 (loop_init 2)) = 1%Z.
Proof.
  destruct (failed_step_ends_converged libm_stub
              [[1; 1]]%float [[2; 2]]%float [4]%float 2 1 2 0 (loop_init 2))
    as (_ & _ & Hc & _).
  - vm_compute. lia.
  - reflexivity.
  - vm_compute. discriminate.
  - exact Hc.
Defined.

(** A 2 by 2 upper triangle [[2 3] [. 4]]: the product with its transpose
    has 3 * 4 beside the diagonal. *)
Lemma trimult_spec_witness :
  mget (trimult [[2; 3]; [0; 4]]%float (replicate 2 (replicate 2 d0)) 2).2 0 1 = 12%float.
Proof.
  destruct (trimult_spec [[2; 3]; [0; 4]]%float (replicate 2 (replicate 2 d0)) 2 2 2)
    as (_ & _ & Hcell & _).
  - apply shape_replicate.
  - lia.
  - lia.
  - rewrite Hcell by lia. reflexivity.
Defined.

(** The cell below the diagonal of the input is not read. *)
Lemma trimult_upper_triangle_witness :
  mget (trimult [[2; 3]; [9; 4]]%float (replicate 2 (replicate 2 d0)) 2).2 1 0
  = mget (trimult [[2; 3]; [0; 4]]%float (replicate 2 (replicate 2 d0)) 2).2 1 0.
Proof.
  destruct (trimult_upper_triangle [[2; 3]; [0; 4]]%float [[2; 3]; [9; 4]]%float
              (replicate 2 (replicate 2 d0)) 2 2 2) as (Hsame & _).
  - apply shape_replicate.
  - lia.
  - lia.
  - intros i k Hik. destruct i as [|[|i]]; destruct k as [|[|k]]; try lia; reflexivity.
  - apply Hsame; lia.
Defined.

(* ================================================================== *)
(** * The populations *)

Section PopulationTheorems.
Context {D : Type} `{Double D}.

Lemma populations_last (xt : list (list D)) (xtabcols : nat) :
  let ps := populations xt xtabcols in
  p_N ps = default 0 (p_popindex ps !! (length xt - 1)) + 1.
Proof.
  intros ps. subst ps. unfold populations.
  destruct (decide (length xt = 0)) as [Hz|Hnz].
  { rewrite for_loop_empty by lia. cbn [p_N p_popindex]. rewrite Hz.
    destruct xt; [done|simpl in Hz; lia]. }
  loop_inv (fun i (st : pop_state D) =>
    length (p_popindex st) = length xt /\
    p_N st = default 0 (p_popindex st !! (i - 1)) + 1).
  destruct Hinv as [_ HN]; [lia| | |done].
  - cbn [p_N p_popindex]. rewrite length_insert, length_replicate. split; [done|].
    rewrite list_lookup_insert_eq by (rewrite length_replicate; lia). done.
  - intros i st Hi [Hlen HN]. cbn [p_N p_popindex]. rewrite length_insert.
    split; [done|]. replace (Datatypes.S i - 1) with i by lia.
    rewrite list_lookup_insert_eq by lia. simpl.
    destruct (popchange xt xtabcols i); lia.
Qed.


End PopulationTheorems.

(* ================================================================== *)
(** * The intercept and the direct effects in X *)

Section DirectColumns.
Context {D : Type} `{Double D}.

(** The row that [encode_row] writes has 1 in column 0 and, for a direct
    effect, the value of the variable in the column of the effect. *)
Lemma encode_row_direct (mdl : model D) (dummy : bool) (xt : list (list D))
    (i xr : nat) (X : list (list D)) (N K : nat) :
  shape X N K -> xr < N -> main_start mdl (numiv mdl) <= K ->
  let res := encode_row mdl dummy xt (2 + numiv mdl) i xr X in
  mget res.1 xr 0 = d1 /\
  (forall j, j < numiv mdl -> direct_at mdl j <> 0%Z ->
     mget res.1 xr (main_start mdl j) = mget xt i j).
Proof.
  intros Hs Hxr HK res. subst res. unfold encode_row.
  replace (2 + numiv mdl - 2) with (numiv mdl) by lia.
  set (X1 := mset X xr 0 d1).
  assert (Hs1 : shape X1 N K) by (by apply shape_mset).
  assert (Hone : forall j, 1 <= main_start mdl j) by (intros j; unfold main_start; lia).
  assert (H0 : mget X1 xr 0 = d1).
  { unfold X1. apply (mget_mset_eq _ N K); [done|done|]. specialize (Hone (numiv mdl)). lia. }
  cbv zeta.
  loop_inv (fun j (st : list (list D) * nat) =>
    shape st.1 N K /\ st.2 = main_start mdl j /\
    mget st.1 xr 0 = d1 /\
    (forall j', j' < j -> direct_at mdl j' <> 0%Z ->
       mget st.1 xr (main_start mdl j') = mget xt i j')).
  destruct Hinv as (_ & _ & Hint & Hv); [lia| | |done].
  - cbn [fst snd]. split; [done|]. split; [done|]. split; [done|]. intros j' Hj'. lia.
  - intros j [X' xc'] Hj (Hs' & Hxc & Hint & Hval).
    cbn [fst snd] in Hs', Hxc, Hint, Hval. subst xc'.
    pose proof (main_start_S mdl j) as HS.
    pose proof (main_start_mono mdl (Datatypes.S j) (numiv mdl) ltac:(lia)) as Hmono.
    pose proof (Hone j) as Hj1.
    assert (Hbefore : forall j', j' < j -> direct_at mdl j' <> 0%Z ->
              main_start mdl j' < main_start mdl j).
    { intros j' Hj' Hd'.
      pose proof (main_start_mono mdl (Datatypes.S j') j ltac:(lia)) as Hm.
      pose proof (main_start_S mdl j') as HS'. unfold main_span in HS'.
      apply Z.eqb_neq in Hd'. rewrite Hd' in HS'. lia. }
    destruct (direct_at mdl j =? 0)%Z eqn:Hdir; cbn [negb].
    + (* categorical *)
      unfold main_span in HS. rewrite Hdir in HS. cbv iota in HS.
      pose proof (encode_levels_spec mdl dummy xt i xr j X' (main_start mdl j) N K
                    Hs' Hxr ltac:(lia)) as Hlev.
      cbv zeta in Hlev. destruct Hlev as (Hsr & Hxcr & Hfr & _).
      split; [exact Hsr|]. split; [rewrite Hxcr; lia|]. split.
      * rewrite Hfr by lia. done.
      * intros j' Hj' Hd'. destruct (decide (j' = j)) as [->|Hne].
        -- apply Z.eqb_eq in Hdir. done.
        -- rewrite Hfr; [apply Hval; [lia|done]|]. right. left. apply Hbefore; [lia|done].
    + (* direct *)
      unfold main_span in HS. rewrite Hdir in HS. cbv iota in HS. cbn [fst snd].
      split; [by apply shape_mset|]. split; [lia|]. split.
      * rewrite mget_mset_ne by lia. done.
      * intros j' Hj' Hd'. destruct (decide (j' = j)) as [->|Hne].
        -- apply (mget_mset_eq _ N K); [done|done|lia].
        -- rewrite mget_mset_ne; [apply Hval; [lia|done]|].
           right. specialize (Hbefore j' ltac:(lia) Hd'). lia.
Qed.

End DirectColumns.

Section DesignRows.
Context {D : Type} `{Double D}.

(** The row of X of a population is the row as [encode_row] wrote it for
    the first row of the population in the crosstab. *)
Lemma design_rows_encoded (mdl : model D) (dummy : bool) (J K : nat) :
  main_start mdl (numiv mdl) <= K ->
  let xt := obs (xtab mdl) in
  let cols := 2 + numiv mdl in
  let ps := populations xt cols in
  let des := design_rows mdl dummy xt cols J (p_N ps) K (p_popindex ps) in
  forall i, i < length xt -> (i = 0 \/ popchange xt cols i = true) ->
    exists Xb, shape Xb (p_N ps) K /\
      forall c, mget (g_X des) (default 0 (p_popindex ps !! i)) c
                = mget (encode_row mdl dummy xt cols i
                          (default 0 (p_popindex ps !! i)) Xb).1
                    (default 0 (p_popindex ps !! i)) c.
Proof.
  intros HK xt cols ps des. subst des. unfold design_rows.
  destruct (populations_spec xt cols) as (Hplen & HN & Hplt & Hp0 & Hprel).
  fold ps in Hplen, HN, Hplt, Hp0, Hprel.
  set (pidx i := default 0 (p_popindex ps !! i)) in *.
  loop_inv (fun i (st : design_state D) =>
    shape (g_X st) (p_N ps) K /\
    g_lastpop st = (if decide (i = 0) then (-1)%Z else Z.of_nat (pidx (i - 1))) /\
    (i <> 0 -> g_xr st = pidx (i - 1)) /\
    (forall i0, i0 < i -> (i0 = 0 \/ popchange xt cols i0 = true) ->
       exists Xb, shape Xb (p_N ps) K /\
         forall c, mget (g_X st) (pidx i0) c
                   = mget (encode_row mdl dummy xt cols i0 (pidx i0) Xb).1 (pidx i0) c)).
  destruct Hinv as (_ & _ & _ & Hval); [lia| | |].
  - cbn [g_X g_lastpop g_xr]. split; [apply shape_replicate|]. split; [done|].
    split; [done|]. intros i0 Hi0. lia.
  - intros i st Hi (Hs & Hlast & Hxr & Hval). unfold design_row. fold (pidx i).
    assert (Hnew : negb (Z.of_nat (pidx i) =? g_lastpop st)%Z
                   = if decide (i = 0) then true else popchange xt cols i).
    { rewrite Hlast. destruct (decide (i = 0)) as [->|Hnz].
      - apply negb_true_iff, Z.eqb_neq. lia.
      - specialize (Hprel i ltac:(lia)). fold (pidx i) (pidx (i - 1)) in Hprel.
        destruct (popchange xt cols i).
        + apply negb_true_iff, Z.eqb_neq. lia.
        + apply negb_false_iff, Z.eqb_eq. lia. }
    rewrite Hnew.
    pose proof (encode_row_spec mdl dummy xt i (pidx i) (g_X st) (p_N ps) K Hs
                  (Hplt i ltac:(lia)) HK) as Henc.
    cbv zeta in Henc. fold cols in Henc.
    assert (Hself : forall c, mget (encode_row mdl dummy xt cols i (pidx i) (g_X st)).1 (pidx i) c
                              = mget (encode_row mdl dummy xt cols i (pidx i) (g_X st)).1
                                  (pidx i) c) by done.
    destruct (encode_row mdl dummy xt cols i (pidx i) (g_X st)) as [X' xc'] eqn:Hrow.
    cbn [fst snd] in Henc. destruct Henc as (Hs' & Hfr & _).
    assert (Hcase : (if decide (i = 0) then true else popchange xt cols i) = true
                    \/ ((if decide (i = 0) then true else popchange xt cols i) = false
                        /\ i <> 0 /\ popchange xt cols i = false)).
    { destruct (decide (i = 0)); [by left|]. destruct (popchange xt cols i); [by left|].
      right. done. }
    destruct Hcase as [Hc|(Hc & Hnz & Hpc)]; rewrite Hc; cbn [g_X g_lastpop g_xr].
    + split; [done|]. split; [|split].
      * destruct (decide (Datatypes.S i = 0)); [lia|].
        by replace (Datatypes.S i - 1) with i by lia.
      * intros _. by replace (Datatypes.S i - 1) with i by lia.
      * intros i0 Hi0 Hfirst.
        destruct (decide (i0 = i)) as [->|Hne].
        -- exists (g_X st). split; [done|]. intros c. by rewrite Hrow.
        -- assert (pidx i0 <> pidx i) as Hrowne.
           { destruct (decide (i = 0)) as [->|Hnz]; [lia|]. rewrite Hc in *.
             specialize (Hprel i ltac:(lia)). fold (pidx i) (pidx (i - 1)) in Hprel.
             rewrite Hc in Hprel.
             pose proof (popindex_mono xt cols i0 (i - 1) ltac:(lia) ltac:(lia)) as Hm.
             cbv zeta in Hm. fold ps in Hm. fold (pidx i0) (pidx (i - 1)) in Hm. lia. }
           destruct (Hval i0 ltac:(lia) Hfirst) as (Xb & Hsb & Hcells).
           exists Xb. split; [done|]. intros c. rewrite Hfr by (left; done). apply Hcells.
    + split; [done|]. split; [|split].
      * destruct (decide (Datatypes.S i = 0)); [lia|].
        replace (Datatypes.S i - 1) with i by lia. rewrite Hxr by done.
        specialize (Hprel i ltac:(lia)). fold (pidx i) (pidx (i - 1)) in Hprel.
        rewrite Hpc in Hprel. f_equal. lia.
      * intros _. replace (Datatypes.S i - 1) with i by lia. rewrite Hxr by done.
        specialize (Hprel i ltac:(lia)). fold (pidx i) (pidx (i - 1)) in Hprel.
        rewrite Hpc in Hprel. lia.
      * intros i0 Hi0 Hfirst.
        destruct (decide (i0 = i)) as [->|Hne].
        -- destruct Hfirst as [?|Hf]; [done|]. rewrite Hpc in Hf. done.
        -- apply Hval; [lia|done].
  - intros i Hi Hfirst. by apply Hval.
Qed.

End DesignRows.

Section DirectTheorem.
Context {D : Type} `{Double D}.

(** In the design matrix of a tabulated model, the row of a population
    has 1 in column 0, the intercept, and for a direct effect it has, in the
    one column of the effect, the value of the variable in the rows of the
    population. *)
Theorem design_intercept_direct (opts : options) (mdl : model D) (i : nat) :
  tabulated mdl = true ->
  i < length (obs (xtab mdl)) ->
  (i = 0 \/ popchange (obs (xtab mdl)) (2 + numiv mdl) i = true) ->
  let des := build_design opts mdl in
  let row := default 0 (d_popindex des !! i) in
  mget (d_X des) row 0 = d1 /\
  (forall j, j < numiv mdl -> direct_at mdl j <> 0%Z ->
     mget (d_X des) row (main_start mdl j) = mget (obs (xtab mdl)) i j).
Proof.
  intros Ht Hi Hfirst des row. subst row des. unfold build_design.
  pose proof (tabulated_spec mdl Ht) as (Hnv & _ & _). rewrite Hnv.
  pose proof (column_layout_xc mdl) as Hxc.
  destruct (column_layout mdl (2 + numiv mdl)) as [[startcol colspan] xc].
  cbn [snd] in Hxc. subst xc. cbn [d_X d_popindex].
  pose proof (main_columns_fit mdl Ht) as HK.
  pose proof (design_rows_encoded mdl (dummy_coding opts)
                (freq_n mdl (numiv mdl)) _ HK i Hi Hfirst) as (Xb & Hsb & Hcells).
  destruct (populations_spec (obs (xtab mdl)) (2 + numiv mdl)) as (_ & HN & Hplt & _).
  pose proof (encode_row_direct mdl (dummy_coding opts) (obs (xtab mdl)) i
                (default 0 (p_popindex (populations (obs (xtab mdl)) (2 + numiv mdl)) !! i))
                Xb _ _ Hsb (Hplt i Hi) HK) as [H0 Hdir].
  assert (Hone : forall j, 1 <= main_start mdl j) by (intros j; unfold main_start; lia).
  split.
  - rewrite interactions_frame by (specialize (Hone (numiv mdl)); lia).
    rewrite Hcells. exact H0.
  - intros j Hj Hd.
    pose proof (main_start_S mdl j) as HS. unfold main_span in HS.
    apply Z.eqb_neq in Hd. rewrite Hd in HS.
    pose proof (main_start_mono mdl (Datatypes.S j) (numiv mdl) ltac:(lia)).
    rewrite interactions_frame by lia.
    rewrite Hcells. apply Hdir; [done|]. by apply Z.eqb_neq.
Qed.

End DirectTheorem.

(** [logreg d y = direct.dose]: the second population, of dose 2, has the
    row (1, 2) in X. *)
Lemma design_intercept_direct_witness :
  mget (d_X (build_design init_options (tabulate dose_data dose_model))) 1 0 = 1%float /\
  mget (d_X (build_design init_options (tabulate dose_data dose_model))) 1 1 = 2%float.
Proof.
  destruct (design_intercept_direct init_options (tabulate dose_data dose_model) 2)
    as [H0 Hd].
  - reflexivity.
  - vm_compute. lia.
  - right. reflexivity.
  - split; [exact H0|]. apply (Hd 0); [vm_compute; lia|done].
Defined.

(* ================================================================== *)
(** * Frequency tables *)

Section FrequencyFacts.
Context {D : Type} `{Double D}.

(** What [freq_add] does depends on the rows of the table only. *)
Lemma freq_add_obs_ext (f f' : dataset D) (t w : D) :
  obs f = obs f' -> nvars f = nvars f' ->
  obs (freq_add f t w) = obs (freq_add f' t w) /\
  nvars (freq_add f t w) = nvars (freq_add f' t w).
Proof.
  intros Ho Hn. unfold freq_add, freq_search, ds_n. rewrite Ho.
  destruct (for_ret 0 (length (obs f')) _ tt) as [[]|k];
    unfold add_observation, set_obs; cbn [obs nvars]; by rewrite ?Ho, ?Hn.
Qed.

(** The value of variable [j] of the crosstab in the observation [row]. *)
Lemma tabulate_vars_all (mdl : model D) (row : list D) (w : D)
    (fr : list (dataset D)) (o : list D) (j : nat) :
  let nv := numiv mdl in
  let target j := if (j <? nv)%nat then vget row (default 0 (iv mdl !! j))
                  else vget row (dv mdl) in
  j <= nv ->
  (tabulate_vars mdl row w fr o).1 !! j = (fun f => freq_add f (target j) w) <$> (fr !! j).
Proof.
  intros nv target Hj. unfold tabulate_vars. fold nv.
  set (body := fun (j : nat) '(fr0, o0) => _).
  assert (Hinv : forall k, k <= nv + 1 ->
            forall j, (j < k -> (for_loop 0 k body (fr, o)).1 !! j
                                = (fun f => freq_add f (target j) w) <$> (fr !! j)) /\
                      (k <= j -> (for_loop 0 k body (fr, o)).1 !! j = fr !! j)).
  { induction k as [|k IH]; intros Hk j'; [split; [lia|done]|].
    rewrite for_loop_last by lia. specialize (IH ltac:(lia)).
    destruct (for_loop 0 k body (fr, o)) as [fr0 o0]. cbn [fst] in IH.
    unfold body. cbn [fst]. split.
    - intros Hj'. destruct (decide (j' = k)) as [->|Hne].
      + rewrite list_lookup_alter_eq. destruct (IH k) as [_ Hk']. by rewrite Hk' by lia.
      + rewrite list_lookup_alter_ne by done. apply IH. lia.
    - intros Hj'. rewrite list_lookup_alter_ne by lia. apply IH. lia. }
  apply (Hinv (nv + 1)); lia.
Qed.

End FrequencyFacts.

Section FrequencyTables.
Context {D : Type} `{Double D}.

Lemma fold_freq_add_ext {A : Type} (t w : A -> D) (rows : list A) (f f' : dataset D) :
  obs f = obs f' -> nvars f = nvars f' ->
  obs (foldl (fun f row => freq_add f (t row) (w row)) f rows)
  = obs (foldl (fun f row => freq_add f (t row) (w row)) f' rows).
Proof.
  revert f f'. induction rows as [|row rows IH]; intros f f' Ho Hn; [done|].
  cbn [foldl]. destruct (freq_add_obs_ext f f' (t row) (w row) Ho Hn) as [Ho' Hn'].
  by apply IH.
Qed.

(** [frequency_table] as a fold over the observations. *)
Lemma frequency_table_foldl (ds : dataset D) (var : nat) :
  obs (frequency_table ds var)
  = qsort (compare_obs 1)
      (obs (foldl (fun f row => freq_add f (vget row var) (obs_weight ds row))
              (add_dataset EmptyString 2 freqvars) (obs ds))).
Proof.
  unfold frequency_table, sort_dataset, set_obs. cbn [obs]. f_equal.
  set (f0 := add_dataset _ 2 freqvars).
  rewrite (for_loop_ext 0 (ds_n ds) _
             (fun i freq => (fun row freq => freq_add freq (vget row var) (obs_weight ds row))
                              (default [] (obs ds !! i)) freq)).
  2:{ intros i s Hi. cbv beta. rewrite vget_row. unfold obs_weight.
      destruct (weight ds); [by rewrite vget_row|done]. }
  unfold ds_n.
  rewrite (for_loop_foldl (fun row freq => freq_add freq (vget row var) (obs_weight ds row))).
  by apply fold_freq_add_ext.
Qed.

Lemma tabulate_row_freqs (ds : dataset D) (mdl : model D) (row : list D)
    (st : tab_state D) (j : nat) :
  let nv := numiv mdl in
  let var := if (j <? nv)%nat then default 0 (iv mdl !! j) else dv mdl in
  j <= nv ->
  t_freqs (tabulate_row ds mdl row st) !! j
  = (fun f => if obs_weight ds row .> d0
              then freq_add f (vget row var) (obs_weight ds row) else f)
      <$> (t_freqs st !! j).
Proof.
  intros nv var Hj. unfold tabulate_row.
  destruct (obs_weight ds row .> d0) eqn:Hpos.
  - pose proof (tabulate_vars_all mdl row (obs_weight ds row) (t_freqs st) (t_obs st) j Hj)
      as Hv. cbv zeta in Hv. fold nv in Hv.
    destruct (tabulate_vars mdl row (obs_weight ds row) (t_freqs st) (t_obs st)) as [fr o].
    destruct (xtab_add (t_xtab st) o (numiv mdl) (obs_weight ds row)) as [xt' o'].
    cbn [t_freqs fst] in *. rewrite Hv. unfold var. by destruct (j <? nv)%nat.
  - by destruct (t_freqs st !! j).
Qed.

Lemma tabulate_rows_freqs (ds : dataset D) (mdl : model D) (rows : list (list D)) (j : nat) :
  let nv := numiv mdl in
  let var := if (j <? nv)%nat then default 0 (iv mdl !! j) else dv mdl in
  j <= nv ->
  forall st : tab_state D,
  t_freqs (foldl (fun st row => tabulate_row ds mdl row st) st rows) !! j
  = (fun f => foldl (fun f row => if obs_weight ds row .> d0
                                  then freq_add f (vget row var) (obs_weight ds row) else f)
                f rows)
      <$> (t_freqs st !! j).
Proof.
  intros nv var Hj. induction rows as [|row rows IH]; intros st; cbn [foldl].
  - by destruct (t_freqs st !! j).
  - rewrite IH. rewrite (tabulate_row_freqs ds mdl row st j Hj). fold nv. fold var.
    by destruct (t_freqs st !! j).
Qed.

End FrequencyTables.

Section FrequencyTheorems.
Context {D : Type} `{Double D}.

(** The frequency table that [tabulate] builds for a variable of the model
    has the rows of the table that [frequency_table] builds for that
    variable from the observations of positive weight. *)
Theorem tabulate_frequency_tables (ds : dataset D) (mdl : model D) (j : nat) :
  j <= numiv mdl ->
  let positive := List.filter (fun row => obs_weight ds row .> d0) (obs ds) in
  let var := if (j <? numiv mdl)%nat then default 0 (iv mdl !! j) else dv mdl in
  freq_obs (tabulate ds mdl) j = obs (frequency_table (set_obs ds positive) var).
Proof.
  intros Hj positive var. rewrite frequency_table_foldl.
  unfold freq_obs, tabulate. rewrite tabulate_foldl.
  unfold set_tables. cbn [freqs].
  set (st0 := {| t_freqs := _; t_xtab := _; t_obs := _ |}).
  destruct (for_loop_alter (fun f : dataset D => sort_dataset f 1) (1 + numiv mdl)
              (t_freqs (foldl (fun st row => tabulate_row ds mdl row st) st0 (obs ds))))
    as [_ Hget].
  rewrite Hget by lia.
  rewrite (tabulate_rows_freqs ds mdl (obs ds) j Hj). fold var.
  assert (H0 : exists h, t_freqs st0 !! j = Some (add_dataset h 2 freqvars)).
  { unfold st0. cbn [t_freqs]. destruct (decide (j = numiv mdl)) as [->|Hne].
    - eexists. rewrite lookup_app_r by (rewrite length_replicate; lia).
      by rewrite length_replicate, Nat.sub_diag.
    - eexists. rewrite lookup_app_l by (rewrite length_replicate; lia).
      apply lookup_replicate_2. lia. }
  destruct H0 as [h ->]. cbn [fmap option_fmap option_map].
  unfold sort_dataset, set_obs. cbn [obs]. f_equal.
  rewrite <- (foldl_filter
                (fun f row => if obs_weight ds row .> d0
                              then freq_add f (vget row var) (obs_weight ds row) else f)
                (fun row => obs_weight ds row .> d0)).
  2:{ intros row f Hneg. by rewrite Hneg. }
  fold positive.
  assert (Hpos : Forall (fun row => (obs_weight ds row .> d0) = true) positive).
  { apply Forall_forall. intros row Hin. apply list_elem_of_In in Hin.
    by apply filter_In in Hin as [_ ?]. }
  assert (Hgen : forall rows, Forall (fun row => (obs_weight ds row .> d0) = true) rows ->
            forall f f', obs f = obs f' -> nvars f = nvars f' ->
            obs (foldl (fun f row => if obs_weight ds row .> d0
                                     then freq_add f (vget row var) (obs_weight ds row)
                                     else f) f rows)
            = obs (foldl (fun f row => freq_add f (vget row var) (obs_weight ds row))
                     f' rows)).
  { intros rows Hrows. induction Hrows as [|row rows Hrow _ IH]; intros f f' Ho Hn; [done|].
    cbn [foldl]. rewrite Hrow.
    destruct (freq_add_obs_ext f f' (vget row var) (obs_weight ds row) Ho Hn).
    by apply IH. }
  change (fun f row => freq_add f (vget row var) (obs_weight (set_obs ds positive) row))
    with (fun f row => freq_add f (vget row var) (obs_weight ds row)).
  cbn [obs set_obs].
  by apply Hgen.
Qed.

End FrequencyTheorems.

Section FrequencyTotals.
Context {D : Type} `{Double D}.

(** The key of an entry after [freq_add] is the key of an entry before it,
    or the value added. *)
Lemma freq_add_keys (f : dataset D) (t w : D) (r' : list D) :
  nvars f = 2 -> r' ∈ obs (freq_add f t w) ->
  (exists r, r ∈ obs f /\ vget r' 0 = vget r 0) \/ vget r' 0 = t.
Proof.
  intros Hnv. unfold freq_add.
  destruct (freq_search f t) as [k|]; unfold add_observation, set_obs; cbn [obs].
  - intros Hin. left. apply list_elem_of_lookup in Hin as [i Hi].
    destruct (decide (i = k)) as [->|Hne].
    + rewrite lookup_mset_eq in Hi. destruct (obs f !! k) as [r|] eqn:Hr; [|done].
      injection Hi as <-. exists r. split; [by apply list_elem_of_lookup_2 in Hr|].
      by rewrite vget_insert_ne.
    + rewrite lookup_mset_ne in Hi by done. exists r'.
      split; [by apply list_elem_of_lookup_2 in Hi|done].
  - rewrite Hnv. intros Hin. apply elem_of_app in Hin as [Hin|Hin].
    + left. by exists r'.
    + right. apply list_elem_of_singleton in Hin as ->. done.
Qed.

Hypothesis exact : exact_arithmetic.

(** The weight added is added to the sum of the frequencies. *)
Lemma freq_add_sum (f : dataset D) (t w : D) :
  nvars f = 2 -> Forall (fun r => length r = 2) (obs f) ->
  Forall (fun r => length r = 2) (obs (freq_add f t w)) /\
  sumD (map (fun r => vget r 1) (obs (freq_add f t w)))
  = sumD (map (fun r => vget r 1) (obs f)) .+ w.
Proof using exact.
  intros Hnv Hlen. unfold freq_add.
  pose proof (freq_search_spec f t) as Hs.
  destruct (freq_search f t) as [k|]; unfold add_observation, set_obs; cbn [obs].
  - destruct Hs as (Hk & _). unfold ds_n in Hk.
    destruct (lookup_lt_is_Some_2 (obs f) k Hk) as [row Hrow].
    assert (Hrowlen : length row = 2).
    { rewrite Forall_forall in Hlen. apply Hlen. by apply list_elem_of_lookup_2 in Hrow. }
    split.
    + apply (shape_mset _ (length (obs f)) 2). by split.
    + rewrite (col_mset_eq _ _ _ _ row) by (done || lia).
      rewrite <- vget_col. apply sumD_insert; [done|]. by rewrite length_map.
  - rewrite Hnv. split.
    + apply Forall_app. split; [done|]. by apply Forall_singleton.
    + rewrite map_app. cbn [map seq]. by rewrite sumD_snoc.
Qed.

Lemma fold_freq_add_inv (ds : dataset D) (var : nat) (rows : list (list D)) :
  forall f : dataset D,
  nvars f = 2 -> Forall (fun r => length r = 2) (obs f) ->
  let f' := foldl (fun f row => freq_add f (vget row var) (obs_weight ds row)) f rows in
  nvars f' = 2 /\ Forall (fun r => length r = 2) (obs f') /\
  sumD (map (fun r => vget r 1) (obs f'))
  = sumD (map (fun r => vget r 1) (obs f)) .+ sumD (map (obs_weight ds) rows) /\
  (forall v, covers f v -> covers f' v) /\
  (forall row, row ∈ rows -> covers f' (vget row var)) /\
  (forall r', r' ∈ obs f' ->
     (exists r, r ∈ obs f /\ vget r' 0 = vget r 0) \/
     (exists row, row ∈ rows /\ vget r' 0 = vget row var)).
Proof using exact.
  induction rows as [|row rows IH]; intros f Hnv Hlen; cbn [foldl].
  - cbv zeta. split; [done|]. split; [done|]. split.
    { unfold sumD at 3. cbn [map foldr]. by rewrite dadd_0_r. }
    split; [done|]. split.
    + intros row Hin. by apply elem_of_nil in Hin.
    + intros r' Hin. left. by exists r'.
  - destruct (freq_add_sum f (vget row var) (obs_weight ds row) Hnv Hlen) as [Hlen1 Hsum1].
    pose proof (freq_add_nvars f (vget row var) (obs_weight ds row)) as Hnv1.
    rewrite Hnv in Hnv1.
    destruct (IH _ Hnv1 Hlen1) as (Hn & Hl & Hs & Hold & Hnew & Hkeys).
    split; [done|]. split; [done|]. split; [|split; [|split]].
    + rewrite Hs, Hsum1. cbn [map]. unfold sumD at 4. cbn [foldr].
      fold (sumD (map (obs_weight ds) rows)). by rewrite dadd_assoc.
    + intros v Hv. apply Hold. by apply freq_add_covers_old.
    + intros row' Hin. apply elem_of_cons in Hin as [->|Hin]; [|by apply Hnew].
      apply Hold. apply freq_add_covers_new; [done|]. by apply deqb_refl.
    + intros r' Hin. destruct (Hkeys r' Hin) as [(r & Hr & Heq)|(row' & Hrow' & Heq)].
      * destruct (freq_add_keys f _ _ r Hnv Hr) as [(r0 & Hr0 & Heq0)|Heq0].
        -- left. exists r0. split; [done|congruence].
        -- right. exists row. split; [apply list_elem_of_here|congruence].
      * right. exists row'. split; [by apply list_elem_of_further|done].
Qed.

End FrequencyTotals.

Section FrequencyTableTheorem.
Context {D : Type} `{Double D}.


End FrequencyTableTheorem.

Section FrequencyWitnesses.
#[local] Existing Instance exact_Z.


End FrequencyWitnesses.

(** Scenario 1: the table of the first main effect. *)
Lemma tabulate_frequency_tables_witness :
  freq_obs (tabulate scenario1_data scenario1_model) 0
  = obs (frequency_table
           (set_obs scenario1_data
              (List.filter (fun row => obs_weight scenario1_data row .> d0)
                 (obs scenario1_data)))
           (default 0 (iv scenario1_model !! 0))).
Proof.
  apply (tabulate_frequency_tables scenario1_data scenario1_model 0).
  vm_compute. lia.
Defined.

(* ================================================================== *)
(** * Finding and comparing observations *)

Section ObservationTheorems.
Context {D : Type} `{Double D}.

(** An observation that has been added is found again, at its own row or at
    an earlier row that matches it, where each of the values searched for
    equals itself. *)
Theorem find_observation_added (ds : dataset D) (o : list D) (n : nat) :
  n <= nvars ds ->
  (forall j, j < n -> (vget o j .== vget o j) = true) ->
  exists i,
    find_observation (add_observation ds o) o n = Some i /\
    i <= ds_n ds /\
    (forall j, j < n -> (vget o j .== mget (obs (add_observation ds o)) i j) = true) /\
    (forall i', i' < i ->
       ~ forall j, j < n -> (vget o j .== mget (obs ds) i' j) = true).
Proof.
  intros Hn Hrefl.
  pose proof (find_observation_spec (add_observation ds o) o n) as Hs.
  assert (Hlen : ds_n (add_observation ds o) = ds_n ds + 1).
  { unfold ds_n, add_observation, set_obs. cbn [obs]. rewrite length_app. done. }
  assert (Hnew : obs_match o (default [] (obs (add_observation ds o) !! ds_n ds)) n = true).
  { apply obs_match_spec. intros j Hj.
    unfold add_observation, set_obs, ds_n. cbn [obs].
    rewrite list_lookup_middle by done. cbn [default from_option id].
    unfold vget at 2. change (map (vget o) (seq 0 (nvars ds))) with (vget o <$> seq 0 (nvars ds)).
    rewrite list_lookup_fmap, lookup_seq_lt by lia. cbn.
    by apply Hrefl. }
  destruct (find_observation (add_observation ds o) o n) as [i|].
  - destruct Hs as (Hi & Hm & Hfirst). exists i. split; [done|]. split; [lia|]. split.
    + intros j Hj. rewrite <- vget_row.
      by apply (proj1 (obs_match_spec _ _ _) Hm).
    + intros i' Hi' Hall. specialize (Hfirst i' Hi').
      assert (Hm' : obs_match o (default [] (obs (add_observation ds o) !! i')) n = true).
      { apply obs_match_spec. intros j Hj. rewrite vget_row.
        unfold add_observation, set_obs. cbn [obs]. unfold mget.
        rewrite lookup_app_l by (unfold ds_n in *; lia). by apply Hall. }
      congruence.
  - specialize (Hs (ds_n ds) ltac:(lia)). congruence.
Qed.

(** [compare_obs] answers -1, 0 or 1: the comparison of the two rows in the
    first of the [sort_columns] columns in which they differ, and, where
    they differ in none of them, in the column after the sort columns. *)
Theorem compare_obs_spec (sort_columns : nat) (a b : list D) :
  let c := compare_obs sort_columns a b in
  (c = (-1)%Z \/ c = 0%Z \/ c = 1%Z) /\
  exists i, i <= sort_columns /\
    (forall j, j < i -> (vget a j .== vget b j) = true) /\
    (i < sort_columns -> (vget a i .== vget b i) = false) /\
    c = (Z.b2z (vget a i .> vget b i) - Z.b2z (vget a i .< vget b i))%Z.
Proof.
  intros c. subst c. unfold compare_obs.
  pose proof (for_ret_ind
    (fun i (_ : unit) => forall j, j < i -> (vget a j .== vget b j) = true)
    (fun i => i < sort_columns /\ (vget a i .== vget b i) = false /\
              forall j, j < i -> (vget a j .== vget b j) = true)
    0 sort_columns
    (fun i (_ : unit) => if vget a i .== vget b i then inl tt else inr i) tt
    (Nat.le_0_l _)) as Hloop.
  assert (H0 : forall j, j < 0 -> (vget a j .== vget b j) = true) by (intros; lia).
  specialize (Hloop H0). clear H0.
  assert (Hstep : forall i (s : unit), 0 <= i < sort_columns ->
            (forall j, j < i -> (vget a j .== vget b j) = true) ->
            match (if vget a i .== vget b i then inl tt else inr i) with
            | inl _ => forall j, j < Datatypes.S i -> (vget a j .== vget b j) = true
            | inr i => i < sort_columns /\ (vget a i .== vget b i) = false /\
                       forall j, j < i -> (vget a j .== vget b j) = true
            end).
  { intros i [] Hi Hprev. destruct (vget a i .== vget b i) eqn:Heq.
    - intros j Hj. destruct (decide (j = i)) as [->|]; [done|]. apply Hprev. lia.
    - split; [lia|]. split; [done|done]. }
  specialize (Hloop Hstep). clear Hstep.
  split.
  - destruct (for_ret 0 sort_columns _ tt) as [[]|i];
      destruct (_ .> _), (_ .< _); cbn; lia.
  - destruct (for_ret 0 sort_columns _ tt) as [[]|i].
    + exists sort_columns. split; [done|]. split; [done|]. split; [lia|done].
    + destruct Hloop as (Hi & Hne & Hprev). exists i.
      split; [lia|]. split; [done|]. split; [done|done].
Qed.

End ObservationTheorems.

(** In binary64 an observation that holds a NaN among the values searched
    for is found in no dataset. *)
Theorem find_observation_nan (ds : dataset float) (o : list float) (n j : nat) :
  j < n -> PrimFloat.is_nan (vget o j) = true ->
  find_observation ds o n = None.
Proof.
  intros Hj Hnan.
  pose proof (find_observation_spec ds o n) as Hs.
  destruct (find_observation ds o n) as [i|]; [|done].
  destruct Hs as (_ & Hm & _).
  pose proof (proj1 (obs_match_spec _ _ _) Hm j Hj) as Heq.
  apply binary64_eqb_iff in Heq as [[_ Hn]|[Hz _]]; [congruence|].
  exfalso. unfold PrimFloat.is_nan, PrimFloat.is_zero in *.
  rewrite FloatAxioms.eqb_spec in Hnan, Hz.
  destruct (Prim2SF (vget o j)) as [s|s| |s m e]; try discriminate Hz;
    try (destruct s; discriminate Hz); try (destruct s; discriminate Hnan).
Qed.

(** A row of two values is found after it has been added to an empty
    table. *)
Lemma find_observation_added_witness :
  find_observation (add_observation (add_dataset "t" 2 ["a"; "b"]%string) [3; 4]%float)
    [3; 4]%float 2 = Some 0.
Proof.
  destruct (find_observation_added (add_dataset "t" 2 ["a"; "b"]%string) [3; 4]%float 2)
    as (i & Hfind & Hi & _).
  - reflexivity.
  - intros j Hj. destruct j as [|[|j]]; [reflexivity|reflexivity|lia].
  - rewrite Hfind. f_equal. unfold ds_n in Hi. cbn in Hi. lia.
Defined.

(** A row with a NaN is not found in the table it has been added to. *)
Lemma find_observation_nan_witness :
  find_observation (add_observation (add_dataset "t" 2 ["a"; "b"]%string) [nan; 4]%float)
    [nan; 4]%float 2 = None.
Proof.
  apply (find_observation_nan _ _ 2 0); [lia|reflexivity].
Defined.

(* ================================================================== *)
(** * The layout of the columns and their labels *)

Section LayoutFacts.
Context {D : Type} `{Double D}.

Lemma interaction_start_S (mdl : model D) (i : nat) :
  interaction_start mdl (Datatypes.S i)
  = interaction_start mdl i + interaction_span mdl i.
Proof.
  unfold interaction_start. rewrite seq_S, sum_list_with_app. simpl. lia.
Qed.

Lemma interaction_start_mono (mdl : model D) (i i' : nat) :
  i <= i' -> interaction_start mdl i <= interaction_start mdl i'.
Proof.
  induction 1 as [|i' Hle IH]; [done|]. rewrite interaction_start_S. lia.
Qed.

(** The columns of an interaction of a tabulated model are not negative in
    number. *)
Lemma interaction_columns_nonneg (mdl : model D) (i : nat) :
  tabulated mdl = true -> (0 <= interaction_columns mdl i)%Z.
Proof.
  intros Ht. apply tabulated_spec in Ht as (_ & Hfreq & Hints).
  rewrite interaction_columns_spec.
  destruct (ints mdl !! i) as [terms|] eqn:Hterms; [|simpl; lia]. cbn [default].
  assert (Hall : forall t, t ∈ terms -> (0 <= spec_term_columns mdl t)%Z).
  { intros t Hin.
    specialize (Hints terms t (list_elem_of_lookup_2 _ _ _ Hterms) Hin).
    unfold spec_term_columns, freq_n_term, zlookup.
    destruct (direct_term mdl t =? 0)%Z; [|lia].
    destruct (t <? 0)%Z eqn:Hneg; [lia|].
    specialize (Hfreq (Z.to_nat t) ltac:(lia)). unfold freq_n in Hfreq.
    destruct (freqs mdl !! Z.to_nat t); lia. }
  clear -Hall. induction terms as [|t terms IH]; simpl; [lia|].
  apply Z.mul_nonneg_nonneg.
  - apply Hall. left.
  - apply IH. intros t' Hin. apply Hall. by right.
Qed.

(** K is the column after the block of the last interaction. *)
Lemma count_columns_layout (mdl : model D) :
  tabulated mdl = true ->
  Z.to_nat (count_columns mdl) = interaction_start mdl (numints mdl).
Proof.
  intros Ht. pose proof (tabulated_spec mdl Ht) as (_ & Hfreq & _).
  unfold count_columns.
  assert (Hmain : forall j, j <= numiv mdl ->
            for_loop 0 j (fun i K =>
              if negb (direct_at mdl i =? 0)%Z then (K + 1)%Z
              else (K + (Z.of_nat (freq_n mdl i) - 1))%Z) 1%Z
            = Z.of_nat (main_start mdl j)).
  { induction j as [|j IH]; intros Hj; [done|].
    rewrite for_loop_last by lia. rewrite IH by lia. rewrite main_start_S.
    unfold main_span. specialize (Hfreq j ltac:(lia)).
    destruct (direct_at mdl j =? 0)%Z; cbn [negb]; lia. }
  rewrite (Hmain (numiv mdl)) by lia.
  assert (Hint : forall i, i <= numints mdl ->
            for_loop 0 i (fun i K => (K + interaction_columns mdl i)%Z)
              (Z.of_nat (main_start mdl (numiv mdl)))
            = Z.of_nat (interaction_start mdl i)).
  { induction i as [|i IH]; intros Hi.
    - rewrite for_loop_empty by done. unfold interaction_start.
      cbn [seq sum_list_with]. f_equal. lia.
    - rewrite for_loop_last by lia. rewrite IH by lia. rewrite interaction_start_S.
      unfold interaction_span. pose proof (interaction_columns_nonneg mdl i Ht). lia. }
  rewrite (Hint (numints mdl)) by lia. lia.
Qed.

(** A run of [m] labels written from position [k0]. *)
Lemma label_run (name : string) (m : nat) (Xl : list string) (k0 : nat) :
  let res := for_loop 0 m (fun (_ : nat) '(Xl, k) => (<[k := name]> Xl, k + 1)) (Xl, k0) in
  res.2 = k0 + m /\ length res.1 = length Xl /\
  (forall c, c < k0 \/ k0 + m <= c -> res.1 !! c = Xl !! c) /\
  (forall c, c < m -> k0 + c < length Xl -> res.1 !! (k0 + c) = Some name).
Proof.
  intros res. subst res.
  apply (for_loop_ind (fun n (st : list string * nat) =>
    st.2 = k0 + n /\ length st.1 = length Xl /\
    (forall c, c < k0 \/ k0 + n <= c -> st.1 !! c = Xl !! c) /\
    (forall c, c < n -> k0 + c < length Xl -> st.1 !! (k0 + c) = Some name))); [lia| |].
  - cbn [fst snd]. split; [lia|]. split; [done|]. split; [done|]. intros c Hc. lia.
  - intros n [Xl' k] Hn (Hk & Hlen & Hframe & Hval). cbn [fst snd] in *. subst k.
    rewrite length_insert. split; [lia|]. split; [done|]. split.
    + intros c Hc. rewrite list_lookup_insert_ne by lia. apply Hframe. lia.
    + intros c Hc Hlt. destruct (decide (c = n)) as [->|Hne].
      * apply list_lookup_insert_eq. lia.
      * rewrite list_lookup_insert_ne by lia. apply Hval; lia.
Qed.

End LayoutFacts.

Section LabelTheorem.
Context {D : Type} `{Double D}.

(** The labels of the columns of X follow the layout of the columns:
    "Intercept" for column 0, the name of a main effect for each column of
    its block, and the name of an interaction for each column of its
    block. *)
Theorem labels_spec (opts : options) (mdl : model D) :
  tabulated mdl = true ->
  let L := d_Xlabels (build_design opts mdl) in
  length L = Z.to_nat (count_columns mdl) /\
  L !! 0 = Some "Intercept"%string /\
  (forall j k, j < numiv mdl -> k < main_span mdl j ->
     L !! (main_start mdl j + k) = Some (default EmptyString (ivnames mdl !! j))) /\
  (forall i c, i < numints mdl -> c < interaction_span mdl i ->
     L !! (interaction_start mdl i + c) = Some (default EmptyString (intnames mdl !! i))).
Proof.
  intros Ht L. subst L.
  assert (HL : d_Xlabels (build_design opts mdl) = labels mdl (Z.to_nat (count_columns mdl))).
  { unfold build_design. by destruct (column_layout mdl (nvars (xtab mdl))) as [[? ?] ?]. }
  rewrite HL. clear HL.
  pose proof (count_columns_layout mdl Ht) as HK.
  set (K := Z.to_nat (count_columns mdl)) in *.
  assert (Hone : forall j, 1 <= main_start mdl j) by (intros j; unfold main_start; lia).
  assert (Hfit : main_start mdl (numiv mdl) <= K).
  { rewrite HK. unfold interaction_start. lia. }
  unfold labels.
  set (L0 := <[0 := "Intercept"%string]> (replicate K EmptyString)).
  assert (HL0 : length L0 = K) by (unfold L0; by rewrite length_insert, length_replicate).
  assert (H00 : L0 !! 0 = Some "Intercept"%string).
  { unfold L0. apply list_lookup_insert_eq. rewrite length_replicate.
    specialize (Hone (numiv mdl)). lia. }
  (* the main effects *)
  set (body1 := fun (i : nat) '(Xl, k) => _).
  assert (Hmain : let st := for_loop 0 (numiv mdl) body1 (L0, 1) in
            st.2 = main_start mdl (numiv mdl) /\ length st.1 = K /\
            st.1 !! 0 = Some "Intercept"%string /\
            forall j k, j < numiv mdl -> k < main_span mdl j ->
              st.1 !! (main_start mdl j + k)
              = Some (default EmptyString (ivnames mdl !! j))).
  { apply (for_loop_ind (fun i (st : list string * nat) =>
      st.2 = main_start mdl i /\ length st.1 = K /\
      st.1 !! 0 = Some "Intercept"%string /\
      forall j k, j < i -> k < main_span mdl j ->
        st.1 !! (main_start mdl j + k) = Some (default EmptyString (ivnames mdl !! j))));
      [lia| |].
    - cbn [fst snd]. split; [done|]. split; [done|]. split; [done|]. intros j k Hj. lia.
    - intros i [Xl k] Hi (Hk & Hlen & H0 & Hval). cbn [fst snd] in Hk, Hlen, H0, Hval.
      subst k. unfold body1.
      pose proof (main_start_S mdl i) as HS.
      pose proof (main_start_mono mdl (Datatypes.S i) (numiv mdl) ltac:(lia)) as Hmono.
      pose proof (Hone i) as Hi1.
      assert (Hblock : forall j k, j < i -> k < main_span mdl j ->
                main_start mdl j + k < main_start mdl i).
      { intros j k Hj Hk.
        pose proof (main_start_mono mdl (Datatypes.S j) i ltac:(lia)) as Hm.
        pose proof (main_start_S mdl j). lia. }
      destruct (direct_at mdl i =? 0)%Z eqn:Hdir; cbn [negb].
      + pose proof (label_run (default EmptyString (ivnames mdl !! i)) (freq_n mdl i - 1)
                      Xl (main_start mdl i)) as Hrun.
        cbv zeta in Hrun. destruct Hrun as (Hk' & Hlen' & Hframe & Hnew).
        unfold main_span in HS. rewrite Hdir in HS.
        split; [rewrite Hk'; lia|]. split; [by rewrite Hlen'|]. split.
        * rewrite Hframe by lia. done.
        * intros j k Hj Hk. destruct (decide (j = i)) as [->|Hne].
          -- unfold main_span in Hk. rewrite Hdir in Hk. apply Hnew; [done|lia].
          -- rewrite Hframe by (left; apply Hblock; [lia|done]). apply Hval; [lia|done].
      + cbn [fst snd]. unfold main_span in HS. rewrite Hdir in HS.
        rewrite length_insert. split; [lia|]. split; [done|]. split.
        * rewrite list_lookup_insert_ne by lia. done.
        * intros j k Hj Hk. destruct (decide (j = i)) as [->|Hne].
          -- unfold main_span in Hk. rewrite Hdir in Hk. replace k with 0 by lia.
             rewrite Nat.add_0_r. apply list_lookup_insert_eq. lia.
          -- pose proof (Hblock j k ltac:(lia) Hk).
             rewrite list_lookup_insert_ne by lia. apply Hval; [lia|done]. }
  cbv zeta in Hmain.
  destruct (for_loop 0 (numiv mdl) body1 (L0, 1)) as [L1 k1].
  cbn [fst snd] in Hmain. destruct Hmain as (-> & HL1 & H10 & Hmain).
  (* the interactions *)
  set (body2 := fun (i : nat) '(Xl, xc) => _).
  assert (Hints : let st := for_loop 0 (numints mdl) body2 (L1, main_start mdl (numiv mdl)) in
            length st.1 = K /\
            (forall c, c < main_start mdl (numiv mdl) -> st.1 !! c = L1 !! c) /\
            forall i c, i < numints mdl -> c < interaction_span mdl i ->
              st.1 !! (interaction_start mdl i + c)
              = Some (default EmptyString (intnames mdl !! i))).
  { assert (Hgoal : let st := for_loop 0 (numints mdl) body2
                                (L1, main_start mdl (numiv mdl)) in
              st.2 = interaction_start mdl (numints mdl) /\ length st.1 = K /\
              (forall c, c < main_start mdl (numiv mdl) -> st.1 !! c = L1 !! c) /\
              forall i c, i < numints mdl -> c < interaction_span mdl i ->
                st.1 !! (interaction_start mdl i + c)
                = Some (default EmptyString (intnames mdl !! i))).
    2:{ cbv zeta in *. by destruct Hgoal as (_ & ? & ? & ?). }
    apply (for_loop_ind (fun i (st : list string * nat) =>
      st.2 = interaction_start mdl i /\ length st.1 = K /\
      (forall c, c < main_start mdl (numiv mdl) -> st.1 !! c = L1 !! c) /\
      forall i' c, i' < i -> c < interaction_span mdl i' ->
        st.1 !! (interaction_start mdl i' + c)
        = Some (default EmptyString (intnames mdl !! i')))); [lia| |].
    - cbn [fst snd]. split; [unfold interaction_start; cbn [seq sum_list_with]; lia|].
      split; [done|]. split; [done|]. intros i' c Hi'. lia.
    - intros i [Xl xc] Hi (Hxc & Hlen & Hframe & Hval). cbn [fst snd] in Hxc, Hlen, Hframe, Hval.
      subst xc. unfold body2.
      pose proof (label_run (default EmptyString (intnames mdl !! i))
                    (Z.to_nat (interaction_columns mdl i)) Xl (interaction_start mdl i))
        as Hrun.
      cbv zeta in Hrun. destruct Hrun as (Hk' & Hlen' & Hfr & Hnew).
      pose proof (interaction_start_S mdl i) as HS. unfold interaction_span in HS.
      pose proof (interaction_start_mono mdl (Datatypes.S i) (numints mdl) ltac:(lia)) as Hm.
      pose proof (interaction_start_mono mdl 0 i ltac:(lia)) as Hm0.
      assert (Hs0 : interaction_start mdl 0 = main_start mdl (numiv mdl)).
      { unfold interaction_start. cbn [seq sum_list_with]. lia. }
      split; [rewrite Hk'; lia|]. split; [by rewrite Hlen'|]. split.
      + intros c Hc. rewrite Hfr by lia. by apply Hframe.
      + intros i' c Hi' Hc. destruct (decide (i' = i)) as [->|Hne].
        * apply Hnew; [done|]. unfold interaction_span in Hc. lia.
        * pose proof (interaction_start_mono mdl (Datatypes.S i') i ltac:(lia)) as Hm'.
          pose proof (interaction_start_S mdl i').
          rewrite Hfr by lia. apply Hval; [lia|done]. }
  cbv zeta in Hints. destruct Hints as (Hlen & Hframe & Hint).
  split; [done|]. split; [|split; [|done]].
  - rewrite Hframe by (specialize (Hone (numiv mdl)); lia). done.
  - intros j k Hj Hk.
    pose proof (main_start_mono mdl (Datatypes.S j) (numiv mdl) ltac:(lia)) as Hm.
    pose proof (main_start_S mdl j).
    rewrite Hframe by lia. by apply Hmain.
Qed.

End LabelTheorem.

(** Scenario 5, [logreg d y = a b a*b] with 3 and 4 levels: the label of
    the first of the six columns of the interaction. *)
Lemma labels_spec_witness :
  d_Xlabels (build_design init_options (tabulate scenario5_data scenario5_model)) !! 6
  = Some "a*b"%string.
Proof.
  destruct (labels_spec init_options (tabulate scenario5_data scenario5_model))
    as (_ & _ & _ & Hint).
  - reflexivity.
  - apply (Hint 0 0); vm_compute; lia.
Defined.

(* ================================================================== *)
(** * The columns of the interactions *)

Section Odometer.
Variable sp : nat -> nat.

Lemma offset_upto_ext (d d' : nat -> nat) (n : nat) :
  (forall k, k < n -> d k = d' k) -> offset_upto sp d n = offset_upto sp d' n.
Proof.
  induction n as [|n IH]; intros Hd; [done|].
  cbn [offset_upto]. rewrite IH by (intros; apply Hd; lia). by rewrite Hd by lia.
Qed.

Lemma prod_upto_pos (n : nat) : (forall k, k < n -> 1 <= sp k) -> 1 <= prod_upto sp n.
Proof.
  induction n as [|n IH]; intros Hsp; [done|].
  cbn [prod_upto]. specialize (IH ltac:(intros; apply Hsp; lia)).
  specialize (Hsp n ltac:(lia)). nia.
Qed.

(** The number of a choice is below the number of choices. *)
Lemma offset_upto_bound (d : nat -> nat) (n : nat) :
  (forall k, k < n -> d k < sp k) -> offset_upto sp d n < prod_upto sp n.
Proof.
  induction n as [|n IH]; intros Hd; [cbn; lia|].
  cbn [offset_upto prod_upto]. specialize (IH ltac:(intros; apply Hd; lia)).
  specialize (Hd n ltac:(lia)). nia.
Qed.

(** Two choices of the same number are the same choice. *)
Lemma offset_upto_inj (d d' : nat -> nat) (n : nat) :
  (forall k, k < n -> d k < sp k) -> (forall k, k < n -> d' k < sp k) ->
  offset_upto sp d n = offset_upto sp d' n ->
  forall k, k < n -> d k = d' k.
Proof.
  induction n as [|n IH]; intros Hd Hd' Heq k Hk; [lia|].
  cbn [offset_upto] in Heq.
  pose proof (Hd n ltac:(lia)). pose proof (Hd' n ltac:(lia)).
  assert (Hboth : offset_upto sp d n = offset_upto sp d' n /\ d n = d' n).
  { apply (Nat.div_mod_unique (sp n)); [done|done|lia]. }
  destruct Hboth as [Hq Hr].
  destruct (decide (k = n)) as [->|Hne]; [done|].
  apply IH; [intros; apply Hd; lia|intros; apply Hd'; lia|done|lia].
Qed.

End Odometer.

Section OdometerLoop.
Variable sp : nat -> nat.

Lemma next_choice_done (hi : nat) (idx : list nat) :
  next_choice sp hi idx true = (idx, true).
Proof.
  unfold next_choice. induction hi as [|hi IH]; [done|]. cbn [for_down negb]. apply IH.
Qed.

Lemma choice_of_insert_ne (idx : list nat) (i k v : nat) :
  i <> k -> choice_of (<[i := v]> idx) k = choice_of idx k.
Proof. intros Hne. unfold choice_of. by rewrite list_lookup_insert_ne. Qed.

(** The counters move to the choice of the next number, and the flag says
    whether there is one. *)
Lemma next_choice_spec (hi : nat) :
  forall idx : list nat,
  hi <= length idx ->
  (forall k, k < hi -> 1 <= default 0 (idx !! k) <= sp k) ->
  let res := next_choice sp hi idx false in
  length res.1 = length idx /\
  (forall k, hi <= k -> res.1 !! k = idx !! k) /\
  (forall k, k < hi -> 1 <= default 0 (res.1 !! k) <= sp k) /\
  (res.2 = true ->
   offset_upto sp (choice_of res.1) hi = offset_upto sp (choice_of idx) hi + 1) /\
  (res.2 = false ->
   offset_upto sp (choice_of idx) hi + 1 = prod_upto sp hi /\
   offset_upto sp (choice_of res.1) hi = 0).
Proof.
  induction hi as [|i IH]; intros idx Hlen Hwf.
  - cbn. split; [done|]. split; [done|]. split; [intros; lia|]. split; [done|]. done.
  - pose proof (Hwf i ltac:(lia)) as Hi.
    assert (Hunfold : next_choice sp (Datatypes.S i) idx false
                      = if (sp i <? default 0 (idx !! i) + 1)%nat
                        then next_choice sp i (<[i := 1]> idx) false
                        else next_choice sp i (<[i := default 0 (idx !! i) + 1]> idx) true).
    { unfold next_choice. cbn [for_down negb]. cbv zeta.
      by destruct (sp i <? default 0 (idx !! i) + 1)%nat. }
    rewrite Hunfold. clear Hunfold.
    destruct (sp i <? default 0 (idx !! i) + 1)%nat eqn:Hover.
    + apply Nat.ltb_lt in Hover.
      assert (Hwf1 : forall k, k < i -> 1 <= default 0 (<[i := 1]> idx !! k) <= sp k).
      { intros k Hk. rewrite list_lookup_insert_ne by lia. apply Hwf. lia. }
      specialize (IH (<[i := 1]> idx) ltac:(rewrite length_insert; lia) Hwf1).
      cbv zeta in IH. destruct (next_choice sp i (<[i := 1]> idx) false) as [idx' q].
      cbn [fst snd] in *. destruct IH as (Hl & Hfr & Hwf' & Ht & Hf).
      rewrite length_insert in Hl.
      assert (Hi' : idx' !! i = Some 1).
      { rewrite Hfr by lia. apply list_lookup_insert_eq. lia. }
      assert (Hext : offset_upto sp (choice_of (<[i := 1]> idx)) i
                     = offset_upto sp (choice_of idx) i).
      { apply offset_upto_ext. intros k Hk. apply choice_of_insert_ne. lia. }
      rewrite Hext in Ht, Hf.
      assert (Hc' : choice_of idx' i = 0) by (unfold choice_of; by rewrite Hi').
      assert (Hc : choice_of idx i + 1 = sp i) by (unfold choice_of; lia).
      split; [done|]. split; [|split; [|split]].
      * intros k Hk. rewrite Hfr by lia. apply list_lookup_insert_ne. lia.
      * intros k Hk. destruct (decide (k = i)) as [->|Hne].
        -- rewrite Hi'. cbn. lia.
        -- apply Hwf'. lia.
      * intros Hq. cbn [offset_upto]. rewrite (Ht Hq), Hc'. nia.
      * intros Hq. destruct (Hf Hq) as [HT H0]. cbn [offset_upto prod_upto].
        rewrite H0, <- HT, Hc'. split; nia.
    + apply Nat.ltb_ge in Hover. rewrite next_choice_done. cbn [fst snd].
      rewrite length_insert. split; [done|]. split; [|split; [|split]].
      * intros k Hk. apply list_lookup_insert_ne. lia.
      * intros k Hk. destruct (decide (k = i)) as [->|Hne].
        -- rewrite list_lookup_insert_eq by lia. cbn. lia.
        -- rewrite list_lookup_insert_ne by lia. apply Hwf. lia.
      * intros _. cbn [offset_upto].
        rewrite (offset_upto_ext sp (choice_of (<[i := default 0 (idx !! i) + 1]> idx))
                   (choice_of idx) i)
          by (intros k Hk; apply choice_of_insert_ne; lia).
        assert (Hc' : choice_of (<[i := default 0 (idx !! i) + 1]> idx) i
                      = choice_of idx i + 1).
        { unfold choice_of. rewrite list_lookup_insert_eq by lia.
          cbn [default from_option id]. lia. }
        rewrite Hc'. lia.
      * done.
Qed.

End OdometerLoop.

Section InteractionRound.
Context {D : Type} `{Double D}.

Lemma term_product_ext (X X' : list (list D)) (st st' d d' : nat -> nat) (tc r : nat) :
  (forall k, k < tc -> mget X' r (st' k + d' k) = mget X r (st k + d k)) ->
  term_product X' st' d' tc r = term_product X st d tc r.
Proof.
  intros Heq. unfold term_product. apply for_loop_ext.
  intros k tgt Hk. by rewrite Heq by lia.
Qed.

(** A column written row by row from values that do not depend on the
    column itself. *)
Lemma write_column (N K xc : nat) (g : nat -> list (list D) -> D) (X : list (list D)) :
  (forall j X1 X2, (forall c, c <> xc -> mget X1 j c = mget X2 j c) -> g j X1 = g j X2) ->
  shape X N K -> xc < K ->
  let X' := for_loop 0 N (fun j X => mset X j xc (g j X)) X in
  shape X' N K /\
  (forall r c, c <> xc \/ N <= r -> mget X' r c = mget X r c) /\
  (forall r, r < N -> mget X' r xc = g r X).
Proof.
  intros Hg Hs Hxc X'. subst X'.
  apply (for_loop_ind (fun n (Xn : list (list D)) =>
    shape Xn N K /\
    (forall r c, c <> xc \/ n <= r -> mget Xn r c = mget X r c) /\
    (forall r, r < n -> mget Xn r xc = g r X))); [lia| |].
  - split; [done|]. split; [done|]. intros r Hr. lia.
  - intros n Xn Hn (Hsn & Hframe & Hval). split; [by apply shape_mset|]. split.
    + intros r c Hrc. rewrite mget_mset_ne by lia. apply Hframe. lia.
    + intros r Hr. destruct (decide (r = n)) as [->|Hne].
      * rewrite (mget_mset_eq _ N K) by (done || lia).
        apply Hg. intros c Hc. apply Hframe. by left.
      * rewrite mget_mset_ne by lia. apply Hval. lia.
Qed.

(** One round of the loop [while (q)]: the column [xc] becomes the product
    of the columns that the counters choose, and the counters move on. *)
Lemma interaction_column_spec (mdl : model D) (N K : nat) (startcol colspan : list nat)
    (i : nat) (X : list (list D)) (xc : nat) (idx : list nat) :
  let tc := inttc mdl i in
  let st k := default 0 (zlookup startcol (term_at mdl i k)) in
  let sp k := default 0 (zlookup colspan (term_at mdl i k)) in
  shape X N K -> xc < K ->
  (forall k, k < tc -> 1 <= default 0 (idx !! k)) ->
  (forall k, k < tc -> st k + choice_of idx k < xc) ->
  let res := interaction_column mdl N startcol colspan i (X, xc, idx) in
  res.1.1.2 = xc + 1 /\
  shape res.1.1.1 N K /\
  (forall r c, c <> xc \/ N <= r -> mget res.1.1.1 r c = mget X r c) /\
  (forall r, r < N -> mget res.1.1.1 r xc = term_product X st (choice_of idx) tc r) /\
  (res.1.2, res.2) = next_choice sp tc idx false.
Proof.
  intros tc st sp Hs Hxc Hwf Hleft res. subst res. unfold interaction_column.
  fold tc. 
  change (for_down tc _ (idx, false)) with (next_choice sp tc idx false).
  destruct (next_choice sp tc idx false) as [idx' q]. cbn [fst snd].
  pose proof (write_column N K xc
    (fun j X => for_loop 0 tc (fun k tgt =>
                  tgt .* mget X j (st k + default 0 (idx !! k) - 1)) d1) X) as Hw.
  cbv zeta in Hw. destruct Hw as (Hs' & Hframe & Hval); [|done|done|].
  { intros j X1 X2 Heq. apply for_loop_ext. intros k tgt Hk.
    rewrite Heq; [done|]. specialize (Hwf k ltac:(lia)). specialize (Hleft k ltac:(lia)).
    unfold choice_of in Hleft. lia. }
  split; [done|]. split; [done|]. split; [done|]. split; [|done].
  intros r Hr. rewrite Hval by done. unfold term_product. apply for_loop_ext.
  intros k tgt Hk. specialize (Hwf k ltac:(lia)). unfold choice_of.
  by replace (st k + default 0 (idx !! k) - 1) with (st k + (default 0 (idx !! k) - 1)) by lia.
Qed.

End InteractionRound.

Section InteractionRounds.
Context {D : Type} `{Double D}.
Variables (mdl : model D) (N K : nat) (startcol colspan : list nat) (i : nat) (xc0 : nat).

Let tc := inttc mdl i.
Let st k := default 0 (zlookup startcol (term_at mdl i k)).
Let sp k := default 0 (zlookup colspan (term_at mdl i k)).

Hypothesis Hsources : forall k, k < tc -> st k + sp k <= xc0.
Hypothesis Hroom : xc0 + prod_upto sp tc <= K.

(** The rounds of the loop [while (q)] from the choice of number [n] on:
    each writes the column of its choice, and the loop ends after the last
    choice. *)
Lemma interaction_rounds (fuel : nat) :
  forall (n : nat) (X : list (list D)) (idx : list nat),
  shape X N K -> tc <= length idx ->
  (forall k, k < tc -> 1 <= default 0 (idx !! k) <= sp k) ->
  offset_upto sp (choice_of idx) tc = n ->
  prod_upto sp tc <= n + fuel -> 1 <= fuel ->
  let res := do_while fuel (interaction_column mdl N startcol colspan i) (X, xc0 + n, idx) in
  res.1.2 = xc0 + prod_upto sp tc /\
  shape res.1.1 N K /\
  (forall r c, c < xc0 + n \/ xc0 + prod_upto sp tc <= c \/ N <= r ->
     mget res.1.1 r c = mget X r c) /\
  (forall d, (forall k, k < tc -> d k < sp k) -> n <= offset_upto sp d tc ->
     forall r, r < N ->
       mget res.1.1 r (xc0 + offset_upto sp d tc) = term_product X st d tc r).
Proof using Hsources Hroom.
  induction fuel as [|fuel IH]; intros n X idx Hs Hlen Hwf Hn HT Hfuel; [lia|].
  assert (Hchoice : forall k, k < tc -> choice_of idx k < sp k).
  { intros k Hk. specialize (Hwf k Hk). unfold choice_of. lia. }
  pose proof (offset_upto_bound sp (choice_of idx) tc Hchoice) as Hbound.
  rewrite Hn in Hbound.
  pose proof (interaction_column_spec mdl N K startcol colspan i X (xc0 + n) idx Hs
                ltac:(lia)) as Hround.
  cbv zeta in Hround. fold tc in Hround. fold st in Hround. fold sp in Hround.
  specialize (Hround ltac:(intros k Hk; specialize (Hwf k Hk); lia)).
  specialize (Hround ltac:(intros k Hk; specialize (Hsources k Hk);
                            specialize (Hchoice k Hk); fold st; lia)).
  pose proof (next_choice_spec sp tc idx Hlen Hwf) as Hnext. cbv zeta in Hnext.
  cbn [do_while].
  destruct (interaction_column mdl N startcol colspan i (X, xc0 + n, idx))
    as [[[X1 xc1] idx1] q].
  cbn [fst snd] in Hround. destruct Hround as (Hxc1 & Hs1 & Hframe1 & Hval1 & Hidx).
  rewrite <- Hidx in Hnext. cbn [fst snd] in Hnext.
  destruct Hnext as (Hlen1 & _ & Hwf1 & Hq & Hnq). subst xc1.
  assert (Hcol : forall d, (forall k, k < tc -> d k < sp k) -> offset_upto sp d tc = n ->
            forall r, r < N -> mget X1 r (xc0 + n) = term_product X st d tc r).
  { intros d Hd Hdn r Hr. rewrite Hval1 by done. apply term_product_ext.
    intros k Hk. f_equal. f_equal. symmetry.
    apply (offset_upto_inj sp d (choice_of idx) tc Hd Hchoice); [congruence|done]. }
  destruct q.
  - specialize (Hq eq_refl). rewrite Hn in Hq.
    assert (Hchoice1 : forall k, k < tc -> choice_of idx1 k < sp k).
    { intros k Hk. specialize (Hwf1 k Hk). unfold choice_of. lia. }
    pose proof (offset_upto_bound sp (choice_of idx1) tc Hchoice1) as Hbound1.
    rewrite Hq in Hbound1.
    specialize (IH (n + 1) X1 idx1 Hs1 ltac:(lia) Hwf1 Hq ltac:(lia) ltac:(lia)).
    cbv zeta in IH. replace (xc0 + n + 1) with (xc0 + (n + 1)) by lia.
    destruct (do_while fuel _ (X1, xc0 + (n + 1), idx1)) as [[X2 xc2] idx2].
    cbn [fst snd] in *. destruct IH as (Hxc2 & Hs2 & Hframe2 & Hval2).
    split; [done|]. split; [done|]. split.
    + intros r c Hrc. rewrite Hframe2 by lia. apply Hframe1. lia.
    + intros d Hd Hdn r Hr.
      destruct (decide (offset_upto sp d tc = n)) as [Heq|Hne].
      * rewrite Heq. rewrite Hframe2 by lia. by apply Hcol.
      * rewrite Hval2 by (done || lia). apply term_product_ext.
        intros k Hk. apply Hframe1. left.
        specialize (Hsources k Hk). specialize (Hd k Hk). fold st in Hsources. lia.
  - specialize (Hnq eq_refl). destruct Hnq as [Hlast _]. rewrite Hn in Hlast.
    cbn [fst snd]. split; [lia|]. split; [done|]. split.
    + intros r c Hrc. apply Hframe1. lia.
    + intros d Hd Hdn r Hr.
      pose proof (offset_upto_bound sp d tc Hd) as Hbd.
      assert (Heq : offset_upto sp d tc = n) by lia.
      rewrite Heq. by apply Hcol.
Qed.

End InteractionRounds.

Section InteractionLayout.
Context {D : Type} `{Double D}.

Lemma offset_upto_sp_ext (sp sp' d : nat -> nat) (n : nat) :
  (forall k, k < n -> sp k = sp' k) -> offset_upto sp d n = offset_upto sp' d n.
Proof.
  induction n as [|n IH]; intros Hsp; [done|].
  cbn [offset_upto]. rewrite IH by (intros; apply Hsp; lia). by rewrite Hsp by lia.
Qed.

Lemma prod_upto_sp_ext (sp sp' : nat -> nat) (n : nat) :
  (forall k, k < n -> sp k = sp' k) -> prod_upto sp n = prod_upto sp' n.
Proof.
  induction n as [|n IH]; intros Hsp; [done|].
  cbn [prod_upto]. rewrite IH by (intros; apply Hsp; lia). by rewrite Hsp by lia.
Qed.

Lemma offset_upto_zero (sp d : nat -> nat) (n : nat) :
  (forall k, k < n -> d k = 0) -> offset_upto sp d n = 0.
Proof.
  induction n as [|n IH]; intros Hd; [done|].
  cbn [offset_upto]. rewrite IH by (intros; apply Hd; lia). rewrite Hd by lia. lia.
Qed.

(** Step 6 finds for each main effect the column where its block starts
    and the number of its columns. *)
Lemma column_layout_spec (mdl : model D) (t : nat) :
  t < numiv mdl ->
  (column_layout mdl (2 + numiv mdl)).1.1 !! t = Some (main_start mdl t) /\
  (column_layout mdl (2 + numiv mdl)).1.2 !! t = Some (main_span mdl t).
Proof.
  intros Ht. unfold column_layout.
  replace (2 + numiv mdl - 2) with (numiv mdl) by lia.
  set (body := fun (i : nat) '(startcol, colspan, xc) => _).
  assert (Hinv : forall n, n <= numiv mdl ->
            let st := for_loop 0 n body (replicate (numiv mdl) 0, replicate (numiv mdl) 0, 1) in
            length st.1.1 = numiv mdl /\ length st.1.2 = numiv mdl /\
            st.2 = main_start mdl n /\
            forall t, t < n -> st.1.1 !! t = Some (main_start mdl t) /\
                               st.1.2 !! t = Some (main_span mdl t)).
  { induction n as [|n IH]; intros Hn.
    - cbn [fst snd]. rewrite for_loop_empty by done. cbn [fst snd].
      rewrite length_replicate. split; [done|]. split; [done|]. split; [done|].
      intros t' Ht'. lia.
    - rewrite for_loop_last by lia. specialize (IH ltac:(lia)). cbv zeta in IH.
      destruct (for_loop 0 n body _) as [[startcol colspan] xc].
      cbn [fst snd] in IH. destruct IH as (Hl1 & Hl2 & -> & Hval).
      unfold body. cbn [fst snd]. rewrite !length_insert.
      split; [done|]. split; [done|].
      rewrite list_lookup_insert_eq by lia. cbn [default from_option id].
      pose proof (main_start_S mdl n) as HS. unfold main_span in HS.
      split.
      + destruct (direct_at mdl n =? 0)%Z; cbn [negb]; lia.
      + intros t' Ht'. destruct (decide (t' = n)) as [->|Hne].
        * rewrite !list_lookup_insert_eq by lia. split; [done|]. f_equal.
          unfold main_span. destruct (direct_at mdl n =? 0)%Z; cbn [negb]; lia.
        * rewrite !list_lookup_insert_ne by lia. apply Hval. lia. }
  specialize (Hinv (numiv mdl) ltac:(lia)). cbv zeta in Hinv.
  destruct Hinv as (_ & _ & _ & Hval). by apply Hval.
Qed.

(** A term of an interaction of a tabulated model is a main effect. *)
Lemma term_in_range (mdl : model D) (i k : nat) :
  tabulated mdl = true -> i < numints mdl -> k < inttc mdl i ->
  (0 <= term_at mdl i k)%Z /\ term_var mdl i k < numiv mdl.
Proof.
  intros Ht Hi Hk. apply tabulated_spec in Ht as (_ & _ & Hints).
  unfold inttc in Hk. unfold term_var, term_at.
  destruct (lookup_lt_is_Some_2 (ints mdl) i Hi) as [terms Hterms].
  rewrite Hterms in *. cbn [default from_option id] in *.
  destruct (lookup_lt_is_Some_2 terms k Hk) as [t Htk]. rewrite Htk. cbn [default from_option id].
  specialize (Hints terms t (list_elem_of_lookup_2 _ _ _ Hterms)
                (list_elem_of_lookup_2 _ _ _ Htk)). lia.
Qed.

(** The number of columns of an interaction is the product of the spans of
    its terms. *)
Lemma interaction_span_prod (mdl : model D) (i : nat) :
  tabulated mdl = true -> i < numints mdl ->
  interaction_span mdl i = prod_upto (term_span mdl i) (inttc mdl i).
Proof.
  intros Ht Hi. pose proof (tabulated_spec mdl Ht) as (_ & Hfreq & _).
  unfold interaction_span, interaction_columns.
  assert (Hinv : forall n, n <= inttc mdl i ->
            for_loop 0 n (fun j k =>
              if (direct_term mdl (term_at mdl i j) =? 0)%Z
              then (k * (Z.of_nat (freq_n_term mdl (term_at mdl i j)) - 1))%Z
              else k) 1%Z
            = Z.of_nat (prod_upto (term_span mdl i) n)).
  { induction n as [|n IH]; intros Hn; [done|].
    rewrite for_loop_last by lia. rewrite IH by lia. cbn [prod_upto].
    destruct (term_in_range mdl i n Ht Hi ltac:(lia)) as [H0 Hlt].
    assert (Hd : direct_term mdl (term_at mdl i n) = direct_at mdl (term_var mdl i n)).
    { unfold direct_term, direct_at, zlookup, term_var.
      destruct (term_at mdl i n <? 0)%Z eqn:Hneg; [lia|done]. }
    assert (Hf : freq_n_term mdl (term_at mdl i n) = freq_n mdl (term_var mdl i n)).
    { unfold freq_n_term, freq_n, zlookup, term_var.
      destruct (term_at mdl i n <? 0)%Z eqn:Hneg; [lia|done]. }
    rewrite Hd, Hf. specialize (Hfreq _ Hlt).
    set (P := prod_upto (term_span mdl i) n).
    unfold term_span, main_span.
    destruct (direct_at mdl (term_var mdl i n) =? 0)%Z.
    - rewrite Nat2Z.inj_mul. f_equal. lia.
    - by rewrite Nat.mul_1_r. }
  rewrite (Hinv (inttc mdl i)) by lia. lia.
Qed.

End InteractionLayout.

Section InteractionsSpec.
Context {D : Type} `{Double D}.

Lemma design_rows_shape (mdl : model D) (dummy : bool) (J K : nat) :
  main_start mdl (numiv mdl) <= K ->
  let xt := obs (xtab mdl) in
  let cols := 2 + numiv mdl in
  let ps := populations xt cols in
  shape (g_X (design_rows mdl dummy xt cols J (p_N ps) K (p_popindex ps))) (p_N ps) K.
Proof.
  intros HK xt cols ps. unfold design_rows.
  destruct (populations_spec xt cols) as (_ & _ & Hplt & _). fold ps in Hplt.
  apply (for_loop_ind (fun i (st : design_state D) => shape (g_X st) (p_N ps) K)); [lia| |].
  - cbn [g_X]. apply shape_replicate.
  - intros i st Hi Hs. unfold design_row.
    set (pop := default 0 (p_popindex ps !! i)).
    destruct (negb (Z.of_nat pop =? g_lastpop st)%Z).
    + pose proof (encode_row_spec mdl dummy xt i pop (g_X st)
                    (p_N ps) K Hs (Hplt i ltac:(lia)) HK) as Henc.
      cbv zeta in Henc. fold cols in Henc.
      destruct (encode_row mdl dummy xt cols i _ (g_X st)) as [X' xc'].
      cbn [fst snd g_X] in *. by destruct Henc.
    + done.
Qed.

(** Step 6: the block of each interaction holds, for each choice of one
    column of each of its terms, the product of the chosen columns. *)
Lemma interactions_spec (mdl : model D) (N K : nat) (startcol colspan : list nat)
    (X0 : list (list D)) :
  tabulated mdl = true ->
  (forall i k, i < numints mdl -> k < inttc mdl i -> 1 <= term_span mdl i k) ->
  (forall t, t < numiv mdl ->
     startcol !! t = Some (main_start mdl t) /\ colspan !! t = Some (main_span mdl t)) ->
  shape X0 N K -> K = interaction_start mdl (numints mdl) ->
  let X' := interactions mdl N startcol colspan (main_start mdl (numiv mdl)) X0 in
  shape X' N K /\
  (forall r c, c < main_start mdl (numiv mdl) \/ N <= r -> mget X' r c = mget X0 r c) /\
  (forall i d r, i < numints mdl ->
     (forall k, k < inttc mdl i -> d k < term_span mdl i k) -> r < N ->
     mget X' r (interaction_start mdl i + offset_upto (term_span mdl i) d (inttc mdl i))
     = term_product X0 (fun k => main_start mdl (term_var mdl i k)) d (inttc mdl i) r).
Proof.
  intros Ht Hspans Hlayout Hs HK X'. subst X'. unfold interactions.
  set (body := fun (i : nat) '(X, xc) => _).
  assert (Hs0 : interaction_start mdl 0 = main_start mdl (numiv mdl)).
  { unfold interaction_start. cbn [seq sum_list_with]. lia. }
  assert (Hinv : let st := for_loop 0 (numints mdl) body (X0, main_start mdl (numiv mdl)) in
    st.2 = interaction_start mdl (numints mdl) /\ shape st.1 N K /\
    (forall r c, c < main_start mdl (numiv mdl) \/ N <= r -> mget st.1 r c = mget X0 r c) /\
    (forall i d r, i < numints mdl ->
       (forall k, k < inttc mdl i -> d k < term_span mdl i k) -> r < N ->
       mget st.1 r (interaction_start mdl i + offset_upto (term_span mdl i) d (inttc mdl i))
       = term_product X0 (fun k => main_start mdl (term_var mdl i k)) d (inttc mdl i) r)).
  2:{ cbv zeta in Hinv. by destruct Hinv as (_ & ? & ? & ?). }
  apply (for_loop_ind (fun n (st : list (list D) * nat) =>
    st.2 = interaction_start mdl n /\ shape st.1 N K /\
    (forall r c, c < main_start mdl (numiv mdl) \/ N <= r -> mget st.1 r c = mget X0 r c) /\
    (forall i d r, i < n ->
       (forall k, k < inttc mdl i -> d k < term_span mdl i k) -> r < N ->
       mget st.1 r (interaction_start mdl i + offset_upto (term_span mdl i) d (inttc mdl i))
       = term_product X0 (fun k => main_start mdl (term_var mdl i k)) d (inttc mdl i) r)));
    [lia| |].
  - cbn [fst snd]. split; [done|]. split; [done|]. split; [done|]. intros i d r Hi. lia.
  - intros i [X xc] Hi (Hxc & Hsx & Hframe & Hval). cbn [fst snd] in Hxc, Hsx, Hframe, Hval.
    subst xc. unfold body.
    set (tc := inttc mdl i).
    set (st k := default 0 (zlookup startcol (term_at mdl i k))).
    set (sp k := default 0 (zlookup colspan (term_at mdl i k))).
    assert (Hst : forall k, k < tc -> st k = main_start mdl (term_var mdl i k)).
    { intros k Hk. destruct (term_in_range mdl i k Ht ltac:(lia) Hk) as [H0 Hlt].
      destruct (Hlayout _ Hlt) as [Hsc _]. unfold st, zlookup.
      destruct (term_at mdl i k <? 0)%Z eqn:Hneg; [lia|].
      fold (term_var mdl i k). by rewrite Hsc. }
    assert (Hsp : forall k, k < tc -> sp k = term_span mdl i k).
    { intros k Hk. destruct (term_in_range mdl i k Ht ltac:(lia) Hk) as [H0 Hlt].
      destruct (Hlayout _ Hlt) as [_ Hcs]. unfold sp, zlookup.
      destruct (term_at mdl i k <? 0)%Z eqn:Hneg; [lia|].
      fold (term_var mdl i k). by rewrite Hcs. }
    pose proof (interaction_span_prod mdl i Ht ltac:(lia)) as HT. fold tc in HT.
    rewrite <- (prod_upto_sp_ext sp (term_span mdl i) tc Hsp) in HT.
    pose proof (interaction_start_S mdl i) as HS.
    pose proof (interaction_start_mono mdl (Datatypes.S i) (numints mdl) ltac:(lia)) as Hm.
    pose proof (interaction_start_mono mdl 0 i ltac:(lia)) as Hm0.
    pose proof (interaction_rounds mdl N K startcol colspan i (interaction_start mdl i)) as Hr.
    fold tc in Hr. fold st in Hr. fold sp in Hr.
    specialize (Hr ltac:(intros k Hk; rewrite (Hst k Hk), (Hsp k Hk);
                         destruct (term_in_range mdl i k Ht ltac:(lia) Hk) as [_ Hlt];
                         pose proof (main_start_S mdl (term_var mdl i k));
                         pose proof (main_start_mono mdl (Datatypes.S (term_var mdl i k))
                                       (numiv mdl) ltac:(lia));
                         unfold term_span; lia)).
    specialize (Hr ltac:(lia)).
    specialize (Hr (Datatypes.S (Z.to_nat (interaction_columns mdl i))) 0 X (replicate tc 1)
                  Hsx ltac:(by rewrite length_replicate)).
    specialize (Hr ltac:(intros k Hk; rewrite lookup_replicate_2 by done;
                         cbn [default from_option id];
                         pose proof (Hspans i k ltac:(lia) Hk) as H1;
                         rewrite (Hsp k Hk); lia)).
    specialize (Hr ltac:(apply offset_upto_zero; intros k Hk; unfold choice_of;
                         by rewrite lookup_replicate_2 by done)).
    specialize (Hr ltac:(unfold interaction_span in HT; lia) ltac:(lia)).
    cbv zeta in Hr. rewrite Nat.add_0_r in Hr.
    destruct (do_while _ _ (X, interaction_start mdl i, replicate tc 1)) as [[X1 xc1] idx1].
    cbn [fst snd] in *. destruct Hr as (Hxc1 & Hs1 & Hframe1 & Hval1).
    split; [lia|]. split; [done|]. split.
    + intros r c Hrc. rewrite Hframe1 by lia. by apply Hframe.
    + intros i' d r Hi' Hd Hrow. destruct (decide (i' = i)) as [->|Hne].
      * fold tc.
        rewrite <- (offset_upto_sp_ext sp (term_span mdl i) d tc Hsp).
        rewrite Hval1; [| |lia|done].
        2:{ intros k Hk. rewrite (Hsp k Hk). by apply Hd. }
        apply term_product_ext. intros k Hk. rewrite (Hst k Hk). apply Hframe. left.
        destruct (term_in_range mdl i k Ht ltac:(lia) Hk) as [_ Hlt].
        pose proof (main_start_S mdl (term_var mdl i k)).
        pose proof (main_start_mono mdl (Datatypes.S (term_var mdl i k)) (numiv mdl)
                      ltac:(lia)).
        specialize (Hd k Hk). unfold term_span in Hd. lia.
      * pose proof (interaction_start_mono mdl (Datatypes.S i') i ltac:(lia)) as Hm'.
        pose proof (interaction_start_S mdl i') as HS'.
        pose proof (interaction_span_prod mdl i' Ht ltac:(lia)) as HT'.
        pose proof (offset_upto_bound (term_span mdl i') d (inttc mdl i') Hd) as Hb.
        rewrite Hframe1 by lia. apply Hval; [lia|done|done].
Qed.

End InteractionsSpec.

Section InteractionTheorem.
Context {D : Type} `{Double D}.

(** In the design matrix of a tabulated model in which every term of an
    interaction has a column, each column of the block of an interaction
    is the product, row by row, of one column of each of its terms: for the
    choice [d k] of a column of each term [k], the column is the one at
    [offset_upto] in the block, the last term varying fastest, and its cell
    in row [r] is 1 multiplied by the cells of row [r] in the chosen columns
    of the terms, in their order. *)
Theorem interaction_columns_product (opts : options) (mdl : model D) (i : nat)
    (d : nat -> nat) (r : nat) :
  tabulated mdl = true ->
  (forall i' k, i' < numints mdl -> k < inttc mdl i' -> 1 <= term_span mdl i' k) ->
  i < numints mdl ->
  (forall k, k < inttc mdl i -> d k < term_span mdl i k) ->
  r < d_N (build_design opts mdl) ->
  let X := d_X (build_design opts mdl) in
  mget X r (interaction_start mdl i + offset_upto (term_span mdl i) d (inttc mdl i))
  = term_product X (fun k => main_start mdl (term_var mdl i k)) d (inttc mdl i) r.
Proof.
  intros Ht Hspans Hi Hd Hr X. subst X. revert Hr. unfold build_design.
  pose proof (tabulated_spec mdl Ht) as (Hnv & _ & _). rewrite Hnv.
  pose proof (column_layout_xc mdl) as Hxc.
  pose proof (column_layout_spec mdl) as Hlayout.
  destruct (column_layout mdl (2 + numiv mdl)) as [[startcol colspan] xc].
  cbn [fst snd] in Hxc, Hlayout. subst xc. cbn [d_X d_N]. intros Hr.
  pose proof (main_columns_fit mdl Ht) as HK.
  pose proof (design_rows_shape mdl (dummy_coding opts) (freq_n mdl (numiv mdl)) _ HK) as Hs.
  cbv zeta in Hs.
  pose proof (interactions_spec mdl _ _ startcol colspan _ Ht Hspans Hlayout Hs
                (count_columns_layout mdl Ht)) as Hint.
  cbv zeta in Hint. destruct Hint as (_ & Hframe & Hval).
  rewrite (Hval i d r Hi Hd Hr). symmetry. apply term_product_ext.
  intros k Hk. apply Hframe. left.
  destruct (term_in_range mdl i k Ht Hi Hk) as [_ Hlt].
  pose proof (main_start_S mdl (term_var mdl i k)).
  pose proof (main_start_mono mdl (Datatypes.S (term_var mdl i k)) (numiv mdl) ltac:(lia)).
  specialize (Hd k Hk). unfold term_span in Hd. lia.
Qed.

End InteractionTheorem.

(** Scenario 5, [logreg d y = a b a*b]: the last column of the
    interaction, column 11, is the product of the second column of a and the
    third column of b. *)
Lemma interaction_columns_product_witness :
  let mdl := tabulate scenario5_data scenario5_model in
  let X := d_X (build_design init_options mdl) in
  mget X 0 11
  = term_product X (fun k => main_start mdl (term_var mdl 0 k))
      (fun k => if (k =? 0)%nat then 1 else 2) (inttc mdl 0) 0.
Proof.
  intros mdl X.
  replace 11 with (interaction_start mdl 0
                   + offset_upto (term_span mdl 0) (fun k => if (k =? 0)%nat then 1 else 2)
                       (inttc mdl 0)) by (vm_compute; reflexivity).
  apply (interaction_columns_product init_options mdl 0
           (fun k => if (k =? 0)%nat then 1 else 2) 0).
  - vm_compute. reflexivity.
  - intros i' k Hi' Hk.
    assert (i' = 0) as -> by (vm_compute in Hi'; lia).
    assert (k = 0 \/ k = 1) as [-> | ->] by (vm_compute in Hk; lia); vm_compute; lia.
  - vm_compute. lia.
  - intros k Hk.
    assert (k = 0 \/ k = 1) as [-> | ->] by (vm_compute in Hk; lia); vm_compute; lia.
  - vm_compute. lia.
Defined.

(* ================================================================== *)
(** * The Hessian *)

Section HessianFacts.
Context {D : Type} `{Double D} `{Libm D}.

Lemma mset_out_of_range (x : list (list D)) (r c i j : nat) (v : D) :
  shape x r c -> r <= i \/ c <= j -> mset x i j v = x.
Proof.
  intros [Hr Hc] Hij. unfold mset. apply list_eq. intros k.
  destruct (decide (k = i)) as [->|Hne].
  - rewrite list_lookup_alter_eq. destruct (x !! i) as [row|] eqn:Hrow; [|done].
    cbn. f_equal. apply lookup_lt_Some in Hrow as Hlt.
    destruct Hij as [Hi|Hj]; [lia|].
    apply list_insert_ge. rewrite Forall_forall in Hc.
    rewrite (Hc row); [done|]. by apply list_elem_of_lookup_2 in Hrow.
  - by rewrite list_lookup_alter_ne.
Qed.

Lemma H_add_sym_symmetric (P : nat) (Hm : list (list D)) (a b : nat) (v : D) :
  symmetric P Hm -> symmetric P (H_add_sym Hm a b v).
Proof.
  intros [Hs Hsym]. unfold H_add_sym.
  destruct (decide (a < P /\ b < P)) as [[Ha Hb]|Hout].
  - set (H1 := mset Hm a b (mget Hm a b .+ v)).
    assert (Hs1 : shape H1 P P) by (by apply shape_mset).
    assert (Hab : mget H1 a b = mget Hm a b .+ v).
    { unfold H1. by apply (mget_mset_eq _ P P). }
    split; [by apply shape_mset|].
    assert (Hcell : forall r c,
              mget (mset H1 b a (mget H1 a b)) r c
              = if decide ((r = a /\ c = b) \/ (r = b /\ c = a)) then mget Hm a b .+ v
                else mget Hm r c).
    { intros r c. destruct (decide (r = b /\ c = a)) as [[-> ->]|Hne1].
      - rewrite (mget_mset_eq _ P P) by done. rewrite Hab.
        destruct (decide _) as [_|Hn]; [done|]. exfalso. apply Hn. by right.
      - rewrite mget_mset_ne by lia.
        destruct (decide (r = a /\ c = b)) as [[-> ->]|Hne2].
        + rewrite Hab. destruct (decide _) as [_|Hn]; [done|]. exfalso. apply Hn. by left.
        + unfold H1. rewrite mget_mset_ne by lia.
          destruct (decide _) as [Hy|_]; [lia|done]. }
    intros r c. rewrite !Hcell.
    destruct (decide ((r = a /\ c = b) \/ (r = b /\ c = a))) as [Hy|Hn];
      destruct (decide ((c = a /\ r = b) \/ (c = b /\ r = a))) as [Hy'|Hn'];
      try lia; try done.
  - assert (H1 : mset Hm a b (mget Hm a b .+ v) = Hm).
    { apply (mset_out_of_range _ P P); [done|lia]. }
    rewrite H1. rewrite (mset_out_of_range _ P P) by (done || lia). by split.
Qed.

End HessianFacts.

Section HessianTheorem.
Context {D : Type} `{Double D} `{Libm D}.

Lemma mget_zero (P Q a b : nat) : mget (replicate P (replicate Q d0)) a b = d0.
Proof.
  unfold mget. destruct (replicate P (replicate Q d0) !! a) as [row|] eqn:Hrow; [|done].
  apply lookup_replicate in Hrow as [-> _]. unfold vget.
  destruct (replicate Q d0 !! b) as [x|] eqn:Hx; [|done].
  by apply lookup_replicate in Hx as [-> _].
Qed.

Lemma hessian_run (P : nat) (w : nat -> D) (jj lo hi : nat) (Hm : list (list D)) (kk : nat) :
  symmetric P Hm ->
  symmetric P (for_loop lo hi (fun kprime '(Hm, kk) =>
                 (H_add_sym Hm jj kk (w kprime), kk + 1)) (Hm, kk)).1.
Proof.
  intros Hsym.
  apply (for_loop_inv (fun st : list (list D) * nat => symmetric P st.1)); [done|].
  intros k [Hk kk'] _ Hs. cbn [fst] in *. by apply H_add_sym_symmetric.
Qed.

Lemma nr_derivatives_symmetric (P : nat) (X Y : list (list D)) (n : list D) (J K : nat)
    (pi_i : list D) (i : nat) (g : list D) (Hm : list (list D)) :
  symmetric P Hm -> symmetric P (nr_derivatives X Y n J K pi_i i g Hm).2.
Proof.
  intros Hsym. unfold nr_derivatives.
  set (body := fun (j : nat) '(g, Hm, jj) => _).
  assert (Hinv : symmetric P (for_loop 0 (J - 1) body (g, Hm, 0)).1.2).
  { apply (for_loop_inv (fun st : list D * list (list D) * nat => symmetric P st.1.2));
      [done|].
    intros j [[g1 H1] jj1] _ Hs1. cbn [fst snd] in Hs1. unfold body.
    apply (for_loop_inv (fun st : list D * list (list D) * nat => symmetric P st.1.2));
      [done|].
    intros k [[g2 H2] jj2] _ Hs2. cbn [fst snd] in Hs2.
    pose proof (hessian_run P
                  (fun kprime => vget n i .* vget pi_i j .* (d1 .- vget pi_i j)
                                 .* mget X i k .* mget X i kprime)
                  jj2 k K H2 jj2 Hs2) as Hrun1.
    destruct (for_loop k K _ (H2, jj2)) as [H3 kk3]. cbn [fst] in Hrun1.
    assert (Hrun2 : symmetric P
              (for_loop (j + 1) (J - 1) (fun jprime '(Hm, kk) =>
                 let w2 := dneg (vget n i) .* vget pi_i j .* vget pi_i jprime in
                 for_loop 0 K (fun kprime '(Hm, kk) =>
                   (H_add_sym Hm jj2 kk (w2 .* mget X i k .* mget X i kprime), kk + 1))
                   (Hm, kk)) (H3, kk3)).1).
    { apply (for_loop_inv (fun st : list (list D) * nat => symmetric P st.1)); [done|].
      intros jprime [H4 kk4] _ Hs4. cbn [fst] in Hs4. cbv zeta.
      by apply (hessian_run P
                  (fun kprime => dneg (vget n i) .* vget pi_i j .* vget pi_i jprime
                                 .* mget X i k .* mget X i kprime)). }
    destruct (for_loop (j + 1) (J - 1) _ (H3, kk3)) as [H5 kk5]. cbn [fst snd] in *. done. }
  destruct (for_loop 0 (J - 1) body (g, Hm, 0)) as [[g' H'] jj']. cbn [fst snd] in *. done.
Qed.

(** The Hessian that [newton_raphson] hands to [cholesky] is a square
    matrix of order K (J - 1) that equals its transpose: each cell written
    above the diagonal is copied below it. *)
Theorem hessian_symmetric (X Y : list (list D)) (n : list D) (J N K : nat) (beta0 : list D) :
  let Hm := s_H (nr_accumulate X Y n J N K beta0) in
  shape Hm (K * (J - 1)) (K * (J - 1)) /\
  forall a b, mget Hm a b = mget Hm b a.
Proof.
  intros Hm. subst Hm. unfold nr_accumulate, nr_sums_of. cbn [s_H].
  change (symmetric (K * (J - 1))
            (s_H (for_loop 0 N
                    (fun i st => nr_population X Y n J K (nr_pi X J K beta0 i) i st)
                    {| s_g := replicate (K * (J - 1)) d0;
                       s_H := replicate (K * (J - 1)) (replicate (K * (J - 1)) d0);
                       s_loglike := d0; s_deviance := d0 |}))).
  apply (for_loop_inv (fun st : nr_sums D => symmetric (K * (J - 1)) (s_H st))).
  - cbn [s_H]. split; [apply shape_replicate|].
    intros a b. by rewrite !mget_zero.
  - intros i st _ Hs. unfold nr_population.
    pose proof (nr_derivatives_symmetric (K * (J - 1)) X Y n J K (nr_pi X J K beta0 i) i
                  (s_g st) (s_H st) Hs) as Hd.
    destruct (nr_derivatives X Y n J K (nr_pi X J K beta0 i) i (s_g st) (s_H st)) as [g' H'].
    cbn [snd s_H] in *. done.
Qed.

End HessianTheorem.

(* ================================================================== *)
(** * The table of estimates *)

Section ReportFacts.
Context {D : Type} `{Double D} `{Libm D}.

(** The tests of the parameters, one by one. *)
Lemma parameter_tests_spec (P : nat) (st : loop_state D) (i : nat) :
  i < P ->
  let '(stderrs, wald, sigprms) := parameter_tests P st in
  if mget (l_xtwx st) i i .> d0 then
    vget stderrs i = sqrt (mget (l_xtwx st) i i) /\
    vget wald i = pow (vget (l_beta st) i ./ sqrt (mget (l_xtwx st) i i)) (d_of_int 2) /\
    vget sigprms i = d1 .- gsl_cdf_chisq_P (vget wald i) d1
  else vget sigprms i = d_of_int (-1).
Proof.
  intros Hi. unfold parameter_tests.
  set (body := fun (i : nat) '(stderrs, wald, sigprms) => _).
  assert (Hinv : forall n, n <= P ->
    let r := for_loop 0 n body (replicate P d0, replicate P d0, replicate P d0) in
    length r.1.1 = P /\ length r.1.2 = P /\ length r.2 = P /\
    forall i, i < n ->
      if mget (l_xtwx st) i i .> d0 then
        vget r.1.1 i = sqrt (mget (l_xtwx st) i i) /\
        vget r.1.2 i = pow (vget (l_beta st) i ./ sqrt (mget (l_xtwx st) i i)) (d_of_int 2) /\
        vget r.2 i = d1 .- gsl_cdf_chisq_P (vget r.1.2 i) d1
      else vget r.2 i = d_of_int (-1)).
  { induction n as [|n IH]; intros Hn.
    - rewrite for_loop_empty by done. cbn [fst snd]. rewrite length_replicate.
      split; [done|]. split; [done|]. split; [done|]. intros i' Hi'. lia.
    - rewrite for_loop_last by lia. specialize (IH ltac:(lia)). cbv zeta in IH.
      destruct (for_loop 0 n body _) as [[se w] sg]. cbn [fst snd] in IH.
      destruct IH as (Hl1 & Hl2 & Hl3 & Hval). unfold body.
      destruct (mget (l_xtwx st) n n .> d0) eqn:Hpos; cbn [fst snd];
        rewrite ?length_insert.
      + split; [done|]. split; [done|]. split; [done|].
        intros i' Hi'. destruct (decide (i' = n)) as [->|Hne].
        * rewrite Hpos. rewrite !vget_insert_eq by lia. done.
        * rewrite !vget_insert_ne by done. apply Hval. lia.
      + split; [done|]. split; [done|]. split; [done|].
        intros i' Hi'. destruct (decide (i' = n)) as [->|Hne].
        * rewrite Hpos. by rewrite vget_insert_eq by lia.
        * rewrite !vget_insert_ne by done. apply Hval. lia. }
  specialize (Hinv P ltac:(lia)). cbv zeta in Hinv.
  destruct (for_loop 0 P body _) as [[se w] sg]. cbn [fst snd] in Hinv.
  destruct Hinv as (_ & _ & _ & Hval). by apply Hval.
Qed.

(** Rows appended in two nested loops. *)
Lemma nested_rows {A : Type} (K M : nat) (f : nat -> nat -> A) :
  let out := for_loop 0 K (fun i out =>
               for_loop 0 M (fun j out => out ++ [f i j]) out) [] in
  length out = K * M /\
  forall i j, i < K -> j < M -> out !! (i * M + j) = Some (f i j).
Proof.
  intros out. subst out.
  assert (Hrow : forall i (l : list A),
            let l' := for_loop 0 M (fun j out => out ++ [f i j]) l in
            length l' = length l + M /\
            (forall c, c < length l -> l' !! c = l !! c) /\
            forall j, j < M -> l' !! (length l + j) = Some (f i j)).
  { intros i l l'. subst l'.
    apply (for_loop_ind (fun m (l' : list A) =>
      length l' = length l + m /\
      (forall c, c < length l -> l' !! c = l !! c) /\
      forall j, j < m -> l' !! (length l + j) = Some (f i j))); [lia| |].
    - split; [lia|]. split; [done|]. intros j Hj. lia.
    - intros m l' Hm (Hlen & Hold & Hnew). rewrite length_app. cbn [length].
      split; [lia|]. split.
      + intros c Hc. rewrite lookup_app_l by lia. by apply Hold.
      + intros j Hj. destruct (decide (j = m)) as [->|Hne].
        * rewrite <- Hlen. by apply list_lookup_middle.
        * rewrite lookup_app_l by lia. apply Hnew. lia. }
  apply (for_loop_ind (fun k (l : list A) =>
    length l = k * M /\
    forall i j, i < k -> j < M -> l !! (i * M + j) = Some (f i j))); [lia| |].
  - split; [done|]. intros i j Hi. lia.
  - intros k l Hk (Hlen & Hval). destruct (Hrow k l) as (Hlen' & Hold & Hnew).
    split; [lia|]. intros i j Hi Hj. destruct (decide (i = k)) as [->|Hne].
    + rewrite <- Hlen. by apply Hnew.
    + rewrite Hold by nia. apply Hval; [lia|done].
Qed.

(** The table of estimates has a line for each column [i] of X and each
    response level [j] below the last, in this order: it shows the label of
    the column, [j] and the coefficient [beta[j*K+i]], and, where
    [convergence] is not 0, the standard error [sqrt (xtwx[p][p])], the Wald
    statistic and its significance for [p = j*K+i], or the significance -1
    where [xtwx[p][p]] is not positive. *)
Theorem report_parameters (des : design D) (st : loop_state D) :
  let rep := make_report des st in
  let K := Z.to_nat (d_K des) in
  let J := d_J des in
  length (r_params rep) = K * (J - 1) /\
  forall i j, i < K -> j < J - 1 ->
    exists se w p,
      r_params rep !! (i * (J - 1) + j)
      = Some (default EmptyString (d_Xlabels des !! i), j,
              vget (l_beta st) (j * K + i), se, w, p) /\
      (l_convergence st <> 0%Z ->
       if mget (l_xtwx st) (j * K + i) (j * K + i) .> d0 then
         se = sqrt (mget (l_xtwx st) (j * K + i) (j * K + i)) /\
         w = pow (vget (l_beta st) (j * K + i) ./ se) (d_of_int 2) /\
         p = d1 .- gsl_cdf_chisq_P w d1
       else p = d_of_int (-1)).
Proof.
  intros rep K J. subst rep. unfold make_report. fold K. fold J.
  pose proof (fun p => parameter_tests_spec (K * (J - 1)) st p) as Htests.
  destruct (l_convergence st =? 0)%Z eqn:Hconv; cbn [negb].
  - cbn [r_params].
    destruct (nested_rows K (J - 1) (fun i j =>
                (default EmptyString (d_Xlabels des !! i), j,
                 vget (l_beta st) (j * K + i),
                 vget (replicate (K * (J - 1)) d0) (j * K + i),
                 vget (replicate (K * (J - 1)) d0) (j * K + i),
                 vget (replicate (K * (J - 1)) d0) (j * K + i)))) as [Hlen Hval].
    split; [exact Hlen|]. intros i j Hi Hj. eexists _, _, _. split; [by apply Hval|].
    apply Z.eqb_eq in Hconv. done.
  - destruct (parameter_tests (K * (J - 1)) st) as [[se w] sg]. cbn [r_params].
    destruct (nested_rows K (J - 1) (fun i j =>
                (default EmptyString (d_Xlabels des !! i), j,
                 vget (l_beta st) (j * K + i),
                 vget se (j * K + i), vget w (j * K + i), vget sg (j * K + i))))
      as [Hlen Hval].
    split; [exact Hlen|]. intros i j Hi Hj. eexists _, _, _. split; [by apply Hval|].
    intros _. specialize (Htests (j * K + i) ltac:(nia)).
    destruct (mget (l_xtwx st) (j * K + i) (j * K + i) .> d0); [|done].
    destruct Htests as (Hse & Hw & Hp). rewrite Hse. by rewrite <- Hse at 1.
Qed.

End ReportFacts.

(* ================================================================== *)
(** * The initial log likelihood *)

Section InitialLoglike.
Context {D : Type} `{Double D} `{Libm D}.

Lemma nr_loglike_sums (X Y : list (list D)) (n : list D) (J N K : nat)
    (beta0 beta1 : list D) (xtwx : list (list D)) :
  nr_loglike (newton_raphson X Y n J N K beta0 beta1 xtwx)
  = s_loglike (nr_accumulate X Y n J N K beta0).
Proof.
  unfold newton_raphson, nr_solve.
  destruct (cholesky _ _) as [r1 H1]. destruct (negb (r1 =? 0)%Z); [done|].
  destruct (backsub _ _) as [r2 H2]. destruct (negb (r2 =? 0)%Z); [done|].
  destruct (trimult _ _ _) as [r3 H3]. by destruct (negb (r3 =? 0)%Z).
Qed.

Lemma nr_while_loglike0 (X Y : list (list D)) (n : list D) (J N K : nat) (fuel : nat) :
  forall st : loop_state D, 1 <= l_iter st ->
  l_loglike0 (nr_while fuel X Y n J N K st) = l_loglike0 st /\
  l_iter st <= l_iter (nr_while fuel X Y n J N K st).
Proof.
  induction fuel as [|fuel IH]; intros st Hit; [done|].
  change (nr_while (Datatypes.S fuel) X Y n J N K st)
    with (if (l_iter st <? MAX_ITER)%nat && (l_convergence st =? 0)%Z
          then nr_while fuel X Y n J N K (nr_iteration X Y n J N K st) else st).
  destruct ((l_iter st <? MAX_ITER)%nat && (l_convergence st =? 0)%Z); [|done].
  destruct (nr_iteration_spec X Y n J N K st) as [Hstep _].
  destruct (IH (nr_iteration X Y n J N K st)) as [Hll Hiter]; [lia|].
  rewrite Hll. split; [|lia].
  change (l_loglike0 (nr_iteration X Y n J N K st))
    with (if (l_iter st =? 0)%nat
          then nr_loglike (newton_raphson X Y n J N K
                 (for_loop 0 (K * (J - 1)) (fun i beta0 => <[i := vget (l_beta st) i]> beta0)
                    (replicate (K * (J - 1)) d0)) (l_beta st) (l_xtwx st))
          else l_loglike0 st).
  destruct (l_iter st =? 0)%nat eqn:Hz; [|done]. apply Nat.eqb_eq in Hz. lia.
Qed.


End InitialLoglike.
